(** * Bregman projections for regularized optimal transport ([ot/bregman.py])

    A shallow embedding of the solvers of [ot/bregman.py] (Sinkhorn-Knopp,
    its log-stabilized and epsilon-scaling variants, the Wasserstein
    barycenter and the unmixing solver) and of the NumPy operations they
    use, followed by the properties of the specification.

    NumPy arrays of float64 are lists (vectors) and lists of rows
    (matrices) over a scalar type [F] with the float64 operations of the
    interface [Float64].  Two instances are used: the kernel's binary64
    floats (to run the solvers) and the reals extended with the IEEE
    special values (for statements of exact arithmetic).  Python exceptions
    are the [Raise] results of an error monad; console output is a list of
    events. *)

From Stdlib Require Import ZArith Bool Lia String List.
From Stdlib Require Import Reals Lra.
From Stdlib Require PrimFloat Uint63 Floats.
Import ListNotations.

Set Warnings "-inexact-float".

Set Implicit Arguments.

(** ** Exceptions and the error monad *)

Inductive exn : Type :=
| AssertionError
| ValueError
| ZeroDivisionError
| TypeError
| SyntaxError
| LoopBound.  (* no Python exception: the bounded model of a loop ran out of steps *)

Inductive result (A : Type) : Type :=
| Ok (a : A)
| Raise (e : exn).

Arguments Ok {A} a.
Arguments Raise {A} e.

Definition bind {A B : Type} (r : result A) (k : A -> result B) : result B :=
  match r with
  | Ok a => k a
  | Raise e => Raise e
  end.

Notation "x <- c ;; k" := (bind c (fun x => k))
  (at level 61, c at next level, right associativity).
Notation "' p <- c ;; k" := (bind c (fun p => k))
  (at level 61, p pattern, c at next level, right associativity).

Fixpoint mapM {A B : Type} (f : A -> result B) (l : list A) : result (list B) :=
  match l with
  | [] => Ok []
  | x :: t => y <- f x ;; ys <- mapM f t ;; Ok (y :: ys)
  end.

Fixpoint zip_with {A B C : Type} (f : A -> B -> C) (x : list A) (y : list B) : list C :=
  match x, y with
  | a :: x', b :: y' => f a b :: zip_with f x' y'
  | _, _ => []
  end.

(** A [while] loop with [break]: [body] returns the new state and whether it
    left the loop by [break].  The loop is bounded by [fuel]; running out of
    it is the result [Raise LoopBound], which the solvers below never
    produce (their fuel is computed from [numItermax]). *)
Fixpoint while {St : Type} (fuel : nat) (cond : St -> bool)
    (body : St -> result (St * bool)) (s : St) : result St :=
  if cond s then
    match fuel with
    | O => Raise LoopBound
    | S fuel' =>
        match body s with
        | Ok (s', true) => Ok s'
        | Ok (s', false) => while fuel' cond body s'
        | Raise e => Raise e
        end
    end
  else Ok s.

(** ** The float64 operations used by the module *)

Class Float64 (F : Type) : Type := {
  of_int : Z -> F;          (* conversion of a Python int *)
  lit_1em9 : F;             (* the literal 1e-9 *)
  lit_1em10 : F;            (* the literal 1e-10 *)
  lit_1e3 : F;              (* the literal 1e3 *)
  fadd : F -> F -> F;
  fsub : F -> F -> F;
  fmul : F -> F -> F;
  fdiv : F -> F -> F;
  fneg : F -> F;
  fabs : F -> F;
  fexp : F -> F;            (* np.exp *)
  flog : F -> F;            (* np.log *)
  fsqrt : F -> F;           (* np.sqrt *)
  fmaximum : F -> F -> F;   (* np.maximum: a NaN operand is returned *)
  feqb : F -> F -> bool;    (* == *)
  fltb : F -> F -> bool;    (* < *)
  fleb : F -> F -> bool;    (* <= *)
  fisnan : F -> bool        (* np.isnan *)
}.

(** ** NumPy on vectors and matrices *)

Section NumPy.

Context {F : Type} {FO : Float64 F}.

Local Abbreviation vec := (list F).
Local Abbreviation mat := (list (list F)).   (* the list of the rows *)

Definition nrows (m : mat) : nat := List.length m.       (* m.shape[0] *)
Definition ncols (m : mat) : nat := List.length (hd [] m). (* m.shape[1] *)

Definition np_ones (n : nat) : vec := repeat (of_int 1) n.
Definition np_zeros (n : nat) : vec := repeat (of_int 0) n.

(** [np.ones(n)/n]: the uniform distribution on [n] points. *)
Definition uniform (n : nat) : vec :=
  map (fun e => fdiv e (of_int (Z.of_nat n))) (np_ones n).

(** Elementwise operation on two 1-D arrays, with NumPy's broadcasting:
    equal lengths, or one of them of length 1. *)
Definition broadcast2 (op : F -> F -> F) (x y : vec) : result vec :=
  if Nat.eqb (List.length x) (List.length y) then Ok (zip_with op x y)
  else match x, y with
       | [x0], _ => Ok (map (op x0) y)
       | _, [y0] => Ok (map (fun e => op e y0) x)
       | _, _ => Raise ValueError
       end.

(** A 2-D array with a 1-D array: the vector is broadcast along the rows. *)
Definition broadcast_mv (op : F -> F -> F) (m : mat) (v : vec) : result mat :=
  mapM (fun row => broadcast2 op row v) m.

Fixpoint mapM2 {A B C : Type} (f : A -> B -> result C) (x : list A) (y : list B)
  : result (list C) :=
  match x, y with
  | a :: x', b :: y' => c <- f a b ;; cs <- mapM2 f x' y' ;; Ok (c :: cs)
  | _, _ => Ok []
  end.

(** Two 2-D arrays: each axis has equal sizes or one of them is 1. *)
Definition broadcast_mm (op : F -> F -> F) (A B : mat) : result mat :=
  if Nat.eqb (nrows A) (nrows B) then mapM2 (broadcast2 op) A B
  else match A, B with
       | [ra], _ => mapM (fun rb => broadcast2 op ra rb) B
       | _, [rb] => mapM (fun ra => broadcast2 op ra rb) A
       | _, _ => Raise ValueError
       end.

(** [x.reshape((n,1))] and [x.reshape((1,n))]. *)
Definition reshape_col (n : nat) (x : vec) : result mat :=
  if Nat.eqb (List.length x) n then Ok (map (fun e => [e]) x) else Raise ValueError.
Definition reshape_row (n : nat) (x : vec) : result mat :=
  if Nat.eqb (List.length x) n then Ok [x] else Raise ValueError.

(** Column [j] of a matrix, and the transpose [m.T]. *)
Definition column (j : nat) (m : mat) : vec := map (fun row => nth j row (of_int 0)) m.
Definition transpose (m : mat) : mat := map (fun j => column j m) (seq 0 (ncols m)).

Definition dot1 (x y : vec) : F := fold_left fadd (zip_with fmul x y) (of_int 0).

(** [np.dot] of a matrix and a vector, and of two matrices. *)
Definition np_dot_mv (A : mat) (x : vec) : result vec :=
  if forallb (fun row => Nat.eqb (List.length row) (List.length x)) A
  then Ok (map (fun row => dot1 row x) A)
  else Raise ValueError.

Definition np_dot_mm (A B : mat) : result mat :=
  if forallb (fun row => Nat.eqb (List.length row) (nrows B)) A
  then Ok (map (fun row => map (fun col => dot1 row col) (transpose B)) A)
  else Raise ValueError.

(** [np.diag] of a vector. *)
Fixpoint np_diag (v : vec) : mat :=
  match v with
  | [] => []
  | x :: t => (x :: np_zeros (List.length t)) :: map (cons (of_int 0)) (np_diag t)
  end.

Definition np_sum (x : vec) : F := fold_left fadd x (of_int 0).
Definition np_sum_axis1 (m : mat) : vec := map np_sum m.
Definition np_sum_axis0 (m : mat) : vec := map np_sum (transpose m).

Definition np_mean (x : vec) : F := fdiv (np_sum x) (of_int (Z.of_nat (List.length x))).
Definition np_mean_axis1 (m : mat) : vec := map np_mean m.

(** [np.std]: the square root of the mean squared deviation from the mean. *)
Definition np_std (x : vec) : F :=
  let mu := np_mean x in
  fsqrt (np_mean (map (fun e => let d := fabs (fsub e mu) in fmul d d) x)).
Definition np_std_axis1 (m : mat) : vec := map np_std m.

(** [np.linalg.norm] of a vector and the square [x**2]. *)
Definition np_linalg_norm (x : vec) : F := fsqrt (dot1 x x).
Definition fsquare (x : F) : F := fmul x x.

(** [x.max()]: a zero-size array has no maximum. *)
Definition np_max (x : vec) : result F :=
  match x with
  | [] => Raise ValueError
  | h :: t => Ok (fold_left fmaximum t h)
  end.

Definition np_any_zero (x : vec) : bool := existsb (fun e => feqb e (of_int 0)) x.
Definition np_any_isnan (x : vec) : bool := existsb fisnan x.

Definition vmap (f : F -> F) (x : vec) : vec := map f x.
Definition mmap (f : F -> F) (m : mat) : mat := map (map f) m.

(** [np.exp(-M/reg)] *)
Definition gibbs_kernel (M : mat) (reg : F) : mat :=
  mmap (fun e => fexp (fdiv (fneg e) reg)) M.

End NumPy.

(** ** Console output and the returned log *)

Section Solvers.

Context {F : Type} {FO : Float64 F}.

Local Abbreviation vec := (list F).
Local Abbreviation mat := (list (list F)).

Inductive event : Type :=
| Warning                      (* print('Warning: numerical errrors') *)
| Header                       (* the header line 'It.  |Err' and its rule *)
| Row (cpt : Z) (err : F).     (* the line '{:5d}|{:8e}|'.format(cpt,err) *)

(** [if len(x)==0: x=np.ones((n,))/n] *)
Definition default_marginal (x : vec) (n : nat) : vec :=
  if Nat.eqb (List.length x) 0 then uniform n else x.

(** [np.dot(np.diag(u),np.dot(K,np.diag(v)))] *)
Definition sinkhorn_plan (K : mat) (u v : vec) : result mat :=
  KV <- np_dot_mm K (np_diag v) ;;
  np_dot_mm (np_diag u) KV.

(** [np.linalg.norm((np.sum(transp,axis=0)-b))**2] *)
Definition marginal_error (transp : mat) (b : vec) : result F :=
  d <- broadcast2 fsub (np_sum_axis0 transp) b ;;
  Ok (fsquare (np_linalg_norm d)).

(** [np.any(np.dot(K.T,u)==0) or np.any(np.isnan(u)) or np.any(np.isnan(v))] *)
Definition numerical_errors (K : mat) (u v : vec) : result bool :=
  Ktu <- np_dot_mv (transpose K) u ;;
  Ok (np_any_zero Ktu || np_any_isnan u || np_any_isnan v).

(** The verbose lines of an error check at iteration [cpt], with the header
    every [period] iterations. *)
Definition verbose_lines (verbose : bool) (period cpt : Z) (err : F) : list event :=
  if verbose then (if Z.eqb (cpt mod period) 0 then [Header] else []) ++ [Row cpt err]
  else [].

(** ** The plain Sinkhorn-Knopp solver: [sinkhorn] *)

Record sk_state : Type := SkState {
  sk_u : vec;
  sk_v : vec;
  sk_uprev : vec;
  sk_vprev : vec;
  sk_transp : mat;
  sk_err : F;
  sk_cpt : Z;
  sk_log : list F;        (* log['err'] *)
  sk_out : list event     (* what was printed *)
}.

(** [err>stopThr and cpt<numItermax] *)
Definition sinkhorn_cond (stopThr : F) (numItermax : Z) (st : sk_state) : bool :=
  fltb stopThr (sk_err st) && Z.ltb (sk_cpt st) numItermax.

Definition sinkhorn_body (b : vec) (K Kp : mat) (verbose log : bool) (st : sk_state)
  : result (sk_state * bool) :=
  bad <- numerical_errors K (sk_u st) (sk_v st) ;;
  if bad then
    (* we have reached the machine precision:
       come back to previous solution and quit loop *)
    let out := sk_out st ++ [Warning] in
    if negb (Z.eqb (sk_cpt st) 0)
    then Ok (SkState (sk_uprev st) (sk_vprev st) (sk_uprev st) (sk_vprev st)
               (sk_transp st) (sk_err st) (sk_cpt st) (sk_log st) out, true)
    else Ok (SkState (sk_u st) (sk_v st) (sk_uprev st) (sk_vprev st)
               (sk_transp st) (sk_err st) (sk_cpt st) (sk_log st) out, true)
  else
    let uprev := sk_u st in
    let vprev := sk_v st in
    Ktu <- np_dot_mv (transpose K) (sk_u st) ;;
    v <- broadcast2 fdiv b Ktu ;;
    Kpv <- np_dot_mv Kp v ;;
    let u := vmap (fdiv (of_int 1)) Kpv in
    if Z.eqb (sk_cpt st mod 10) 0 then
      (* the error is checked only every 10th iteration *)
      transp <- sinkhorn_plan K u v ;;
      err <- marginal_error transp b ;;
      Ok (SkState u v uprev vprev transp err (sk_cpt st + 1)
            (if log then sk_log st ++ [err] else sk_log st)
            (sk_out st ++ verbose_lines verbose 200 (sk_cpt st) err), false)
    else
      Ok (SkState u v uprev vprev (sk_transp st) (sk_err st) (sk_cpt st + 1)
            (sk_log st) (sk_out st), false).

Definition sinkhorn_init (Nini Nfin : nat) (K : mat) : sk_state :=
  SkState (uniform Nini) (uniform Nfin) (np_zeros Nini) (np_zeros Nini)
    K (of_int 1) 0 [] [].

(** The state in which the loop of [sinkhorn] is left. *)
Definition sinkhorn_loop (a b : vec) (M : mat) (reg : F) (numItermax : Z) (stopThr : F)
    (verbose log : bool) : result sk_state :=
  let a := default_marginal a (nrows M) in
  let b := default_marginal b (ncols M) in
  let Nini := List.length a in
  let Nfin := List.length b in
  let K := gibbs_kernel M reg in
  Kp <- np_dot_mm (np_diag (vmap (fdiv (of_int 1)) a)) K ;;
  while (Z.to_nat numItermax) (sinkhorn_cond stopThr numItermax)
    (sinkhorn_body b K Kp verbose log) (sinkhorn_init Nini Nfin K).

(** [sinkhorn(a,b,M,reg,numItermax,stopThr,verbose,log)]: the plan, the log
    (when [log] is set) and the console output. *)
Definition sinkhorn (a b : vec) (M : mat) (reg : F) (numItermax : Z) (stopThr : F)
    (verbose log : bool) : result (mat * option (list F) * list event) :=
  st <- sinkhorn_loop a b M reg numItermax stopThr verbose log ;;
  G <- sinkhorn_plan (gibbs_kernel M reg) (sk_u st) (sk_v st) ;;
  Ok (G, if log then Some (sk_log st) else None, sk_out st).

(** ** The log-stabilized solver: [sinkhorn_stabilized] *)

(** [-(M-alpha.reshape((na,1))-beta.reshape((1,nb)))/reg] *)
Definition log_kernel (M : mat) (reg : F) (na nb : nat) (alpha beta : vec) : result mat :=
  A <- reshape_col na alpha ;;
  MA <- broadcast_mm fsub M A ;;
  B <- reshape_row nb beta ;;
  MAB <- broadcast_mm fsub MA B ;;
  Ok (mmap (fun e => fdiv (fneg e) reg) MAB).

(** [get_K(alpha,beta)]: log space computation *)
Definition get_K (M : mat) (reg : F) (na nb : nat) (alpha beta : vec) : result mat :=
  L <- log_kernel M reg na nb alpha beta ;;
  Ok (mmap fexp L).

(** [get_Gamma(alpha,beta,u,v)]: log space gamma computation *)
Definition get_Gamma (M : mat) (reg : F) (na nb : nat) (alpha beta u v : vec) : result mat :=
  L <- log_kernel M reg na nb alpha beta ;;
  U <- reshape_col na u ;;
  LU <- broadcast_mm fadd L (mmap flog U) ;;
  V <- reshape_row nb v ;;
  LUV <- broadcast_mm fadd LU (mmap flog V) ;;
  Ok (mmap fexp LUV).

Record stab_state : Type := StabState {
  st_alpha : vec;
  st_beta : vec;
  st_u : vec;
  st_v : vec;
  st_uprev : vec;
  st_vprev : vec;
  st_K : mat;
  st_transp : mat;
  st_err : F;
  st_cpt : Z;
  st_loop : bool;
  st_log : list F;
  st_out : list event
}.

(** [np.abs(u).max()>tau or np.abs(v).max()>tau] *)
Definition exceeds (tau : F) (u v : vec) : result bool :=
  mu <- np_max (vmap fabs u) ;;
  if fltb tau mu then Ok true
  else mv <- np_max (vmap fabs v) ;; Ok (fltb tau mv).

(** [x+reg*np.log(y)] *)
Definition absorb (reg : F) (x y : vec) : result vec :=
  broadcast2 fadd x (vmap (fmul reg) (vmap flog y)).

Definition stabilized_body (a b : vec) (M : mat) (reg : F) (na nb : nat)
    (numItermax : Z) (tau stopThr : F) (verbose : bool) (print_period : Z) (log : bool)
    (st : stab_state) : result (stab_state * bool) :=
  big <- exceeds tau (st_u st) (st_v st) ;;
  '(alpha, beta, u, v, K) <-
    (if big then
       alpha <- absorb reg (st_alpha st) (st_u st) ;;
       beta <- absorb reg (st_beta st) (st_v st) ;;
       K <- get_K M reg na nb alpha beta ;;
       Ok (alpha, beta, uniform na, uniform nb, K)
     else Ok (st_alpha st, st_beta st, st_u st, st_v st, st_K st)) ;;
  let uprev := u in
  let vprev := v in
  Ktu <- np_dot_mv (transpose K) u ;;
  v <- broadcast2 fdiv b Ktu ;;
  Kv <- np_dot_mv K v ;;
  u <- broadcast2 fdiv a Kv ;;
  'tt <- (if Z.eqb print_period 0 then Raise ZeroDivisionError else Ok tt) ;;
  '(transp, err, lg, out) <-
    (if Z.eqb (st_cpt st mod print_period) 0 then
       transp <- get_Gamma M reg na nb alpha beta u v ;;
       err <- marginal_error transp b ;;
       Ok (transp, err, (if log then st_log st ++ [err] else st_log st),
           st_out st ++ verbose_lines verbose (print_period * 20) (st_cpt st) err)
     else Ok (st_transp st, st_err st, st_log st, st_out st)) ;;
  let loop := if fleb err stopThr then false else st_loop st in
  let loop := if Z.geb (st_cpt st) numItermax then false else loop in
  bad <- numerical_errors K u v ;;
  if bad then
    let out := out ++ [Warning] in
    if negb (Z.eqb (st_cpt st) 0)
    then Ok (StabState alpha beta uprev vprev uprev vprev K transp err (st_cpt st) loop lg out, true)
    else Ok (StabState alpha beta u v uprev vprev K transp err (st_cpt st) loop lg out, true)
  else
    Ok (StabState alpha beta u v uprev vprev K transp err (st_cpt st + 1) loop lg out, false).

Record stab_log : Type := StabLog {
  lg_err : list F;
  lg_logu : vec;
  lg_logv : vec;
  lg_alpha : vec;
  lg_beta : vec;
  lg_warmstart : vec * vec
}.

(** The state in which the loop of [sinkhorn_stabilized] is left. *)
Definition stabilized_loop (a b : vec) (M : mat) (reg : F) (numItermax : Z) (tau stopThr : F)
    (warmstart : option (vec * vec)) (verbose : bool) (print_period : Z) (log : bool)
  : result stab_state :=
  let a := default_marginal a (nrows M) in
  let b := default_marginal b (ncols M) in
  let na := List.length a in
  let nb := List.length b in
  let '(alpha, beta) :=
    match warmstart with
    | None => (np_zeros na, np_zeros nb)
    | Some w => w
    end in
  K <- get_K M reg na nb alpha beta ;;
  while (S (Z.to_nat numItermax)) st_loop
    (stabilized_body a b M reg na nb numItermax tau stopThr verbose print_period log)
    (StabState alpha beta (uniform na) (uniform nb) (np_zeros na) (np_zeros nb)
       K K (of_int 1) 0 true [] []).

(** What [sinkhorn_stabilized] returns from the final state. *)
Definition stabilized_return (a b : vec) (M : mat) (reg : F) (log : bool) (st : stab_state)
  : result (mat * option stab_log * list event) :=
  let na := List.length (default_marginal a (nrows M)) in
  let nb := List.length (default_marginal b (ncols M)) in
  if log then
    logu <- broadcast2 fadd (vmap (fun e => fdiv e reg) (st_alpha st)) (vmap flog (st_u st)) ;;
    logv <- broadcast2 fadd (vmap (fun e => fdiv e reg) (st_beta st)) (vmap flog (st_v st)) ;;
    alpha <- absorb reg (st_alpha st) (st_u st) ;;
    beta <- absorb reg (st_beta st) (st_v st) ;;
    G <- get_Gamma M reg na nb (st_alpha st) (st_beta st) (st_u st) (st_v st) ;;
    Ok (G, Some (StabLog (st_log st) logu logv alpha beta (alpha, beta)), st_out st)
  else
    G <- get_Gamma M reg na nb (st_alpha st) (st_beta st) (st_u st) (st_v st) ;;
    Ok (G, None, st_out st).

Definition sinkhorn_stabilized (a b : vec) (M : mat) (reg : F) (numItermax : Z) (tau stopThr : F)
    (warmstart : option (vec * vec)) (verbose : bool) (print_period : Z) (log : bool)
  : result (mat * option stab_log * list event) :=
  st <- stabilized_loop a b M reg numItermax tau stopThr warmstart verbose print_period log ;;
  stabilized_return a b M reg log st.

(** ** Keyword arguments of a call

    A call [f(..., k1=v1, k2=v2, ...)] carries its keyword arguments in the
    order written.  Python rejects a call that repeats a keyword
    ([SyntaxError: keyword argument repeated]); the two other ways to read
    such a call, by its first or by its last binding, are kept beside it. *)

Inductive pyval : Type :=
| VInt (z : Z)
| VFloat (x : F)
| VBool (b : bool)
| VPair (x y : vec).

Inductive repeated_keyword : Type :=
| Reject       (* Python *)
| KeepFirst
| KeepLast.

Fixpoint lookup (k : string) (kw : list (string * pyval)) : option pyval :=
  match kw with
  | [] => None
  | (k', x) :: t => if String.eqb k k' then Some x else lookup k t
  end.

Fixpoint has_repeated (kw : list (string * pyval)) : bool :=
  match kw with
  | [] => false
  | (k, _) :: t => match lookup k t with Some _ => true | None => has_repeated t end
  end.

Definition resolve (rk : repeated_keyword) (kw : list (string * pyval))
  : result (list (string * pyval)) :=
  match rk with
  | Reject => if has_repeated kw then Raise SyntaxError else Ok kw
  | KeepFirst => Ok kw
  | KeepLast => Ok (rev kw)
  end.

Definition get_int (kw : list (string * pyval)) (k : string) (default : Z) : result Z :=
  match lookup k kw with
  | None => Ok default
  | Some (VInt z) => Ok z
  | Some _ => Raise TypeError
  end.

Definition get_float (kw : list (string * pyval)) (k : string) (default : F) : result F :=
  match lookup k kw with
  | None => Ok default
  | Some (VFloat x) => Ok x
  | Some (VInt z) => Ok (of_int z)
  | Some _ => Raise TypeError
  end.

Definition get_bool (kw : list (string * pyval)) (k : string) (default : bool) : result bool :=
  match lookup k kw with
  | None => Ok default
  | Some (VBool x) => Ok x
  | Some _ => Raise TypeError
  end.

Definition get_pair (kw : list (string * pyval)) (k : string) : result (option (vec * vec)) :=
  match lookup k kw with
  | None => Ok None
  | Some (VPair x y) => Ok (Some (x, y))
  | Some _ => Raise TypeError
  end.

(** The keyword parameters of [sinkhorn_stabilized], with their defaults. *)
Record stab_args : Type := StabArgs {
  sa_numItermax : Z;
  sa_tau : F;
  sa_stopThr : F;
  sa_warmstart : option (vec * vec);
  sa_verbose : bool;
  sa_print_period : Z;
  sa_log : bool
}.

Definition stabilized_keywords : list string :=
  ["numItermax"; "tau"; "stopThr"; "warmstart"; "verbose"; "print_period"; "log"]%string.

Definition bind_stabilized (rk : repeated_keyword) (kw : list (string * pyval))
  : result stab_args :=
  kw <- resolve rk kw ;;
  if forallb (fun p => existsb (String.eqb (fst p)) stabilized_keywords) kw then
    numItermax <- get_int kw "numItermax" 1000 ;;
    tau <- get_float kw "tau" lit_1e3 ;;
    stopThr <- get_float kw "stopThr" lit_1em9 ;;
    warmstart <- get_pair kw "warmstart" ;;
    verbose <- get_bool kw "verbose" false ;;
    print_period <- get_int kw "print_period" 20 ;;
    log <- get_bool kw "log" false ;;
    Ok (StabArgs numItermax tau stopThr warmstart verbose print_period log)
  else Raise TypeError.

Definition call_stabilized (a b : vec) (M : mat) (reg : F) (args : stab_args)
  : result (mat * option stab_log * list event) :=
  sinkhorn_stabilized a b M reg (sa_numItermax args) (sa_tau args) (sa_stopThr args)
    (sa_warmstart args) (sa_verbose args) (sa_print_period args) (sa_log args).

(** ** The epsilon-scaling solver: [sinkhorn_epsilon_scaling] *)

(** The keyword arguments of the call of [sinkhorn_stabilized] in the loop:
    [numItermax = numInnerItermax, tau=1e3, stopThr=1e-9,
     warmstart=(alpha,beta), verbose=False, print_period=20, tau=tau,
     log=True]. *)
Definition inner_keywords (numInnerItermax : Z) (tau : F) (alpha beta : vec)
  : list (string * pyval) :=
  [ ("numItermax", VInt numInnerItermax);
    ("tau", VFloat lit_1e3);
    ("stopThr", VFloat lit_1em9);
    ("warmstart", VPair alpha beta);
    ("verbose", VBool false);
    ("print_period", VInt 20);
    ("tau", VFloat tau);
    ("log", VBool true) ]%string.

(** One call of the inner solver, as the run of the outer loop records it:
    the regularization, the parameters bound, and the log returned. *)
Record inner_call : Type := InnerCall {
  ic_reg : F;
  ic_args : stab_args;
  ic_log : stab_log
}.

Record eps_state : Type := EpsState {
  es_alpha : vec;
  es_beta : vec;
  es_G : mat;
  es_err : F;
  es_cpt : Z;
  es_loop : bool;
  es_log : list F;
  es_out : list event;
  es_calls : list inner_call      (* the inner calls so far, oldest first *)
}.

Definition numItermin : Z := 35.

(** [get_reg(n)]: exponential decreasing *)
Definition get_reg (epsilon0 reg : F) (n : Z) : F :=
  fadd (fmul (fsub epsilon0 reg) (fexp (of_int (- n)))) reg.

(** [np.linalg.norm((np.sum(transp,axis=0)-b))**2
     +np.linalg.norm((np.sum(transp,axis=1)-a))**2] *)
Definition marginal_errors (transp : mat) (a b : vec) : result F :=
  db <- broadcast2 fsub (np_sum_axis0 transp) b ;;
  da <- broadcast2 fsub (np_sum_axis1 transp) a ;;
  Ok (fadd (fsquare (np_linalg_norm db)) (fsquare (np_linalg_norm da))).

(** The body of the loop; [numItermax] is already [max(numItermin,numItermax)]. *)
Definition epsilon_body (rk : repeated_keyword) (a b : vec) (M : mat) (reg : F)
    (numItermax : Z) (epsilon0 : F) (numInnerItermax : Z) (tau stopThr : F)
    (verbose : bool) (print_period : Z) (log : bool) (st : eps_state)
  : result (eps_state * bool) :=
  let regi := get_reg epsilon0 reg (es_cpt st) in
  args <- bind_stabilized rk (inner_keywords numInnerItermax tau (es_alpha st) (es_beta st)) ;;
  '(G, lgo, out) <- call_stabilized a b M regi args ;;
  match lgo with
  | None => Raise TypeError
  | Some logi =>
      let alpha := lg_alpha logi in
      let beta := lg_beta logi in
      let loop := if Z.geb (es_cpt st) numItermax then false else es_loop st in
      'tt <- (if Z.eqb print_period 0 then Raise ZeroDivisionError else Ok tt) ;;
      '(err, lg, out') <-
        (if Z.eqb (es_cpt st mod print_period) 0 then
           err <- marginal_errors G a b ;;
           Ok (err, (if log then es_log st ++ [err] else es_log st),
               verbose_lines verbose (print_period * 10) (es_cpt st) err)
         else Ok (es_err st, es_log st, [])) ;;
      let loop := if fleb err stopThr && Z.gtb (es_cpt st) numItermin then false else loop in
      Ok (EpsState alpha beta G err (es_cpt st + 1) loop lg (es_out st ++ out ++ out')
            (es_calls st ++ [InnerCall regi args logi]), false)
  end.

(** The state in which the loop of [sinkhorn_epsilon_scaling] is left. *)
Definition epsilon_loop (rk : repeated_keyword) (a b : vec) (M : mat) (reg : F)
    (numItermax : Z) (epsilon0 : F) (numInnerItermax : Z) (tau stopThr : F)
    (warmstart : option (vec * vec)) (verbose : bool) (print_period : Z) (log : bool)
  : result eps_state :=
  let a := default_marginal a (nrows M) in
  let b := default_marginal b (ncols M) in
  let na := List.length a in
  let nb := List.length b in
  let numItermax := Z.max numItermin numItermax in
  let '(alpha, beta) :=
    match warmstart with
    | None => (np_zeros na, np_zeros nb)
    | Some w => w
    end in
  while (S (Z.to_nat numItermax)) es_loop
    (epsilon_body rk a b M reg numItermax epsilon0 numInnerItermax tau stopThr
       verbose print_period log)
    (EpsState alpha beta [] (of_int 1) 0 true [] [] []).

Record eps_log : Type := EpsLog {
  el_err : list F;
  el_alpha : vec;
  el_beta : vec;
  el_warmstart : vec * vec
}.

Definition sinkhorn_epsilon_scaling (rk : repeated_keyword) (a b : vec) (M : mat) (reg : F)
    (numItermax : Z) (epsilon0 : F) (numInnerItermax : Z) (tau stopThr : F)
    (warmstart : option (vec * vec)) (verbose : bool) (print_period : Z) (log : bool)
  : result (mat * option eps_log * list event) :=
  st <- epsilon_loop rk a b M reg numItermax epsilon0 numInnerItermax tau stopThr
          warmstart verbose print_period log ;;
  Ok (es_G st,
      (if log then Some (EpsLog (es_log st) (es_alpha st) (es_beta st)
                           (es_alpha st, es_beta st))
       else None),
      es_out st).

(** ** Geometric means and the projections *)

Definition assert (c : bool) : result unit :=
  if c then Ok tt else Raise AssertionError.

(** [geometricBar(weights,alldistribT)]: the weighted geometric mean of distributions *)
Definition geometricBar (weights : vec) (alldistribT : mat) : result vec :=
  'tt <- assert (Nat.eqb (List.length weights) (ncols alldistribT)) ;;
  d <- np_dot_mv (mmap flog alldistribT) weights ;;
  Ok (vmap fexp d).

(** [geometricMean(alldistribT)]: the geometric mean of distributions *)
Definition geometricMean (alldistribT : mat) : vec :=
  vmap fexp (np_mean_axis1 (mmap flog alldistribT)).

(** The divisors of the two projections:
    [np.maximum(np.sum(gamma,axis=1),1e-10)] and
    [np.maximum(np.sum(gamma,axis=0),1e-10)]. *)
Definition projR_divisor (gamma : mat) : vec :=
  vmap (fun s => fmaximum s lit_1em10) (np_sum_axis1 gamma).
Definition projC_divisor (gamma : mat) : vec :=
  vmap (fun s => fmaximum s lit_1em10) (np_sum_axis0 gamma).

(** [np.multiply(gamma.T,p/np.maximum(np.sum(gamma,axis=1),1e-10)).T] *)
Definition projR (gamma : mat) (p : vec) : result mat :=
  w <- broadcast2 fdiv p (projR_divisor gamma) ;;
  g <- broadcast_mv fmul (transpose gamma) w ;;
  Ok (transpose g).

(** [np.multiply(gamma,q/np.maximum(np.sum(gamma,axis=0),1e-10))] *)
Definition projC (gamma : mat) (q : vec) : result mat :=
  w <- broadcast2 fdiv q (projC_divisor gamma) ;;
  broadcast_mv fmul gamma w.

(** ** The barycenter solver: [barycenter] *)

Record bary_state : Type := BaryState {
  bs_u : mat;
  bs_UKv : mat;
  bs_err : F;
  bs_cpt : Z;
  bs_log : list F;
  bs_out : list event
}.

(** A 1-D array with a 2-D array: the vector is broadcast along the rows. *)
Definition broadcast_vm (op : F -> F -> F) (v : vec) (m : mat) : result mat :=
  mapM (fun row => broadcast2 op v row) m.

(** The statements before the loop: the weights, the kernel and the first
    [UKv] and [u]. *)
Definition barycenter_weights (A : mat) (weights : option vec) : result vec :=
  match weights with
  | None => Ok (uniform (ncols A))
  | Some w => 'tt <- assert (Nat.eqb (List.length w) (ncols A)) ;; Ok w
  end.

Definition barycenter_init (A M : mat) (reg : F) (weights : option vec)
  : result (vec * mat * bary_state) :=
  w <- barycenter_weights A weights ;;
  let K := gibbs_kernel M reg in
  AT <- broadcast_mv fdiv (transpose A) (np_sum_axis0 K) ;;
  UKv <- np_dot_mm K (transpose AT) ;;
  uT <- broadcast_vm fdiv (geometricMean UKv) (transpose UKv) ;;
  Ok (w, K, BaryState (transpose uT) UKv (of_int 1) 0 [] []).

(** [err>stopThr and cpt<numItermax] *)
Definition barycenter_cond (stopThr : F) (numItermax : Z) (st : bary_state) : bool :=
  fltb stopThr (bs_err st) && Z.ltb (bs_cpt st) numItermax.

(** [np.sum(np.std(UKv,axis=1))] *)
Definition barycenter_error (UKv : mat) : F := np_sum (np_std_axis1 UKv).

Definition barycenter_body (A K : mat) (weights : vec) (verbose log : bool) (st : bary_state)
  : result (bary_state * bool) :=
  let cpt := (bs_cpt st + 1)%Z in
  Ku <- np_dot_mm K (bs_u st) ;;
  AKu <- broadcast_mm fdiv A Ku ;;
  KAKu <- np_dot_mm K AKu ;;
  UKv <- broadcast_mm fmul (bs_u st) KAKu ;;
  gb <- geometricBar weights UKv ;;
  uTg <- broadcast_mv fmul (transpose (bs_u st)) gb ;;
  u <- broadcast_mm fdiv (transpose uTg) UKv ;;
  if Z.eqb (cpt mod 10) 1 then
    let err := barycenter_error UKv in
    Ok (BaryState u UKv err cpt
          (if log then bs_log st ++ [err] else bs_log st)
          (bs_out st ++ verbose_lines verbose 200 cpt err), false)
  else Ok (BaryState u UKv (bs_err st) cpt (bs_log st) (bs_out st), false).

(** The state in which the loop of [barycenter] is left. *)
Definition barycenter_loop (A M : mat) (reg : F) (weights : option vec) (numItermax : Z)
    (stopThr : F) (verbose log : bool) : result (vec * bary_state) :=
  '(w, K, st0) <- barycenter_init A M reg weights ;;
  st <- while (Z.to_nat numItermax) (barycenter_cond stopThr numItermax)
          (barycenter_body A K w verbose log) st0 ;;
  Ok (w, st).

Definition barycenter (A M : mat) (reg : F) (weights : option vec) (numItermax : Z)
    (stopThr : F) (verbose log : bool)
  : result (vec * option (list F * Z) * list event) :=
  '(w, st) <- barycenter_loop A M reg weights numItermax stopThr verbose log ;;
  g <- geometricBar w (bs_UKv st) ;;
  Ok (g, (if log then Some (bs_log st, bs_cpt st) else None), bs_out st).

(** ** The unmixing solver: [unmix] *)

Record unmix_state : Type := UnmixState {
  us_K : mat;
  us_K0 : mat;
  us_old : vec;
  us_err : F;
  us_cpt : Z;
  us_log : list F;
  us_out : list event
}.

Definition unmix_cond (stopThr : F) (numItermax : Z) (st : unmix_state) : bool :=
  fltb stopThr (us_err st) && Z.ltb (us_cpt st) numItermax.

Definition unmix_body (a : vec) (D : mat) (h0 : vec) (alpha : F) (verbose log : bool)
    (st : unmix_state) : result (unmix_state * bool) :=
  K <- projC (us_K st) a ;;
  K0 <- projC (us_K0 st) h0 ;;
  let new := np_sum_axis1 K0 in
  (* we recombine the current selection from dictionnary *)
  inv_new <- np_dot_mv D new ;;
  let other := np_sum_axis1 K in
  (* geometric interpolation *)
  e <- broadcast2 fadd (vmap (fmul alpha) (vmap flog other))
         (vmap (fmul (fsub (of_int 1) alpha)) (vmap flog inv_new)) ;;
  let delta := vmap fexp e in
  K <- projR K delta ;;
  r <- broadcast2 fdiv delta inv_new ;;
  Dr <- np_dot_mv (transpose D) r ;;
  K0 <- np_dot_mm (np_diag Dr) K0 ;;
  d <- broadcast2 fsub (np_sum_axis1 K0) (us_old st) ;;
  let err := np_linalg_norm d in
  Ok (UnmixState K K0 new err (us_cpt st + 1)
        (if log then us_log st ++ [err] else us_log st)
        (us_out st ++ verbose_lines verbose 200 (us_cpt st) err), false).

Definition unmix_init (M M0 : mat) (h0 : vec) (reg reg0 : F) : unmix_state :=
  UnmixState (gibbs_kernel M reg) (gibbs_kernel M0 reg0) h0 (of_int 1) 0 [] [].

Definition unmix_loop (a : vec) (D M M0 : mat) (h0 : vec) (reg reg0 alpha : F)
    (numItermax : Z) (stopThr : F) (verbose log : bool) : result unmix_state :=
  while (Z.to_nat numItermax) (unmix_cond stopThr numItermax)
    (unmix_body a D h0 alpha verbose log) (unmix_init M M0 h0 reg reg0).

Definition unmix (a : vec) (D M M0 : mat) (h0 : vec) (reg reg0 alpha : F)
    (numItermax : Z) (stopThr : F) (verbose log : bool)
  : result (vec * option (list F * Z) * list event) :=
  st <- unmix_loop a D M M0 h0 reg reg0 alpha numItermax stopThr verbose log ;;
  Ok (np_sum_axis1 (us_K0 st),
      (if log then Some (us_log st, us_cpt st) else None),
      us_out st).

End Solvers.

Arguments event F : clear implicits.
Arguments sk_state F : clear implicits.
Arguments stab_state F : clear implicits.
Arguments stab_log F : clear implicits.
Arguments pyval F : clear implicits.
Arguments stab_args F : clear implicits.
Arguments inner_call F : clear implicits.
Arguments eps_state F : clear implicits.
Arguments eps_log F : clear implicits.
Arguments bary_state F : clear implicits.
Arguments unmix_state F : clear implicits.

(** ** The binary64 instance

    The kernel's floats have the IEEE arithmetic and comparisons but no
    [exp] and [log]: those two are computed here by range reduction and a
    truncated series, in place of the C library's. *)

Module Binary64.

Import PrimFloat.
Local Open Scope float_scope.

Definition of_Z (z : Z) : float :=
  match z with
  | Z0 => 0
  | Zpos _ => of_uint63 (Uint63.of_Z z)
  | Zneg p => - of_uint63 (Uint63.of_Z (Zpos p))
  end.

Definition ln2 : float := 0x1.62e42fefa39efp-1.

(** [sum_{i<n} x^i/i!] by Horner's rule, from the term of index [n] down. *)
Fixpoint exp_series (n : nat) (k x acc : float) : float :=
  match n with
  | O => acc
  | S n' => exp_series n' (k - 1) x (1 + x * acc / k)
  end.

Definition exp (x : float) : float :=
  if is_nan x then x
  else if x <? -746 then 0
  else if 710 <? x then infinity
  else
    (* the nearest integer to x/ln2, read off the mantissa of x/ln2 + 1.5*2^52 *)
    let k := Z.sub (Uint63.to_Z (normfr_mantissa (fst (frshiftexp (x / ln2 + 0x1.8p52)))))
                   (3 * Z.pow 2 51) in
    let kf := of_Z k in
    let r := x - kf * ln2 in
    let e := exp_series 20 20 r 1 in
    let half := (k / 2)%Z in
    (* scaled in two steps, so that no intermediate power of two overflows *)
    e * ldshiftexp 1 (Uint63.of_Z (half + 2101)%Z)
      * ldshiftexp 1 (Uint63.of_Z (k - half + 2101)%Z).

(** [2*atanh z = 2*(z + z^3/3 + z^5/5 + ...)] *)
Fixpoint atanh_series (n : nat) (k z2 acc : float) : float :=
  match n with
  | O => acc
  | S n' => atanh_series n' (k - 2) z2 (1 / k + z2 * acc)
  end.

Definition log (x : float) : float :=
  if is_nan x then x
  else if x <? 0 then nan
  else if x =? 0 then neg_infinity
  else if x =? infinity then infinity
  else
    let '(m, e) := frshiftexp x in
    (* x = m * 2^ez with m in [0.5,1), renormalized to [0.75,1.5) *)
    let ez := Z.sub (Uint63.to_Z e) 2101 in
    let '(m, ez) := if m <? 0.75 then (2 * m, Z.sub ez 1) else (m, ez) in
    let z := (m - 1) / (m + 1) in
    2 * z * atanh_series 41 81 (z * z) 0 + of_Z ez * ln2.

Definition maximum (x y : float) : float :=
  if is_nan x then x else if is_nan y then y else if x <? y then y else x.

#[export] Instance float64 : Float64 float := {|
  of_int := of_Z;
  lit_1em9 := 0x1.12e0be826d695p-30;
  lit_1em10 := 0x1.b7cdfd9d7bdbbp-34;
  lit_1e3 := 1000;
  fadd := PrimFloat.add;
  fsub := PrimFloat.sub;
  fmul := PrimFloat.mul;
  fdiv := PrimFloat.div;
  fneg := PrimFloat.opp;
  fabs := PrimFloat.abs;
  fexp := exp;
  flog := log;
  fsqrt := PrimFloat.sqrt;
  fmaximum := maximum;
  feqb := PrimFloat.eqb;
  fltb := PrimFloat.ltb;
  fleb := PrimFloat.leb;
  fisnan := is_nan
|}.

End Binary64.

(** ** Exact arithmetic with the IEEE special values

    The reals with the two infinities and NaN: the operations are exact on
    finite values (no rounding, no overflow, no underflow) and follow
    IEEE 754 on the special ones (the zero is unsigned, taken as +0).
    This is the instance in which the identities of the specification are
    stated. *)

Module XReal.

Local Open Scope R_scope.

Inductive xreal : Type :=
| Fin (r : R)
| PInf
| NInf
| NaN.

Definition Reqb (x y : R) : bool := if Req_dec_T x y then true else false.
Definition Rltb (x y : R) : bool := if Rlt_dec x y then true else false.
Definition Rleb (x y : R) : bool := if Rle_dec x y then true else false.

Definition xneg (x : xreal) : xreal :=
  match x with
  | Fin r => Fin (- r)
  | PInf => NInf
  | NInf => PInf
  | NaN => NaN
  end.

Definition xadd (x y : xreal) : xreal :=
  match x, y with
  | NaN, _ | _, NaN => NaN
  | Fin a, Fin b => Fin (a + b)
  | PInf, NInf | NInf, PInf => NaN
  | PInf, _ | _, PInf => PInf
  | NInf, _ | _, NInf => NInf
  end.

Definition xsub (x y : xreal) : xreal := xadd x (xneg y).

(** An infinity of the sign of [r], or NaN when [r] is zero. *)
Definition signed_inf (positive : bool) (r : R) : xreal :=
  if Reqb r 0 then NaN
  else if Bool.eqb positive (Rltb 0 r) then PInf else NInf.

Definition xmul (x y : xreal) : xreal :=
  match x, y with
  | NaN, _ | _, NaN => NaN
  | Fin a, Fin b => Fin (a * b)
  | PInf, Fin r | Fin r, PInf => signed_inf true r
  | NInf, Fin r | Fin r, NInf => signed_inf false r
  | PInf, PInf | NInf, NInf => PInf
  | PInf, NInf | NInf, PInf => NInf
  end.

Definition xdiv (x y : xreal) : xreal :=
  match x, y with
  | NaN, _ | _, NaN => NaN
  | Fin a, Fin b => if Reqb b 0 then signed_inf true a else Fin (a / b)
  | Fin _, (PInf | NInf) => Fin 0
  | PInf, Fin r => if Rltb r 0 then NInf else PInf
  | NInf, Fin r => if Rltb r 0 then PInf else NInf
  | (PInf | NInf), (PInf | NInf) => NaN
  end.

Definition xabs (x : xreal) : xreal :=
  match x with
  | Fin r => Fin (Rabs r)
  | PInf | NInf => PInf
  | NaN => NaN
  end.

Definition xexp (x : xreal) : xreal :=
  match x with
  | Fin r => Fin (exp r)
  | PInf => PInf
  | NInf => Fin 0
  | NaN => NaN
  end.

Definition xlog (x : xreal) : xreal :=
  match x with
  | Fin r => if Rltb 0 r then Fin (ln r) else if Reqb r 0 then NInf else NaN
  | PInf => PInf
  | NInf | NaN => NaN
  end.

Definition xsqrt (x : xreal) : xreal :=
  match x with
  | Fin r => if Rleb 0 r then Fin (sqrt r) else NaN
  | PInf => PInf
  | NInf | NaN => NaN
  end.

Definition xltb (x y : xreal) : bool :=
  match x, y with
  | NaN, _ | _, NaN => false
  | Fin a, Fin b => Rltb a b
  | _, NInf | PInf, _ => false
  | NInf, _ | _, PInf => true
  end.

Definition xeqb (x y : xreal) : bool :=
  match x, y with
  | Fin a, Fin b => Reqb a b
  | PInf, PInf | NInf, NInf => true
  | _, _ => false
  end.

Definition xleb (x y : xreal) : bool := xltb x y || xeqb x y.

Definition xisnan (x : xreal) : bool :=
  match x with NaN => true | _ => false end.

Definition xmaximum (x y : xreal) : xreal :=
  if xisnan x then x else if xisnan y then y else if xltb x y then y else x.

#[export] Instance float64 : Float64 xreal := {|
  of_int := fun z => Fin (IZR z);
  lit_1em9 := Fin (/ 1000000000);
  lit_1em10 := Fin (/ 10000000000);
  lit_1e3 := Fin 1000;
  fadd := xadd;
  fsub := xsub;
  fmul := xmul;
  fdiv := xdiv;
  fneg := xneg;
  fabs := xabs;
  fexp := xexp;
  flog := xlog;
  fsqrt := xsqrt;
  fmaximum := xmaximum;
  feqb := xeqb;
  fltb := xltb;
  fleb := xleb;
  fisnan := xisnan
|}.

(** The finite values, and those that are positive or not negative. *)
Definition finite (x : xreal) : Prop := exists r, x = Fin r.
Definition positive (x : xreal) : Prop := exists r, x = Fin r /\ 0 < r.
Definition nonneg (x : xreal) : Prop := exists r, x = Fin r /\ 0 <= r.

End XReal.

(** The order laws of the comparisons that the statements on loop
    conditions use: what is at most [y] is not greater than [y]. *)
Class Float64Laws (F : Type) {FO : Float64 F} : Prop := {
  fleb_not_fltb : forall x y : F, fleb x y = true -> fltb y x = false
}.

Arguments Float64Laws F {FO}.

(** A matrix: all rows have the length of the first one. *)
Definition is_matrix {F : Type} (m : list (list F)) : Prop :=
  Forall (fun row => List.length row = List.length (hd [] m)) m.

(** A matrix of [r] rows and [c] columns. *)
Definition has_shape {F : Type} (m : list (list F)) (r c : nat) : Prop :=
  List.length m = r /\ Forall (fun row => List.length row = c) m.

(** ** Vocabulary of the statements *)

(** [iterates cond body s0 k s]: the loop started in [s0] is at the head of
    its iteration number [k] in the state [s], the iterations before
    having completed without [break]. *)
Inductive iterates {St : Type} (cond : St -> bool) (body : St -> result (St * bool))
    (s0 : St) : nat -> St -> Prop :=
| iterates_start : iterates cond body s0 O s0
| iterates_step (k : nat) (s s' : St) :
    iterates cond body s0 k s -> cond s = true -> body s = Ok (s', false) ->
    iterates cond body s0 (S k) s'.

(** The lengths of the vectors of a state of [sinkhorn]. *)
Definition sk_shapes {F : Type} (r c : nat) (st : sk_state F) : Prop :=
  List.length (sk_u st) = r /\ List.length (sk_v st) = c
  /\ (sk_cpt st <> 0%Z -> List.length (sk_uprev st) = r /\ List.length (sk_vprev st) = c)
  /\ (0 <= sk_cpt st)%Z.

(** The lengths of the vectors and the shape of the kernel of a state of
    [sinkhorn_stabilized]. *)
Definition stab_shapes {F : Type} (r c : nat) (st : stab_state F) : Prop :=
  List.length (st_alpha st) = r /\ List.length (st_beta st) = c
  /\ List.length (st_u st) = r /\ List.length (st_v st) = c
  /\ has_shape (st_K st) r c /\ (0 <= st_cpt st)%Z.

(** The number of iterations a state of [sinkhorn_stabilized] leaves at most. *)
Definition stab_measure {F : Type} (numItermax : Z) (st : stab_state F) : nat :=
  if st_loop st then S (Z.to_nat (numItermax - st_cpt st)) else O.

(** ** The real numbers

    The field of the reals as an arithmetic of its own (division by zero
    is zero there, and there is no NaN).  It is only used to name the
    values of computations on finite numbers: a computation on finite
    values of [XReal.xreal] in which no division by zero occurs is the
    image by [XReal.Fin] of the same computation on the reals. *)

Module RealArith.

Local Open Scope R_scope.

#[export] Instance float64 : Float64 R := {|
  of_int := IZR;
  lit_1em9 := / 1000000000;
  lit_1em10 := / 10000000000;
  lit_1e3 := 1000;
  fadd := Rplus;
  fsub := Rminus;
  fmul := Rmult;
  fdiv := Rdiv;
  fneg := Ropp;
  fabs := Rabs;
  fexp := Rtrigo_def.exp;
  flog := ln;
  fsqrt := R_sqrt.sqrt;
  fmaximum := Rmax;
  feqb := XReal.Reqb;
  fltb := XReal.Rltb;
  fleb := XReal.Rleb;
  fisnan := fun _ => false
|}.

End RealArith.

(** The finite vector and matrix of a real vector and matrix. *)
Definition lift (x : list R) : list XReal.xreal := map XReal.Fin x.
Definition liftm (m : list (list R)) : list (list XReal.xreal) := map lift m.

Definition result_map {A B : Type} (f : A -> B) (r : result A) : result B :=
  match r with
  | Ok a => Ok (f a)
  | Raise e => Raise e
  end.
(** A finite value that is at least the real [x]. *)
Definition at_least (x : R) (e : XReal.xreal) : Prop :=
  exists y, e = XReal.Fin y /\ (x <= y)%R.
(** The signs kept by the loop of [sinkhorn] on positive data. *)
Definition sk_positive (st : sk_state XReal.xreal) : Prop :=
  Forall XReal.positive (sk_u st) /\ Forall XReal.positive (sk_v st)
  /\ (sk_cpt st <> 0%Z ->
      Forall XReal.positive (sk_uprev st) /\ Forall XReal.positive (sk_vprev st)).

(** The signs kept by the loop of [sinkhorn_stabilized] on positive data. *)
Definition stab_positive (st : stab_state XReal.xreal) : Prop :=
  Forall XReal.finite (st_alpha st) /\ Forall XReal.finite (st_beta st)
  /\ Forall XReal.positive (st_u st) /\ Forall XReal.positive (st_v st)
  /\ Forall (Forall XReal.positive) (st_K st).
(** ** Sample runs on binary64 floats

    The inputs and the states of the runs that the statements are
    instantiated at. *)

Section Binary64Examples.

Import PrimFloat Binary64.
Local Open Scope float_scope.

(** [sinkhorn] on [a=[0]], [b=[1]], [M=[[0]]], [reg=1]: the state at the
    head of the second iteration, where [K.T u] is zero. *)
Definition failure_state : sk_state float :=
  {| sk_u := [0]; sk_v := [1]; sk_uprev := [1]; sk_vprev := [1];
     sk_transp := [[0]]; sk_err := 1; sk_cpt := 1; sk_log := [1]; sk_out := [] |}.

(** [sinkhorn] on [a=b=[0,1]], [M=zeros((2,2))], [reg=1], [log=True]: the
    state after the first iteration, in which the loop is left: [u] holds
    a NaN and the error is NaN. *)
Definition unguarded_state : sk_state float :=
  {| sk_u := [nan; 1]; sk_v := [0; 1]; sk_uprev := [0.5; 0.5]; sk_vprev := [0.5; 0.5];
     sk_transp := [[nan; nan]; [0; 1]]; sk_err := nan; sk_cpt := 1; sk_log := [nan];
     sk_out := [] |}.

(** The two histograms and the cost matrix of the sample barycenter. *)
Definition sample_A : list (list float) := [[0.5; 0.25]; [0.5; 0.75]].
Definition sample_M : list (list float) := [[0; 1]; [1; 0]].

(** The state of [barycenter] on them ([reg=1], uniform weights) before its
    loop and after one iteration. *)
Definition bary_state0 : bary_state float := Eval vm_compute in
    match barycenter_init sample_A sample_M 1 None with
    | Ok (_, _, st) => st
    | Raise _ => BaryState [] [] 0 0 [] []
    end.

Definition bary_state1 : bary_state float := Eval vm_compute in
    match barycenter_body sample_A (gibbs_kernel sample_M 1) [0.5; 0.5] false true
            bary_state0 with
    | Ok (st, _) => st
    | Raise _ => bary_state0
    end.

(** A run of [sinkhorn_stabilized] with [log=True]. *)
Definition stabilized_G : list (list float) := Eval vm_compute in
    match sinkhorn_stabilized [0.5; 0.5] [0.5; 0.5] sample_M 1 1000 1000 lit_1em9
            None false 20 true with
    | Ok (G, _, _) => G
    | Raise _ => []
    end.

Definition stabilized_log : option (stab_log float) := Eval vm_compute in
    match sinkhorn_stabilized [0.5; 0.5] [0.5; 0.5] sample_M 1 1000 1000 lit_1em9
            None false 20 true with
    | Ok (_, lg, _) => lg
    | Raise _ => None
    end.

End Binary64Examples.
(** The shapes of a state of [barycenter], for [d] bins and [n] histograms. *)
Definition bary_shapes {F : Type} (d n : nat) (st : bary_state F) : Prop :=
  has_shape (bs_u st) d n /\ has_shape (bs_UKv st) d n /\ (0 <= bs_cpt st)%Z.

(** The shapes of a state of [unmix], for observations of [d] bins and a
    dictionary of [n] atoms. *)
Definition unmix_shapes {F : Type} (d n : nat) (st : unmix_state F) : Prop :=
  has_shape (us_K st) d d /\ has_shape (us_K0 st) n n
  /\ List.length (us_old st) = n /\ (0 <= us_cpt st)%Z.
(** Two results that are both values, related by [R], or the same
    exception. *)
Definition result_rel {A B : Type} (R : A -> B -> Prop) (r1 : result A) (r2 : result B)
  : Prop :=
  match r1, r2 with
  | Ok x, Ok y => R x y
  | Raise e1, Raise e2 => e1 = e2
  | _, _ => False
  end.

(** The states of [sinkhorn], [barycenter] and [unmix] up to the log and
    the console. *)
Definition sk_same {F : Type} (s1 s2 : sk_state F) : Prop :=
  sk_u s1 = sk_u s2 /\ sk_v s1 = sk_v s2 /\ sk_uprev s1 = sk_uprev s2
  /\ sk_vprev s1 = sk_vprev s2 /\ sk_transp s1 = sk_transp s2
  /\ sk_err s1 = sk_err s2 /\ sk_cpt s1 = sk_cpt s2.

Definition bary_same {F : Type} (s1 s2 : bary_state F) : Prop :=
  bs_u s1 = bs_u s2 /\ bs_UKv s1 = bs_UKv s2 /\ bs_err s1 = bs_err s2
  /\ bs_cpt s1 = bs_cpt s2.

Definition unmix_same {F : Type} (s1 s2 : unmix_state F) : Prop :=
  us_K s1 = us_K s2 /\ us_K0 s1 = us_K0 s2 /\ us_old s1 = us_old s2
  /\ us_err s1 = us_err s2 /\ us_cpt s1 = us_cpt s2.
(** ** More sample runs on binary64 floats *)

Section Binary64Samples.

Import PrimFloat Binary64.
Local Open Scope float_scope.

(** A dictionary of two atoms, and the mixture and the errors that [unmix]
    returns for the observation [[0.3, 0.7]] ([reg=reg0=1], [alpha=0.5],
    [stopThr=1e-3]), after 6 iterations. *)
Definition sample_D : list (list float) := [[0.8; 0.1]; [0.2; 0.9]].

Definition sample_unmix : list float * list float := Eval vm_compute in
    match unmix [0.3; 0.7] sample_D sample_M sample_M [0.5; 0.5] 1 1 0.5 1000 0.001
            false true with
    | Ok (h, Some (errs, _), _) => (h, errs)
    | _ => ([], [])
    end.

(** The barycenter and the errors that [barycenter] returns for the sample
    histograms ([reg=1], [stopThr=1e-4]), after 11 iterations. *)
Definition sample_barycenter : list float * list float := Eval vm_compute in
    match barycenter sample_A sample_M 1 None 1000 0.0001 false true with
    | Ok (g, Some (errs, _), _) => (g, errs)
    | _ => ([], [])
    end.

End Binary64Samples.
(** ** A verbose run on binary64 floats *)

Section Binary64Verbose.

Import PrimFloat Binary64.
Local Open Scope float_scope.

(** What [barycenter] returns and prints for the sample histograms with
    [verbose=True]. *)
Definition sample_verbose : list float * option (list float * Z) * list (event float) := Eval vm_compute in
    match barycenter sample_A sample_M 1 None 1000 0.0001 true false with
    | Ok x => x
    | Raise _ => ([], None, [])
    end.

End Binary64Verbose.

Unset Implicit Arguments.

(** * Properties *)

(** ** The error monad and the loop *)

Lemma bind_Ok {A B : Type} (r : result A) (k : A -> result B) (b : B) :
  bind r k = Ok b -> exists a, r = Ok a /\ k a = Ok b.
Proof. destruct r as [a|e]; simpl; intros H; [exists a; auto | discriminate]. Qed.

Ltac inv_bind H :=
  let x := fresh "x" in
  let Hx := fresh "Hx" in
  apply bind_Ok in H; destruct H as (x & Hx & H).

(** An invariant of the states a loop goes through holds where it is left. *)
Lemma while_invariant {St : Type} (I : St -> Prop) (cond : St -> bool)
    (body : St -> result (St * bool)) :
  (forall s s' brk, I s -> cond s = true -> body s = Ok (s', brk) -> I s') ->
  forall fuel s s', I s -> while fuel cond body s = Ok s' -> I s'.
Proof.
  intros Hstep fuel; induction fuel as [|fuel IH]; intros s s' Hs H; simpl in H.
  - destruct (cond s); [discriminate | now inversion H; subst].
  - destruct (cond s) eqn:Hc; [| now inversion H; subst].
    destruct (body s) as [[s1 [|]]|e] eqn:Hb; try discriminate.
    + inversion H; subst. eapply Hstep; eauto.
    + eapply IH; [| exact H]. eapply Hstep; eauto.
Qed.

(** A loop whose measure decreases at every step that does not leave it, and
    whose condition fails when the measure is zero, never reaches its bound
    (when its body, which may run a loop of its own, does not either). *)
Lemma while_bound {St : Type} (I : St -> Prop) (mu : St -> nat) (cond : St -> bool)
    (body : St -> result (St * bool)) :
  (forall s s' brk, I s -> cond s = true -> body s = Ok (s', brk) -> I s') ->
  (forall s, I s -> cond s = true -> (0 < mu s)%nat) ->
  (forall s s', I s -> cond s = true -> body s = Ok (s', false) -> (mu s' < mu s)%nat) ->
  (forall s, I s -> cond s = true -> body s <> Raise LoopBound) ->
  forall fuel s, I s -> (mu s <= fuel)%nat -> while fuel cond body s <> Raise LoopBound.
Proof.
  intros Hstep Hpos Hdec Hbody fuel; induction fuel as [|fuel IH]; intros s Hs Hmu; simpl.
  - destruct (cond s) eqn:Hc; [| discriminate].
    specialize (Hpos s Hs Hc). lia.
  - destruct (cond s) eqn:Hc; [| discriminate].
    destruct (body s) as [[s1 [|]]|e] eqn:Hb; try discriminate.
    + apply IH; [eapply Hstep; eauto |].
      specialize (Hdec s s1 Hs Hc Hb). lia.
    + intros H; inversion H; subst. exact (Hbody s Hs Hc Hb).
Qed.

(** ** Statements that hold for every float64 arithmetic *)

Section Generic.

Context {F : Type} {FO : Float64 F}.

Local Abbreviation vec := (list F).
Local Abbreviation mat := (list (list F)).

Lemma uniform_length (n : nat) : List.length (uniform n) = n.
Proof. unfold uniform, np_ones. now rewrite length_map, repeat_length. Qed.




Lemma default_marginal_idem (x : vec) (n : nat) :
  default_marginal (default_marginal x n) n = default_marginal x n.
Proof.
  unfold default_marginal. destruct (Nat.eqb (List.length x) 0) eqn:E.
  - rewrite uniform_length. destruct n; reflexivity.
  - now rewrite E.
Qed.


(** *** The inner call of the epsilon-scaling solver *)

Lemma inner_keywords_repeated (numInnerItermax : Z) (tau : F) (alpha beta : vec) :
  has_repeated (inner_keywords numInnerItermax tau alpha beta) = true.
Proof. reflexivity. Qed.

Lemma bind_inner_KeepFirst (numInnerItermax : Z) (tau : F) (alpha beta : vec) :
  bind_stabilized KeepFirst (inner_keywords numInnerItermax tau alpha beta)
  = Ok (StabArgs numInnerItermax lit_1e3 lit_1em9 (Some (alpha, beta)) false 20 true).
Proof. reflexivity. Qed.

Lemma bind_inner_KeepLast (numInnerItermax : Z) (tau : F) (alpha beta : vec) :
  bind_stabilized KeepLast (inner_keywords numInnerItermax tau alpha beta)
  = Ok (StabArgs numInnerItermax tau lit_1em9 (Some (alpha, beta)) false 20 true).
Proof. reflexivity. Qed.

(** C1: the call of [sinkhorn_stabilized] in the loop of
    [sinkhorn_epsilon_scaling] gives the keyword [tau] twice, [tau=1e3] and
    [tau=tau].  Python rejects it, so that the solver raises on every input
    and makes no inner call; read by its first binding the call has
    [numItermax=numInnerItermax], [stopThr=1e-9] and [tau=1e3]; read by its
    last binding it has the caller's [tau]. *)
Theorem inner_call_repeats_tau
    (a b : vec) (M : mat) (reg : F)
    (numItermax : Z) (epsilon0 : F) (numInnerItermax : Z) (tau stopThr : F)
    (warmstart : option (vec * vec)) (verbose : bool) (print_period : Z) (log : bool)
    (alpha beta : vec) :
  sinkhorn_epsilon_scaling Reject a b M reg numItermax epsilon0 numInnerItermax tau stopThr
    warmstart verbose print_period log = Raise SyntaxError
  /\ bind_stabilized Reject (inner_keywords numInnerItermax tau alpha beta)
     = Raise SyntaxError
  /\ bind_stabilized KeepFirst (inner_keywords numInnerItermax tau alpha beta)
     = Ok (StabArgs numInnerItermax lit_1e3 lit_1em9 (Some (alpha, beta)) false 20 true)
  /\ bind_stabilized KeepLast (inner_keywords numInnerItermax tau alpha beta)
     = Ok (StabArgs numInnerItermax tau lit_1em9 (Some (alpha, beta)) false 20 true).
Proof.
  repeat split; try reflexivity.
  unfold sinkhorn_epsilon_scaling, epsilon_loop.
  destruct warmstart as [[al be]|]; reflexivity.
Qed.

End Generic.

(** ** The order law in the two instances *)

Module Binary64Laws.

Import Floats.

Lemma SFcompare_antisym (a b : SpecFloat.spec_float) :
  SpecFloat.SFcompare b a = option_map CompOpp (SpecFloat.SFcompare a b).
Proof.
  destruct a as [sa|sa| |sa ma ea], b as [sb|sb| |sb mb eb]; simpl;
    try (destruct sa); try (destruct sb); try reflexivity.
  - rewrite (Z.compare_antisym ea eb). destruct (ea ?= eb)%Z; simpl; try reflexivity.
    f_equal. rewrite (Pos.compare_cont_antisym ma mb Eq). reflexivity.
  - rewrite (Z.compare_antisym ea eb). destruct (ea ?= eb)%Z; simpl; try reflexivity.
    rewrite (Pos.compare_cont_antisym ma mb Eq). reflexivity.
Qed.

Lemma float_leb_not_ltb (x y : PrimFloat.float) :
  PrimFloat.leb x y = true -> PrimFloat.ltb y x = false.
Proof.
  rewrite FloatAxioms.leb_spec, FloatAxioms.ltb_spec.
  unfold SpecFloat.SFleb, SpecFloat.SFltb.
  rewrite (SFcompare_antisym (Prim2SF x) (Prim2SF y)).
  destruct (SpecFloat.SFcompare (Prim2SF x) (Prim2SF y)) as [[| |]|]; simpl; congruence.
Qed.

#[export] Instance float_laws : @Float64Laws PrimFloat.float Binary64.float64.
Proof. constructor. exact float_leb_not_ltb. Qed.

End Binary64Laws.

Module XRealLaws.

Import XReal.
Local Open Scope R_scope.

Lemma xleb_not_xltb (x y : xreal) : xleb x y = true -> xltb y x = false.
Proof.
  unfold xleb, xltb, xeqb, Rltb, Reqb.
  destruct x as [a| | |], y as [b| | |]; simpl; try reflexivity; try discriminate.
  destruct (Rlt_dec a b), (Req_dec_T a b), (Rlt_dec b a); simpl;
    try reflexivity; try discriminate; lra.
Qed.

#[export] Instance xreal_laws : @Float64Laws xreal XReal.float64.
Proof. constructor. exact xleb_not_xltb. Qed.

End XRealLaws.

Section Control.

Context {F : Type} {FO : Float64 F}.

Local Abbreviation vec := (list F).
Local Abbreviation mat := (list (list F)).

(** *** The barycenter solver *)

(** C9: an iteration of the loop of [barycenter] increments the counter; it
    recomputes the error exactly when the counter is then congruent to 1
    modulo 10, as the sum over the rows of [UKv] of the standard deviation
    of the row, and keeps the error otherwise; and the loop is left as soon
    as the error is at most [stopThr] or the counter has reached
    [numItermax]. *)
Theorem barycenter_error_check {FL : Float64Laws F}
    (A K : mat) (w : vec) (verbose log : bool) (stopThr : F) (numItermax : Z)
    (st st' : bary_state F) (brk : bool) :
  barycenter_body A K w verbose log st = Ok (st', brk) ->
  bs_cpt st' = (bs_cpt st + 1)%Z
  /\ ((bs_cpt st' mod 10 = 1)%Z -> bs_err st' = np_sum (np_std_axis1 (bs_UKv st')))
  /\ ((bs_cpt st' mod 10 <> 1)%Z -> bs_err st' = bs_err st)
  /\ (fleb (bs_err st') stopThr = true \/ (numItermax <= bs_cpt st')%Z ->
      forall fuel,
        while fuel (barycenter_cond stopThr numItermax)
          (barycenter_body A K w verbose log) st' = Ok st')
  /\ brk = false.
Proof.
  intros H. unfold barycenter_body in H.
  repeat inv_bind H.
  assert (Hstop : forall s : bary_state F,
    fleb (bs_err s) stopThr = true \/ (numItermax <= bs_cpt s)%Z ->
    forall fuel, while fuel (barycenter_cond stopThr numItermax)
                   (barycenter_body A K w verbose log) s = Ok s).
  { intros s Hs fuel.
    assert (Hc : barycenter_cond stopThr numItermax s = false).
    { unfold barycenter_cond. destruct Hs as [Hs|Hs].
      - now rewrite (fleb_not_fltb _ _ Hs).
      - apply andb_false_iff; right. now apply Z.ltb_ge. }
    destruct fuel; simpl; now rewrite Hc. }
  destruct (Z.eqb ((bs_cpt st + 1) mod 10) 1) eqn:E; inversion H; subst; simpl.
  - apply Z.eqb_eq in E. repeat split; auto; intros; congruence.
  - apply Z.eqb_neq in E. repeat split; auto; intros; congruence.
Qed.

(** C3 (as amended): [barycenter] called with a weights vector whose length
    is not the number of columns of [A] fails by its assertion, in the
    statements before the loop.  [unmix] checks no size before its loop:
    when no iteration is asked for it returns the row sums of [K0] whatever
    the sizes of its arguments. *)
Theorem barycenter_asserts_weights
    (A M : mat) (reg : F) (w : vec) (numItermax : Z) (stopThr : F) (verbose log : bool)
    (a : vec) (D M' M0 : mat) (h0 : vec) (reg' reg0 alpha : F) :
  List.length w <> ncols A ->
  barycenter_init A M reg (Some w) = Raise AssertionError
  /\ barycenter A M reg (Some w) numItermax stopThr verbose log = Raise AssertionError
  /\ ((numItermax <= 0)%Z ->
      unmix a D M' M0 h0 reg' reg0 alpha numItermax stopThr verbose log
      = Ok (np_sum_axis1 (gibbs_kernel M0 reg0),
            (if log then Some ([], 0%Z) else None), [])).
Proof.
  intros Hw.
  assert (Hi : barycenter_init A M reg (Some w) = Raise AssertionError).
  { unfold barycenter_init, barycenter_weights, assert.
    apply Nat.eqb_neq in Hw. now rewrite Hw. }
  repeat split; [exact Hi | |].
  - unfold barycenter, barycenter_loop. now rewrite Hi.
  - intros Hn. unfold unmix, unmix_loop.
    replace (Z.to_nat numItermax) with O by lia. simpl.
    assert (Hc : unmix_cond stopThr numItermax (unmix_init M' M0 h0 reg' reg0) = false).
    { unfold unmix_cond, unmix_init; simpl. apply andb_false_iff; right.
      apply Z.ltb_ge. lia. }
    rewrite Hc. simpl. destruct log; reflexivity.
Qed.

End Control.

(** ** Shapes of the NumPy operations *)

Section Shapes.

Context {F : Type} {FO : Float64 F}.

Local Abbreviation vec := (list F).
Local Abbreviation mat := (list (list F)).

Lemma zip_with_length {A B C : Type} (f : A -> B -> C) (x : list A) (y : list B) :
  List.length x = List.length y -> List.length (zip_with f x y) = List.length x.
Proof.
  revert y; induction x as [|a x IH]; intros [|b y] H; simpl in *; try discriminate; auto.
Qed.

Lemma Forall_zip_with {A B C : Type} (P : A -> Prop) (Q : B -> Prop) (R : C -> Prop)
    (f : A -> B -> C) (x : list A) (y : list B) :
  (forall a b, P a -> Q b -> R (f a b)) ->
  Forall P x -> Forall Q y -> Forall R (zip_with f x y).
Proof.
  intros Hf Hx; revert y; induction Hx as [|a x Ha Hx IH]; intros y Hy; simpl.
  - constructor.
  - destruct Hy as [|b y Hb Hy]; constructor; auto.
Qed.

Lemma Forall_map_impl {A B : Type} (P : A -> Prop) (Q : B -> Prop) (f : A -> B) (x : list A) :
  (forall a, P a -> Q (f a)) -> Forall P x -> Forall Q (map f x).
Proof. intros Hf Hx. induction Hx; simpl; constructor; auto. Qed.

Lemma has_shape_ncols (m : mat) (r c : nat) :
  has_shape m r c -> (0 < r)%nat -> ncols m = c.
Proof.
  intros [Hl Hr] Hpos. unfold ncols. destruct m as [|row m]; simpl in *; [lia|].
  now inversion Hr.
Qed.

Lemma has_shape_nrows (m : mat) (r c : nat) : has_shape m r c -> List.length m = r.
Proof. now intros [Hl _]. Qed.

Lemma is_matrix_shape (m : mat) : is_matrix m -> has_shape m (nrows m) (ncols m).
Proof. intros H; split; [reflexivity | exact H]. Qed.

Lemma mmap_shape (f : F -> F) (m : mat) (r c : nat) :
  has_shape m r c -> has_shape (mmap f m) r c.
Proof.
  intros [Hl Hr]; split; unfold mmap.
  - now rewrite length_map.
  - apply Forall_map_impl with (P := fun row => List.length row = c); auto.
    intros row Hrow. now rewrite length_map.
Qed.

Lemma ncols_mmap (f : F -> F) (m : mat) : ncols (mmap f m) = ncols m.
Proof. destruct m; simpl; [reflexivity|]. unfold ncols; simpl. apply length_map. Qed.

Lemma transpose_shape (m : mat) : has_shape (transpose m) (ncols m) (nrows m).
Proof.
  unfold transpose, has_shape; split.
  - now rewrite length_map, length_seq.
  - apply Forall_forall. intros col Hin. apply in_map_iff in Hin.
    destruct Hin as (j & <- & _). unfold column. now rewrite length_map.
Qed.

Lemma np_diag_shape (v : vec) : has_shape (np_diag v) (List.length v) (List.length v).
Proof.
  induction v as [|x v [IHl IHr]]; split; try reflexivity; try constructor.
  - cbn [np_diag List.length]. now rewrite length_map, IHl.
  - cbn [List.length]. unfold np_zeros. now rewrite repeat_length.
  - apply Forall_forall. intros row Hin. apply in_map_iff in Hin.
    destruct Hin as (row' & <- & Hin'). cbn [List.length]. f_equal.
    rewrite Forall_forall in IHr. auto.
Qed.

(** *** Broadcasting *)

Lemma broadcast2_same (op : F -> F -> F) (x y : vec) :
  List.length x = List.length y -> broadcast2 op x y = Ok (zip_with op x y).
Proof. intros H. unfold broadcast2. now rewrite H, Nat.eqb_refl. Qed.

Lemma broadcast2_scalar (op : F -> F -> F) (x : vec) (e : F) :
  broadcast2 op x [e] = Ok (map (fun a => op a e) x).
Proof. destruct x as [|a [|a' x]]; reflexivity. Qed.

Lemma mapM_Ok {A B : Type} (f : A -> result B) (g : A -> B) (l : list A) :
  Forall (fun x => f x = Ok (g x)) l -> mapM f l = Ok (map g l).
Proof. intros H; induction H as [|x l Hx Hl IH]; simpl; [reflexivity|]. now rewrite Hx, IH. Qed.

Lemma mapM2_Ok {A B C : Type} (f : A -> B -> result C) (g : A -> B -> C)
    (x : list A) (y : list B) :
  Forall (fun a => forall b, In b y -> f a b = Ok (g a b)) x ->
  mapM2 f x y = Ok (zip_with g x y).
Proof.
  intros H; revert y H; induction x as [|a x IH]; intros y H; simpl; [reflexivity|].
  destruct y as [|b y]; [reflexivity|]. inversion H as [|? ? Ha Hx]; subst.
  rewrite (Ha b (or_introl eq_refl)). simpl. rewrite IH; [reflexivity|].
  eapply Forall_impl; [| exact Hx]. intros a' Ha' b' Hb'. apply Ha'. now right.
Qed.

Lemma broadcast_mm_same (op : F -> F -> F) (A B : mat) (r c : nat) :
  has_shape A r c -> has_shape B r c ->
  broadcast_mm op A B = Ok (zip_with (zip_with op) A B).
Proof.
  intros [HAl HAr] [HBl HBr]. unfold broadcast_mm, nrows.
  rewrite HAl, HBl, Nat.eqb_refl. apply mapM2_Ok.
  rewrite Forall_forall in *. intros ra Hra rb Hrb.
  apply broadcast2_same. rewrite (HAr ra Hra), (HBr rb Hrb). reflexivity.
Qed.

(** A matrix and a column [x.reshape((r,1))]. *)
Lemma broadcast_mm_col (op : F -> F -> F) (A : mat) (x : vec) :
  List.length x = nrows A ->
  broadcast_mm op A (map (fun e => [e]) x)
  = Ok (zip_with (fun row e => map (fun a => op a e) row) A x).
Proof.
  intros H. unfold broadcast_mm, nrows in *. rewrite length_map, H, Nat.eqb_refl.
  clear H. revert x; induction A as [|ra A IH]; intros x; simpl; [reflexivity|].
  destruct x as [|e x]; simpl; [reflexivity|].
  rewrite broadcast2_scalar. simpl. now rewrite IH.
Qed.

(** A matrix and a row [y.reshape((1,c))]. *)
Lemma broadcast_mm_row (op : F -> F -> F) (A : mat) (y : vec) (r c : nat) :
  has_shape A r c -> List.length y = c ->
  broadcast_mm op A [y] = Ok (map (fun row => zip_with op row y) A).
Proof.
  intros [HAl HAr] Hy.
  assert (Hrows : mapM (fun ra => broadcast2 op ra y) A
                  = Ok (map (fun row => zip_with op row y) A)).
  { apply mapM_Ok. eapply Forall_impl; [| exact HAr].
    intros row Hrow. apply broadcast2_same. cbv beta in Hrow. congruence. }
  unfold broadcast_mm, nrows. destruct A as [|ra [|rb A]]; simpl.
  - reflexivity.
  - inversion HAr as [|? ? Hra _]; subst. rewrite broadcast2_same by congruence. reflexivity.
  - exact Hrows.
Qed.

Lemma broadcast_mv_same (op : F -> F -> F) (A : mat) (y : vec) (r c : nat) :
  has_shape A r c -> List.length y = c ->
  broadcast_mv op A y = Ok (map (fun row => zip_with op row y) A).
Proof.
  intros [HAl HAr] Hy. unfold broadcast_mv. apply mapM_Ok.
  eapply Forall_impl; [| exact HAr]. intros row Hrow. apply broadcast2_same. cbv beta in Hrow. congruence.
Qed.

Lemma broadcast_vm_same (op : F -> F -> F) (y : vec) (A : mat) (r c : nat) :
  has_shape A r c -> List.length y = c ->
  broadcast_vm op y A = Ok (map (fun row => zip_with op y row) A).
Proof.
  intros [HAl HAr] Hy. unfold broadcast_vm. apply mapM_Ok.
  eapply Forall_impl; [| exact HAr]. intros row Hrow. apply broadcast2_same. cbv beta in Hrow. congruence.
Qed.

Lemma zip_with_rows_shape {A : Type} (f : vec -> A -> vec) (m : mat) (x : list A) (r c : nat) :
  (forall row e, List.length (f row e) = List.length row) ->
  has_shape m r c -> List.length x = r -> has_shape (zip_with f m x) r c.
Proof.
  intros Hf [Hl Hr] Hx. split.
  - rewrite zip_with_length; lia.
  - clear Hl Hx. revert x; induction Hr as [|row m Hrow Hr IH]; intros [|e x]; simpl;
      constructor; auto. now rewrite Hf.
Qed.

Lemma map_rows_shape (f : vec -> vec) (m : mat) (r c : nat) :
  (forall row, List.length row = c -> List.length (f row) = c) ->
  has_shape m r c -> has_shape (map f m) r c.
Proof.
  intros Hf [Hl Hr]. split; [now rewrite length_map|].
  apply Forall_map_impl with (P := fun row => List.length row = c); auto.
Qed.

(** *** Products *)

Lemma np_dot_mv_ok (A : mat) (x : vec) (r : nat) :
  has_shape A r (List.length x) -> np_dot_mv A x = Ok (map (fun row => dot1 row x) A).
Proof.
  intros [_ Hr]. unfold np_dot_mv.
  replace (forallb _ A) with true; [reflexivity|].
  symmetry. apply forallb_forall. rewrite Forall_forall in Hr.
  intros row Hin. apply Nat.eqb_eq. auto.
Qed.

Lemma np_dot_mm_ok (A B : mat) (r : nat) :
  has_shape A r (nrows B) ->
  np_dot_mm A B = Ok (map (fun row => map (fun col => dot1 row col) (transpose B)) A).
Proof.
  intros [_ Hr]. unfold np_dot_mm.
  replace (forallb _ A) with true; [reflexivity|].
  symmetry. apply forallb_forall. rewrite Forall_forall in Hr.
  intros row Hin. apply Nat.eqb_eq. auto.
Qed.

Lemma np_dot_mm_shape (A B : mat) (r : nat) :
  has_shape A r (nrows B) ->
  has_shape (map (fun row => map (fun col => dot1 row col) (transpose B)) A) r (ncols B).
Proof.
  intros [Hl Hr]. split; [now rewrite length_map|].
  apply Forall_forall. intros row Hin. apply in_map_iff in Hin.
  destruct Hin as (row' & <- & _). rewrite length_map.
  apply (transpose_shape B).
Qed.

End Shapes.

(** A loop that keeps an invariant, on which its body succeeds and its
    measure decreases, returns; it is left with the condition false or by
    a [break]. *)
Lemma while_total {St : Type} (I : St -> Prop) (mu : St -> nat) (cond : St -> bool)
    (body : St -> result (St * bool)) :
  (forall s, I s -> cond s = true ->
     exists s' brk, body s = Ok (s', brk) /\ I s' /\ (brk = false -> (mu s' < mu s)%nat)) ->
  (forall s, I s -> cond s = true -> (0 < mu s)%nat) ->
  forall fuel s, I s -> (mu s <= fuel)%nat ->
  exists s', while fuel cond body s = Ok s' /\ I s'
    /\ (cond s' = false
        \/ exists s0, I s0 /\ cond s0 = true /\ body s0 = Ok (s', true)).
Proof.
  intros Hbody Hpos fuel; induction fuel as [|fuel IH]; intros s Hs Hmu; simpl.
  - destruct (cond s) eqn:Hc.
    + specialize (Hpos s Hs Hc). lia.
    + exists s; auto.
  - destruct (cond s) eqn:Hc.
    + destruct (Hbody s Hs Hc) as (s1 & brk & Hb & Hs1 & Hdec). rewrite Hb.
      destruct brk.
      * exists s1; repeat split; auto. right; exists s; auto.
      * apply IH; auto. specialize (Hdec eq_refl). lia.
    + exists s; auto.
Qed.


Lemma while_iterates {St : Type} (cond : St -> bool) (body : St -> result (St * bool))
    (s0 : St) (k : nat) (s : St) :
  iterates cond body s0 k s ->
  forall fuel, (k <= fuel)%nat ->
  while fuel cond body s0 = while (fuel - k) cond body s.
Proof.
  induction 1 as [|k s s' Hit IH Hc Hb]; intros fuel Hk.
  - now rewrite Nat.sub_0_r.
  - rewrite IH by lia. replace (fuel - k)%nat with (S (fuel - S k)) by lia.
    simpl. now rewrite Hc, Hb.
Qed.

Lemma iterates_invariant {St : Type} (I : nat -> St -> Prop) (cond : St -> bool)
    (body : St -> result (St * bool)) (s0 : St) :
  I O s0 ->
  (forall k s s', I k s -> cond s = true -> body s = Ok (s', false) -> I (S k) s') ->
  forall k s, iterates cond body s0 k s -> I k s.
Proof. intros H0 Hstep k s Hit. induction Hit; eauto. Qed.

Section SolverShapes.

Context {F : Type} {FO : Float64 F}.

Local Abbreviation vec := (list F).
Local Abbreviation mat := (list (list F)).

Lemma ncols_np_diag (v : vec) : ncols (np_diag v) = List.length v.
Proof.
  destruct v as [|x v]; [reflexivity|]. unfold ncols; simpl.
  unfold np_zeros. now rewrite repeat_length.
Qed.

Lemma has_shape_weaken (m : mat) (r c c' : nat) :
  has_shape m r c -> ((0 < r)%nat -> c = c') -> has_shape m r c'.
Proof.
  intros [Hl Hr] Hc. split; [exact Hl|].
  destruct m as [|row m]; [constructor|].
  simpl in Hl. rewrite <- Hc by lia. exact Hr.
Qed.

Lemma gibbs_kernel_shape (M : mat) (reg : F) (r c : nat) :
  has_shape M r c -> has_shape (gibbs_kernel M reg) r c.
Proof. apply mmap_shape. Qed.

Lemma default_marginal_length (x : vec) (n : nat) :
  x = [] \/ List.length x = n -> List.length (default_marginal x n) = n.
Proof.
  intros [-> | H]; [apply uniform_length|].
  unfold default_marginal. destruct (Nat.eqb (List.length x) 0) eqn:E; [|exact H].
  apply Nat.eqb_eq in E. rewrite uniform_length. lia.
Qed.

(** *** The plain solver *)

Lemma sinkhorn_plan_ok (K : mat) (u v : vec) (r c : nat) :
  has_shape K r c -> List.length u = r -> List.length v = c ->
  exists G, sinkhorn_plan K u v = Ok G /\ has_shape G r c.
Proof.
  intros HK Hu Hv. unfold sinkhorn_plan.
  assert (HK' : has_shape K r (nrows (np_diag v))).
  { unfold nrows. rewrite (has_shape_nrows _ _ _ (np_diag_shape v)). now rewrite Hv. }
  rewrite (np_dot_mm_ok _ _ _ HK'). simpl.
  pose proof (np_dot_mm_shape _ _ _ HK') as HKV. rewrite ncols_np_diag, Hv in HKV.
  set (KV := map _ K) in *.
  assert (Hd : has_shape (np_diag u) r (nrows KV)).
  { unfold nrows. rewrite (has_shape_nrows _ _ _ HKV). rewrite <- Hu. apply np_diag_shape. }
  rewrite (np_dot_mm_ok _ _ _ Hd). eexists; split; [reflexivity|].
  apply has_shape_weaken with (c := ncols KV); [apply (np_dot_mm_shape _ _ _ Hd)|].
  intros Hr. apply (has_shape_ncols _ _ _ HKV Hr).
Qed.

Lemma np_sum_axis0_length (m : mat) : List.length (np_sum_axis0 m) = ncols m.
Proof. unfold np_sum_axis0. rewrite length_map. apply (transpose_shape m). Qed.

Lemma np_sum_axis1_length (m : mat) : List.length (np_sum_axis1 m) = nrows m.
Proof. unfold np_sum_axis1. now rewrite length_map. Qed.

Lemma marginal_error_ok (transp : mat) (b : vec) (r c : nat) :
  has_shape transp r c -> (0 < r)%nat -> List.length b = c ->
  exists e, marginal_error transp b = Ok e.
Proof.
  intros Ht Hr Hb. unfold marginal_error.
  rewrite broadcast2_same; [simpl; eauto|].
  rewrite np_sum_axis0_length, (has_shape_ncols _ _ _ Ht Hr). now rewrite Hb.
Qed.

Lemma numerical_errors_ok (K : mat) (u v : vec) (r c : nat) :
  has_shape K r c -> List.length u = r ->
  numerical_errors K u v
  = Ok (np_any_zero (map (fun row => dot1 row u) (transpose K))
        || np_any_isnan u || np_any_isnan v).
Proof.
  intros HK Hu. unfold numerical_errors.
  rewrite (np_dot_mv_ok (transpose K) u (ncols K)); [reflexivity|].
  rewrite Hu, <- (has_shape_nrows _ _ _ HK). apply transpose_shape.
Qed.

Lemma sinkhorn_body_ok (b : vec) (K Kp : mat) (verbose log : bool) (st : sk_state F)
    (r c : nat) :
  (0 < r)%nat -> has_shape K r c -> has_shape Kp r c -> List.length b = c ->
  sk_shapes r c st ->
  exists st' brk, sinkhorn_body b K Kp verbose log st = Ok (st', brk) /\ sk_shapes r c st'
    /\ (brk = false -> sk_cpt st' = (sk_cpt st + 1)%Z).
Proof.
  intros Hr HK HKp Hb (Hu & Hv & Hprev & Hcpt). unfold sinkhorn_body.
  rewrite (numerical_errors_ok _ _ (sk_v st) _ _ HK Hu). simpl.
  destruct (_ || _ || _).
  - destruct (Z.eqb (sk_cpt st) 0) eqn:E; simpl.
    + eexists _, _; split; [reflexivity|]. split; [|discriminate].
      unfold sk_shapes; simpl; intuition auto.
    + apply Z.eqb_neq in E. destruct (Hprev E) as [Hup Hvp].
      eexists _, _; split; [reflexivity|]. split; [|discriminate].
      unfold sk_shapes; simpl; intuition auto.
  - assert (HKt : has_shape (transpose K) (ncols K) (List.length (sk_u st))).
    { rewrite Hu, <- (has_shape_nrows _ _ _ HK). apply transpose_shape. }
    rewrite (np_dot_mv_ok _ _ _ HKt). simpl.
    set (Ktu := map _ (transpose K)).
    assert (HKtu : List.length Ktu = c).
    { unfold Ktu. rewrite length_map, (has_shape_nrows _ _ _ (transpose_shape K)).
      apply (has_shape_ncols _ _ _ HK Hr). }
    rewrite broadcast2_same by congruence. simpl.
    set (v' := zip_with fdiv b Ktu).
    assert (Hv' : List.length v' = c).
    { unfold v'. rewrite zip_with_length; congruence. }
    assert (HKp' : has_shape Kp r (List.length v')) by now rewrite Hv'.
    rewrite (np_dot_mv_ok _ _ _ HKp'). simpl.
    set (u' := vmap _ _).
    assert (Hu' : List.length u' = r).
    { unfold u', vmap. rewrite !length_map. apply HKp. }
    destruct (Z.eqb (sk_cpt st mod 10) 0).
    + destruct (sinkhorn_plan_ok _ _ _ _ _ HK Hu' Hv') as (G & HG & HGs). rewrite HG. simpl.
      destruct (marginal_error_ok _ _ _ _ HGs Hr Hb) as (e & He). rewrite He. simpl.
      eexists _, _; split; [reflexivity|]. split; [|reflexivity].
      unfold sk_shapes; simpl; intuition (auto; lia).
    + eexists _, _; split; [reflexivity|]. split; [|reflexivity].
      unfold sk_shapes; simpl; intuition (auto; lia).
Qed.

Lemma sinkhorn_Kp_ok (a : vec) (K : mat) (r c : nat) :
  has_shape K r c -> List.length a = r ->
  exists Kp, np_dot_mm (np_diag (vmap (fdiv (of_int 1)) a)) K = Ok Kp /\ has_shape Kp r c.
Proof.
  intros HK Ha.
  assert (Hd : has_shape (np_diag (vmap (fdiv (of_int 1)) a)) r (nrows K)).
  { unfold nrows. rewrite (has_shape_nrows _ _ _ HK).
    replace r with (List.length (vmap (fdiv (of_int 1)) a))
      by (unfold vmap; now rewrite length_map).
    apply np_diag_shape. }
  rewrite (np_dot_mm_ok _ _ _ Hd). eexists; split; [reflexivity|].
  apply has_shape_weaken with (c := ncols K); [apply (np_dot_mm_shape _ _ _ Hd)|].
  intros Hr. apply (has_shape_ncols _ _ _ HK Hr).
Qed.

Lemma sinkhorn_init_shapes (r c : nat) (K : mat) : sk_shapes r c (sinkhorn_init r c K).
Proof.
  unfold sk_shapes, sinkhorn_init; simpl. rewrite !uniform_length.
  intuition (auto; lia).
Qed.

(** What the failure branch of the body does. *)
Lemma sinkhorn_body_failure (b : vec) (K Kp : mat) (verbose log : bool) (st : sk_state F) :
  numerical_errors K (sk_u st) (sk_v st) = Ok true ->
  sinkhorn_body b K Kp verbose log st
  = Ok (SkState (if Z.eqb (sk_cpt st) 0 then sk_u st else sk_uprev st)
          (if Z.eqb (sk_cpt st) 0 then sk_v st else sk_vprev st)
          (sk_uprev st) (sk_vprev st) (sk_transp st) (sk_err st) (sk_cpt st)
          (sk_log st) (sk_out st ++ [Warning]), true).
Proof.
  intros H. unfold sinkhorn_body. rewrite H. simpl.
  destruct (Z.eqb (sk_cpt st) 0); reflexivity.
Qed.

(** What an iteration that completes keeps of the state it started from. *)
Lemma sinkhorn_body_completes (b : vec) (K Kp : mat) (verbose log : bool)
    (st st' : sk_state F) :
  sinkhorn_body b K Kp verbose log st = Ok (st', false) ->
  sk_uprev st' = sk_u st /\ sk_vprev st' = sk_v st /\ sk_cpt st' = (sk_cpt st + 1)%Z.
Proof.
  unfold sinkhorn_body. intros H. inv_bind H.
  destruct x.
  - destruct (negb (Z.eqb (sk_cpt st) 0)); discriminate.
  - repeat inv_bind H.
    destruct (Z.eqb (sk_cpt st mod 10) 0).
    + repeat inv_bind H. inversion H; subst; simpl; auto.
    + inversion H; subst; simpl; auto.
Qed.

End SolverShapes.

Section PlainFailure.

Context {F : Type} {FO : Float64 F}.

Local Abbreviation vec := (list F).
Local Abbreviation mat := (list (list F)).

(** What an iteration of [sinkhorn] does to the counter, the log and the
    console. *)
Lemma sinkhorn_body_trace (b : vec) (K Kp : mat) (verbose log : bool)
    (st st' : sk_state F) (brk : bool) :
  sinkhorn_body b K Kp verbose log st = Ok (st', brk) ->
  (brk = true ->
   sk_cpt st' = sk_cpt st /\ sk_log st' = sk_log st
   /\ sk_out st' = sk_out st ++ [Warning])
  /\ (brk = false ->
      sk_cpt st' = (sk_cpt st + 1)%Z
      /\ ((sk_cpt st mod 10 = 0)%Z ->
          sk_log st' = (if log then sk_log st ++ [sk_err st'] else sk_log st)
          /\ sk_out st' = sk_out st ++ verbose_lines verbose 200 (sk_cpt st) (sk_err st'))
      /\ ((sk_cpt st mod 10 <> 0)%Z ->
          sk_log st' = sk_log st /\ sk_out st' = sk_out st /\ sk_err st' = sk_err st)).
Proof.
  unfold sinkhorn_body. intros H.
  apply bind_Ok in H. destruct H as (bad & _ & H).
  destruct bad.
  - destruct (negb (Z.eqb (sk_cpt st) 0)); inversion H; subst; simpl;
      (split; [auto | discriminate]).
  - apply bind_Ok in H. destruct H as (Ktu & _ & H).
    apply bind_Ok in H. destruct H as (v & _ & H).
    apply bind_Ok in H. destruct H as (Kpv & _ & H).
    destruct (Z.eqb (sk_cpt st mod 10) 0) eqn:E.
    + apply bind_Ok in H. destruct H as (transp & _ & H).
      apply bind_Ok in H. destruct H as (err & _ & H).
      apply Z.eqb_eq in E.
      inversion H; subst; simpl. split; [discriminate|]. intros _.
      split; [reflexivity|]. split; [auto | congruence].
    + apply Z.eqb_neq in E.
      inversion H; subst; simpl. split; [discriminate|]. intros _.
      split; [reflexivity|]. split; [congruence | auto].
Qed.

(** An iteration of [sinkhorn] that completes leaves [u = 1./np.dot(Kp,v)]. *)
Lemma sinkhorn_body_update (b : vec) (K Kp : mat)
    (verbose log : bool) (st st' : sk_state F) :
  sinkhorn_body b K Kp verbose log st = Ok (st', false) ->
  exists Kpv, np_dot_mv Kp (sk_v st') = Ok Kpv /\ sk_u st' = vmap (fdiv (of_int 1)) Kpv.
Proof.
  unfold sinkhorn_body. intros H.
  apply bind_Ok in H. destruct H as (bad & _ & H). destruct bad.
  - destruct (negb (Z.eqb (sk_cpt st) 0)); discriminate.
  - apply bind_Ok in H. destruct H as (Ktu & _ & H).
    apply bind_Ok in H. destruct H as (v & _ & H).
    apply bind_Ok in H. destruct H as (Kpv & HKpv & H).
    exists Kpv. destruct (Z.eqb (sk_cpt st mod 10) 0).
    + apply bind_Ok in H. destruct H as (transp & _ & H).
      apply bind_Ok in H. destruct H as (err & _ & H).
      inversion H; subst; simpl; auto.
    + inversion H; subst; simpl; auto.
Qed.

(** An iteration of [sinkhorn] is only left by [break] when the test of
    numerical errors fires. *)
Lemma sinkhorn_body_break (b : vec) (K Kp : mat)
    (verbose log : bool) (st st' : sk_state F) :
  sinkhorn_body b K Kp verbose log st = Ok (st', true) ->
  numerical_errors K (sk_u st) (sk_v st) = Ok true.
Proof.
  unfold sinkhorn_body. intros H.
  apply bind_Ok in H. destruct H as (bad & Hbad & H). destruct bad; [exact Hbad|].
  apply bind_Ok in H. destruct H as (Ktu & _ & H).
  apply bind_Ok in H. destruct H as (v & _ & H).
  apply bind_Ok in H. destruct H as (Kpv & HKpv & H).
  destruct (Z.eqb (sk_cpt st mod 10) 0).
  - apply bind_Ok in H. destruct H as (transp & _ & H).
    apply bind_Ok in H. destruct H as (err & _ & H). discriminate.
  - discriminate.
Qed.

(** X27: when the loop of [sinkhorn] enters an iteration (its test
    [err>stopThr and cpt<numItermax] holds) in a state in which some entry
    of [K.T u] is zero or [u] or [v] holds a NaN, the loop is left at once:
    the solver prints the warning, raises nothing, and returns the plan
    [diag(u) K diag(v)] of the values [u], [v] that the previous iteration
    started from (of the initial uniform vectors when this is the first
    iteration). *)
Theorem sinkhorn_numerical_failure
    (a b : vec) (M : mat) (reg : F) (numItermax : Z) (stopThr : F) (verbose log : bool)
    (Kp : mat) (k : nat) (st : sk_state F) :
  is_matrix M -> (0 < nrows M)%nat ->
  a = [] \/ List.length a = nrows M ->
  b = [] \/ List.length b = ncols M ->
  np_dot_mm (np_diag (vmap (fdiv (of_int 1)) (default_marginal a (nrows M))))
    (gibbs_kernel M reg) = Ok Kp ->
  iterates (sinkhorn_cond stopThr numItermax)
    (sinkhorn_body (default_marginal b (ncols M)) (gibbs_kernel M reg) Kp verbose log)
    (sinkhorn_init (nrows M) (ncols M) (gibbs_kernel M reg)) k st ->
  sinkhorn_cond stopThr numItermax st = true ->
  numerical_errors (gibbs_kernel M reg) (sk_u st) (sk_v st) = Ok true ->
  exists (u v : vec) (G : mat),
    sinkhorn a b M reg numItermax stopThr verbose log
    = Ok (G, (if log then Some (sk_log st) else None), sk_out st ++ [Warning])
    /\ sinkhorn_plan (gibbs_kernel M reg) u v = Ok G
    /\ (k = O -> u = uniform (nrows M) /\ v = uniform (ncols M))
    /\ (k <> O ->
        exists st_prev,
          iterates (sinkhorn_cond stopThr numItermax)
            (sinkhorn_body (default_marginal b (ncols M)) (gibbs_kernel M reg) Kp
               verbose log)
            (sinkhorn_init (nrows M) (ncols M) (gibbs_kernel M reg)) (k - 1) st_prev
          /\ sinkhorn_body (default_marginal b (ncols M)) (gibbs_kernel M reg) Kp
               verbose log st_prev = Ok (st, false)
          /\ u = sk_u st_prev /\ v = sk_v st_prev).
Proof.
  intros HM Hr Ha Hb HKp Hit Hc Hbad.
  set (r := nrows M) in *. set (c := ncols M) in *.
  set (K := gibbs_kernel M reg) in *.
  set (b' := default_marginal b c) in *.
  assert (HK : has_shape K r c) by (apply gibbs_kernel_shape, is_matrix_shape, HM).
  assert (Ha' : List.length (default_marginal a r) = r) by now apply default_marginal_length.
  assert (Hb' : List.length b' = c) by now apply default_marginal_length.
  assert (HKps : has_shape Kp r c).
  { destruct (sinkhorn_Kp_ok _ _ _ _ HK Ha') as (Kp' & E & HKp').
    rewrite HKp in E. now inversion E; subst. }
  (* the states at the head of an iteration have their shapes and counter *)
  assert (Hinv : sk_shapes r c st /\ sk_cpt st = Z.of_nat k).
  { revert Hit.
    apply (iterates_invariant (fun k s => sk_shapes r c s /\ sk_cpt s = Z.of_nat k)).
    - split; [apply sinkhorn_init_shapes | reflexivity].
    - intros j s s' [Hs Hj] _ Hbody.
      destruct (sinkhorn_body_ok b' K Kp verbose log s r c Hr HK HKps Hb' Hs)
        as (s1 & brk & E & Hs1 & Hcpt).
      rewrite Hbody in E. inversion E; subst s1 brk.
      split; [exact Hs1|]. rewrite (Hcpt eq_refl), Hj. lia. }
  destruct Hinv as [(Hu & Hv & Hprev & _) Hcpt].
  (* the loop runs [k] iterations and leaves by the failure branch *)
  assert (Hk : (k < Z.to_nat numItermax)%nat).
  { unfold sinkhorn_cond in Hc. apply andb_true_iff in Hc. destruct Hc as [_ Hc].
    apply Z.ltb_lt in Hc. lia. }
  set (u := if Z.eqb (sk_cpt st) 0 then sk_u st else sk_uprev st).
  set (v := if Z.eqb (sk_cpt st) 0 then sk_v st else sk_vprev st).
  assert (Hu' : List.length u = r).
  { unfold u. destruct (Z.eqb (sk_cpt st) 0) eqn:E; [exact Hu|].
    apply Z.eqb_neq in E. now destruct (Hprev E). }
  assert (Hv' : List.length v = c).
  { unfold v. destruct (Z.eqb (sk_cpt st) 0) eqn:E; [exact Hv|].
    apply Z.eqb_neq in E. now destruct (Hprev E). }
  destruct (sinkhorn_plan_ok K u v r c HK Hu' Hv') as (G & HG & _).
  exists u, v, G. split; [| split; [exact HG | split]].
  - unfold sinkhorn, sinkhorn_loop. fold r c K b'. rewrite Ha', Hb', HKp. simpl.
    rewrite (while_iterates _ _ _ _ _ Hit) by lia.
    replace (Z.to_nat numItermax - k)%nat with (S (Z.to_nat numItermax - S k)) by lia.
    simpl. rewrite Hc, (sinkhorn_body_failure _ _ _ _ _ _ Hbad). simpl.
    fold u v. rewrite HG. reflexivity.
  - intros ->. inversion Hit; subst. unfold u, v. simpl. auto.
  - intros Hk0. destruct k as [|j]; [congruence|].
    inversion Hit as [|j' s s' Hit' Hc' Hbody]; subst.
    exists s. replace (S j - 1)%nat with j by lia.
    destruct (sinkhorn_body_completes _ _ _ _ _ _ _ Hbody) as (Eu & Ev & Ecpt).
    repeat split; auto.
    + unfold u. rewrite Hcpt. replace (Z.eqb (Z.of_nat (S j)) 0) with false; [exact Eu|].
      symmetry. apply Z.eqb_neq. lia.
    + unfold v. rewrite Hcpt. replace (Z.eqb (Z.of_nat (S j)) 0) with false; [exact Ev|].
      symmetry. apply Z.eqb_neq. lia.
Qed.

(** C2: the test of numerical errors of [sinkhorn] stands at the head of
    the iteration, after the test [err>stopThr and cpt<numItermax] of the
    loop.  When the loop is left by that test in a state in which some
    entry of [K.T u] is zero or [u] or [v] holds a NaN, the values are not
    examined: no warning is printed, [u] and [v] are not restored, and the
    plan returned is the plan [diag(u) K diag(v)] of these very values. *)
Theorem numerical_failure_escapes_guard
    (a b : vec) (M : mat) (reg : F) (numItermax : Z) (stopThr : F) (verbose log : bool)
    (Kp : mat) (k : nat) (st : sk_state F) :
  is_matrix M -> (0 < nrows M)%nat ->
  a = [] \/ List.length a = nrows M ->
  b = [] \/ List.length b = ncols M ->
  np_dot_mm (np_diag (vmap (fdiv (of_int 1)) (default_marginal a (nrows M))))
    (gibbs_kernel M reg) = Ok Kp ->
  iterates (sinkhorn_cond stopThr numItermax)
    (sinkhorn_body (default_marginal b (ncols M)) (gibbs_kernel M reg) Kp verbose log)
    (sinkhorn_init (nrows M) (ncols M) (gibbs_kernel M reg)) k st ->
  sinkhorn_cond stopThr numItermax st = false ->
  numerical_errors (gibbs_kernel M reg) (sk_u st) (sk_v st) = Ok true ->
  exists G : mat,
    sinkhorn a b M reg numItermax stopThr verbose log
    = Ok (G, (if log then Some (sk_log st) else None), sk_out st)
    /\ sinkhorn_plan (gibbs_kernel M reg) (sk_u st) (sk_v st) = Ok G
    /\ ~ In Warning (sk_out st).
Proof.
  intros HM Hr Ha Hb HKp Hit Hc Hbad.
  set (r := nrows M) in *. set (c := ncols M) in *.
  set (K := gibbs_kernel M reg) in *.
  set (b' := default_marginal b c) in *.
  assert (HK : has_shape K r c) by (apply gibbs_kernel_shape, is_matrix_shape, HM).
  assert (Ha' : List.length (default_marginal a r) = r) by now apply default_marginal_length.
  assert (Hb' : List.length b' = c) by now apply default_marginal_length.
  assert (HKps : has_shape Kp r c).
  { destruct (sinkhorn_Kp_ok _ _ _ _ HK Ha') as (Kp' & E & HKp').
    rewrite HKp in E. now inversion E; subst. }
  (* the states at the head of an iteration: shapes, counter, console *)
  assert (Hinv : sk_shapes r c st /\ sk_cpt st = Z.of_nat k
                 /\ (Z.of_nat k <= Z.max 0 numItermax)%Z /\ ~ In Warning (sk_out st)).
  { revert Hit.
    apply (iterates_invariant
             (fun k s => sk_shapes r c s /\ sk_cpt s = Z.of_nat k
                         /\ (Z.of_nat k <= Z.max 0 numItermax)%Z
                         /\ ~ In Warning (sk_out s))).
    - split; [apply sinkhorn_init_shapes|]. split; [reflexivity|].
      split; [lia | intros []].
    - intros j s s' (Hs & Hj & _ & Hout) Hcond Hbody.
      destruct (sinkhorn_body_ok b' K Kp verbose log s r c Hr HK HKps Hb' Hs)
        as (s1 & brk & E & Hs1 & Hcpt).
      rewrite Hbody in E. inversion E; subst s1 brk.
      split; [exact Hs1|]. split; [rewrite (Hcpt eq_refl), Hj; lia|]. split.
      + unfold sinkhorn_cond in Hcond. apply andb_true_iff in Hcond.
        destruct Hcond as [_ Hlt]. apply Z.ltb_lt in Hlt. lia.
      + destruct (sinkhorn_body_trace _ _ _ _ _ _ _ _ Hbody) as [_ Htr].
        destruct (Htr eq_refl) as (_ & H0 & H1).
        destruct (Z.eq_dec (sk_cpt s mod 10) 0) as [E0|E0].
        * destruct (H0 E0) as [_ ->]. intros Hin. apply in_app_or in Hin.
          destruct Hin as [Hin|Hin]; [exact (Hout Hin)|].
          unfold verbose_lines in Hin. destruct verbose; [|exact Hin].
          destruct (Z.eqb (sk_cpt s mod 200) 0); simpl in Hin;
            repeat (destruct Hin as [Hin|Hin]; [discriminate|]); exact Hin.
        * destruct (H1 E0) as (_ & -> & _). exact Hout. }
  destruct Hinv as ((Hu & Hv & _) & Hcpt & Hk & Hout).
  destruct (sinkhorn_plan_ok K (sk_u st) (sk_v st) r c HK Hu Hv) as (G & HG & _).
  exists G. split; [| split; [exact HG | exact Hout]].
  unfold sinkhorn, sinkhorn_loop. fold r c K b'. rewrite Ha', Hb', HKp. simpl.
  rewrite (while_iterates _ _ _ _ _ Hit) by lia.
  assert (Hw : forall fuel, while fuel (sinkhorn_cond stopThr numItermax)
                 (sinkhorn_body b' K Kp verbose log) st = Ok st).
  { intros [|fuel]; simpl; now rewrite Hc. }
  rewrite Hw. simpl. rewrite HG. reflexivity.
Qed.

End PlainFailure.

(** *** The stabilized solver *)

Section StabilizedShapes.

Context {F : Type} {FO : Float64 F}.

Local Abbreviation vec := (list F).
Local Abbreviation mat := (list (list F)).

Lemma mmap_col (f : F -> F) (x : vec) :
  mmap f (map (fun e => [e]) x) = map (fun e => [e]) (map f x).
Proof. unfold mmap. rewrite !map_map. reflexivity. Qed.

Lemma zip_rows_shape (op : F -> F -> F) (m : mat) (y : vec) (r c : nat) :
  has_shape m r c -> List.length y = c ->
  has_shape (map (fun row => zip_with op row y) m) r c.
Proof.
  intros Hm Hy. apply map_rows_shape; [|exact Hm].
  intros row Hrow. rewrite zip_with_length; congruence.
Qed.

Lemma col_rows_shape (op : F -> F -> F) (m : mat) (x : vec) (r c : nat) :
  has_shape m r c -> List.length x = r ->
  has_shape (zip_with (fun row e => map (fun a => op a e) row) m x) r c.
Proof.
  intros Hm Hx. apply zip_with_rows_shape; auto.
  intros row e. apply length_map.
Qed.

Lemma log_kernel_ok (M : mat) (reg : F) (r c : nat) (alpha beta : vec) :
  has_shape M r c -> List.length alpha = r -> List.length beta = c ->
  exists L, log_kernel M reg r c alpha beta = Ok L /\ has_shape L r c.
Proof.
  intros HM Ha Hb. unfold log_kernel, reshape_col, reshape_row.
  rewrite Ha, Hb, !Nat.eqb_refl. simpl.
  rewrite broadcast_mm_col by (unfold nrows; rewrite (has_shape_nrows _ _ _ HM); exact Ha).
  simpl.
  pose proof (col_rows_shape fsub M alpha r c HM Ha) as HMA.
  rewrite (broadcast_mm_row fsub _ beta r c HMA Hb). simpl.
  eexists; split; [reflexivity|].
  apply mmap_shape. now apply zip_rows_shape.
Qed.

Lemma get_K_ok (M : mat) (reg : F) (r c : nat) (alpha beta : vec) :
  has_shape M r c -> List.length alpha = r -> List.length beta = c ->
  exists K, get_K M reg r c alpha beta = Ok K /\ has_shape K r c.
Proof.
  intros HM Ha Hb. unfold get_K.
  destruct (log_kernel_ok M reg r c alpha beta HM Ha Hb) as (L & -> & HL). simpl.
  eexists; split; [reflexivity|]. now apply mmap_shape.
Qed.

Lemma get_Gamma_ok (M : mat) (reg : F) (r c : nat) (alpha beta u v : vec) :
  has_shape M r c -> List.length alpha = r -> List.length beta = c ->
  List.length u = r -> List.length v = c ->
  exists G, get_Gamma M reg r c alpha beta u v = Ok G /\ has_shape G r c.
Proof.
  intros HM Ha Hb Hu Hv. unfold get_Gamma.
  destruct (log_kernel_ok M reg r c alpha beta HM Ha Hb) as (L & -> & HL). simpl.
  unfold reshape_col, reshape_row. rewrite Hu, Hv, !Nat.eqb_refl. simpl.
  rewrite mmap_col.
  rewrite broadcast_mm_col
    by (unfold nrows; rewrite (has_shape_nrows _ _ _ HL), length_map; exact Hu).
  simpl.
  assert (Hlu : List.length (map flog u) = r) by now rewrite length_map.
  pose proof (col_rows_shape fadd L (map flog u) r c HL Hlu) as HLU.
  assert (Hlv : List.length (map flog v) = c) by now rewrite length_map.
  rewrite (broadcast_mm_row fadd _ (map flog v) r c HLU Hlv). simpl.
  eexists; split; [reflexivity|].
  apply mmap_shape. now apply zip_rows_shape.
Qed.

Lemma np_max_ok (x : vec) : (0 < List.length x)%nat -> exists m, np_max x = Ok m.
Proof. destruct x; simpl; [lia | eauto]. Qed.

Lemma exceeds_ok (tau : F) (u v : vec) :
  (0 < List.length u)%nat -> (0 < List.length v)%nat -> exists big, exceeds tau u v = Ok big.
Proof.
  intros Hu Hv. unfold exceeds.
  destruct (np_max_ok (vmap fabs u)) as (mu & ->); [unfold vmap; now rewrite length_map|].
  simpl. destruct (fltb tau mu); [eauto|].
  destruct (np_max_ok (vmap fabs v)) as (mv & ->); [unfold vmap; now rewrite length_map|].
  simpl. eauto.
Qed.

Lemma absorb_ok (reg : F) (x y : vec) (n : nat) :
  List.length x = n -> List.length y = n ->
  exists z, absorb reg x y = Ok z /\ List.length z = n.
Proof.
  intros Hx Hy. unfold absorb, vmap.
  rewrite broadcast2_same by (rewrite !length_map; congruence).
  eexists; split; [reflexivity|]. rewrite zip_with_length; [exact Hx|].
  rewrite !length_map. congruence.
Qed.

Lemma stabilized_body_ok (a b : vec) (M : mat) (reg : F) (r c : nat) (numItermax : Z)
    (tau stopThr : F) (verbose : bool) (print_period : Z) (log : bool) (st : stab_state F) :
  (0 < r)%nat -> (0 < c)%nat -> has_shape M r c ->
  List.length a = r -> List.length b = c -> print_period <> 0%Z ->
  stab_shapes r c st ->
  exists st' brk,
    stabilized_body a b M reg r c numItermax tau stopThr verbose print_period log st
    = Ok (st', brk)
    /\ stab_shapes r c st'
    /\ (brk = false ->
        st_cpt st' = (st_cpt st + 1)%Z
        /\ (st_loop st' = true -> st_loop st = true /\ (st_cpt st < numItermax)%Z)).
Proof.
  intros Hr Hc HM Ha Hb Hpp (Hal & Hbe & Hu & Hv & HK & Hcpt).
  unfold stabilized_body.
  destruct (exceeds_ok tau (st_u st) (st_v st)) as (big & ->); try lia. simpl.
  (* the state after the absorption, if any *)
  assert (Habs : exists alpha beta u v K,
    (if big
     then alpha <- absorb reg (st_alpha st) (st_u st) ;;
          beta <- absorb reg (st_beta st) (st_v st) ;;
          K <- get_K M reg r c alpha beta ;;
          Ok (alpha, beta, uniform r, uniform c, K)
     else Ok (st_alpha st, st_beta st, st_u st, st_v st, st_K st))
    = Ok (alpha, beta, u, v, K)
    /\ List.length alpha = r /\ List.length beta = c
    /\ List.length u = r /\ List.length v = c /\ has_shape K r c).
  { destruct big.
    - destruct (absorb_ok reg (st_alpha st) (st_u st) r Hal Hu) as (al & -> & Hal').
      destruct (absorb_ok reg (st_beta st) (st_v st) c Hbe Hv) as (be & -> & Hbe').
      simpl. destruct (get_K_ok M reg r c al be HM Hal' Hbe') as (K & -> & HK').
      simpl. exists al, be, (uniform r), (uniform c), K.
      rewrite !uniform_length. repeat split; auto; apply HK'.
    - exists (st_alpha st), (st_beta st), (st_u st), (st_v st), (st_K st).
      repeat split; auto; apply HK. }
  destruct Habs as (alpha & beta & u & v & K & -> & Hal' & Hbe' & Hu' & Hv' & HK').
  simpl.
  assert (HKt : has_shape (transpose K) (ncols K) (List.length u)).
  { rewrite Hu', <- (has_shape_nrows _ _ _ HK'). apply transpose_shape. }
  rewrite (np_dot_mv_ok _ _ _ HKt). simpl.
  set (Ktu := map _ (transpose K)).
  assert (HKtu : List.length Ktu = c).
  { unfold Ktu. rewrite length_map, (has_shape_nrows _ _ _ (transpose_shape K)).
    apply (has_shape_ncols _ _ _ HK' Hr). }
  rewrite broadcast2_same by congruence. simpl.
  set (v1 := zip_with fdiv b Ktu).
  assert (Hv1 : List.length v1 = c) by (unfold v1; rewrite zip_with_length; congruence).
  assert (HKv : has_shape K r (List.length v1)) by now rewrite Hv1.
  rewrite (np_dot_mv_ok _ _ _ HKv). simpl.
  set (Kv := map _ K).
  assert (HKvl : List.length Kv = r)
    by (unfold Kv; rewrite length_map; apply (has_shape_nrows _ _ _ HK')).
  rewrite broadcast2_same by congruence. simpl.
  set (u1 := zip_with fdiv a Kv).
  assert (Hu1 : List.length u1 = r) by (unfold u1; rewrite zip_with_length; congruence).
  replace (Z.eqb print_period 0) with false by (symmetry; now apply Z.eqb_neq).
  simpl.
  assert (Herr : exists transp err lg out,
    (if Z.eqb (st_cpt st mod print_period) 0
     then transp <- get_Gamma M reg r c alpha beta u1 v1 ;;
          err <- marginal_error transp b ;;
          Ok (transp, err, (if log then st_log st ++ [err] else st_log st),
              st_out st ++ verbose_lines verbose (print_period * 20) (st_cpt st) err)
     else Ok (st_transp st, st_err st, st_log st, st_out st))
    = Ok (transp, err, lg, out)).
  { destruct (Z.eqb (st_cpt st mod print_period) 0); [|eauto 6].
    destruct (get_Gamma_ok M reg r c alpha beta u1 v1 HM Hal' Hbe' Hu1 Hv1)
      as (G & -> & HG). simpl.
    destruct (marginal_error_ok G b r c HG Hr Hb) as (e & ->). simpl. eauto 6. }
  destruct Herr as (transp & err & lg & out & ->). simpl.
  rewrite (numerical_errors_ok K u1 v1 r c HK' Hu1). simpl.
  destruct (_ || _ || _).
  - destruct (negb (Z.eqb (st_cpt st) 0)); eexists _, _;
      (split; [reflexivity|]); (split; [|discriminate]);
      unfold stab_shapes; simpl; intuition auto.
  - eexists _, _; split; [reflexivity|]. split.
    + unfold stab_shapes; simpl; intuition (auto; lia).
    + intros _. simpl. split; [reflexivity|].
      destruct (Z.geb (st_cpt st) numItermax) eqn:E; [discriminate|].
      destruct (fleb err stopThr); [discriminate|].
      intros Hl. split; [exact Hl|]. rewrite Z.geb_leb in E. apply Z.leb_gt in E. lia.
Qed.

Lemma stabilized_loop_ok (a b : vec) (M : mat) (reg : F) (numItermax : Z) (tau stopThr : F)
    (warmstart : option (vec * vec)) (verbose : bool) (print_period : Z) (log : bool) :
  is_matrix M -> (0 < nrows M)%nat -> (0 < ncols M)%nat ->
  a = [] \/ List.length a = nrows M ->
  b = [] \/ List.length b = ncols M ->
  (forall al be, warmstart = Some (al, be) ->
     List.length al = nrows M /\ List.length be = ncols M) ->
  print_period <> 0%Z ->
  exists st,
    stabilized_loop a b M reg numItermax tau stopThr warmstart verbose print_period log = Ok st
    /\ stab_shapes (nrows M) (ncols M) st.
Proof.
  intros HM Hr Hc Ha Hb Hw Hpp.
  set (r := nrows M) in *. set (c := ncols M) in *.
  assert (HMs : has_shape M r c) by now apply is_matrix_shape.
  unfold stabilized_loop. fold r c.
  rewrite (default_marginal_length a r Ha), (default_marginal_length b c Hb).
  set (a' := default_marginal a r). set (b' := default_marginal b c).
  assert (Hw' : exists al be,
    match warmstart with Some w => w | None => (np_zeros r, np_zeros c) end = (al, be)
    /\ List.length al = r /\ List.length be = c).
  { destruct warmstart as [[al be]|].
    - exists al, be. destruct (Hw al be eq_refl). auto.
    - exists (np_zeros r), (np_zeros c). unfold np_zeros. rewrite !repeat_length. auto. }
  destruct Hw' as (al & be & -> & Hal & Hbe).
  destruct (get_K_ok M reg r c al be HMs Hal Hbe) as (K & -> & HK). simpl.
  destruct (while_total (stab_shapes r c) (stab_measure numItermax) st_loop
              (stabilized_body a' b' M reg r c numItermax tau stopThr verbose print_period log))
    with (fuel := S (Z.to_nat numItermax))
         (s := StabState al be (uniform r) (uniform c) (np_zeros r) (np_zeros c)
                 K K (of_int 1) 0 true [] [])
    as (st & Hst & Hsh & _).
  - intros s Hs Hl.
    destruct (stabilized_body_ok a' b' M reg r c numItermax tau stopThr verbose
                print_period log s Hr Hc HMs) as (s' & brk & E & Hs' & Hctl); auto.
    + now apply default_marginal_length.
    + now apply default_marginal_length.
    + exists s', brk. repeat split; auto; try apply Hs'.
      intros ->. destruct (Hctl eq_refl) as [Hcpt Hloop].
      unfold stab_measure. rewrite Hl.
      destruct (st_loop s'); [|lia].
      destruct (Hloop eq_refl) as [_ Hlt]. rewrite Hcpt. lia.
  - intros s _ Hl. unfold stab_measure. rewrite Hl. lia.
  - unfold stab_shapes; simpl. rewrite !uniform_length. repeat split; auto; try apply HK. lia.
  - unfold stab_measure; simpl. rewrite Z.sub_0_r. lia.
  - exists st. auto.
Qed.

Lemma stabilized_return_ok (a b : vec) (M : mat) (reg : F) (log : bool) (st : stab_state F) :
  is_matrix M ->
  a = [] \/ List.length a = nrows M ->
  b = [] \/ List.length b = ncols M ->
  stab_shapes (nrows M) (ncols M) st ->
  exists G lgo,
    stabilized_return a b M reg log st = Ok (G, lgo, st_out st)
    /\ has_shape G (nrows M) (ncols M)
    /\ (log = true ->
        exists lg, lgo = Some lg
          /\ List.length (lg_alpha lg) = nrows M /\ List.length (lg_beta lg) = ncols M).
Proof.
  intros HM Ha Hb (Hal & Hbe & Hu & Hv & HK & _).
  set (r := nrows M) in *. set (c := ncols M) in *.
  assert (HMs : has_shape M r c) by now apply is_matrix_shape.
  unfold stabilized_return. fold r c.
  rewrite (default_marginal_length a r Ha), (default_marginal_length b c Hb).
  destruct (get_Gamma_ok M reg r c _ _ _ _ HMs Hal Hbe Hu Hv) as (G & HG & HGs).
  destruct log.
  - unfold vmap. rewrite !broadcast2_same by (rewrite !length_map; congruence). simpl.
    destruct (absorb_ok reg (st_alpha st) (st_u st) r Hal Hu) as (al & -> & Hal').
    destruct (absorb_ok reg (st_beta st) (st_v st) c Hbe Hv) as (be & -> & Hbe').
    simpl. rewrite HG. simpl. eexists _, _; split; [reflexivity|].
    split; [exact HGs|]. intros _. eexists; split; [reflexivity|]. simpl. auto.
  - rewrite HG. simpl. eexists _, _; split; [reflexivity|].
    split; [exact HGs|]. discriminate.
Qed.

Lemma sinkhorn_stabilized_ok (a b : vec) (M : mat) (reg : F) (numItermax : Z)
    (tau stopThr : F) (warmstart : option (vec * vec)) (verbose : bool) (print_period : Z)
    (log : bool) :
  is_matrix M -> (0 < nrows M)%nat -> (0 < ncols M)%nat ->
  a = [] \/ List.length a = nrows M ->
  b = [] \/ List.length b = ncols M ->
  (forall al be, warmstart = Some (al, be) ->
     List.length al = nrows M /\ List.length be = ncols M) ->
  print_period <> 0%Z ->
  exists G lgo out,
    sinkhorn_stabilized a b M reg numItermax tau stopThr warmstart verbose print_period log
    = Ok (G, lgo, out)
    /\ has_shape G (nrows M) (ncols M)
    /\ (log = true ->
        exists lg, lgo = Some lg
          /\ List.length (lg_alpha lg) = nrows M /\ List.length (lg_beta lg) = ncols M).
Proof.
  intros HM Hr Hc Ha Hb Hw Hpp. unfold sinkhorn_stabilized.
  destruct (stabilized_loop_ok a b M reg numItermax tau stopThr warmstart verbose
              print_period log HM Hr Hc Ha Hb Hw Hpp) as (st & -> & Hst).
  simpl.
  destruct (stabilized_return_ok a b M reg log st HM Ha Hb Hst) as (G & lgo & -> & HG & Hlg).
  eauto 6.
Qed.

(** The consolidated potentials in the log of [sinkhorn_stabilized]. *)
Lemma stabilized_log_potentials (a b : vec) (M : mat) (reg : F) (numItermax : Z)
    (tau stopThr : F) (warmstart : option (vec * vec)) (verbose : bool) (print_period : Z)
    (G : mat) (lgo : option (stab_log F)) (out : list (event F)) :
  sinkhorn_stabilized a b M reg numItermax tau stopThr warmstart verbose print_period true
  = Ok (G, lgo, out) ->
  exists st lg,
    stabilized_loop a b M reg numItermax tau stopThr warmstart verbose print_period true
    = Ok st
    /\ lgo = Some lg
    /\ absorb reg (st_alpha st) (st_u st) = Ok (lg_alpha lg)
    /\ absorb reg (st_beta st) (st_v st) = Ok (lg_beta lg)
    /\ lg_warmstart lg = (lg_alpha lg, lg_beta lg).
Proof.
  unfold sinkhorn_stabilized. intros H. inv_bind H. rename x into st.
  exists st. unfold stabilized_return in H. repeat inv_bind H.
  inversion H; subst. eexists; repeat split; eauto.
Qed.

End StabilizedShapes.

(** *** The epsilon-scaling solver *)

Section EpsilonScaling.

Context {F : Type} {FO : Float64 F}.

Local Abbreviation vec := (list F).
Local Abbreviation mat := (list (list F)).

(** C4: the loop of [sinkhorn_epsilon_scaling] completes no iteration at
    all, on any input: its body starts with the call of
    [sinkhorn_stabilized] that repeats the keyword [tau], which Python
    refuses.  From any state the body raises [SyntaxError], so does the
    loop, and the only state at the head of an iteration is the initial
    one: the 35 iterations of [numItermin] are never run. *)
Theorem epsilon_scaling_runs_no_iteration
    (a b : vec) (M : mat) (reg : F)
    (numItermax : Z) (epsilon0 : F) (numInnerItermax : Z) (tau stopThr : F)
    (warmstart : option (vec * vec)) (verbose : bool) (print_period : Z) (log : bool) :
  (forall st : eps_state F,
     epsilon_body Reject a b M reg numItermax epsilon0 numInnerItermax tau stopThr
       verbose print_period log st = Raise SyntaxError)
  /\ epsilon_loop Reject a b M reg numItermax epsilon0 numInnerItermax tau stopThr
       warmstart verbose print_period log = Raise SyntaxError
  /\ (forall (s0 : eps_state F) (k : nat) (st : eps_state F),
        iterates es_loop
          (epsilon_body Reject a b M reg numItermax epsilon0 numInnerItermax tau stopThr
             verbose print_period log) s0 k st ->
        k = O /\ st = s0).
Proof.
  assert (Hbody : forall a b M reg numItermax epsilon0 numInnerItermax tau stopThr
                         verbose print_period log (st : eps_state F),
             epsilon_body Reject a b M reg numItermax epsilon0 numInnerItermax tau stopThr
               verbose print_period log st = Raise SyntaxError) by reflexivity.
  split; [apply Hbody|]. split.
  - unfold epsilon_loop. destruct warmstart as [[al be]|]; reflexivity.
  - intros s0 k st Hit. destruct Hit as [|k s s' _ _ Hb]; [auto|].
    rewrite Hbody in Hb. discriminate.
Qed.

(** C7: with [log=True] the log returned by [sinkhorn_stabilized] holds, as
    [alpha] and [beta] (and as the pair [warmstart]), the potentials of its
    final state with the scalings folded in, [alpha+reg*log(u)] and
    [beta+reg*log(v)].  The call of the loop of [sinkhorn_epsilon_scaling]
    names the potentials of the state as [warmstart] and asks for the log,
    but it repeats the keyword [tau] and is refused: from any state the
    body of the loop raises [SyntaxError] at that call, so that no inner
    call is made and no log is passed on to a next one. *)
Theorem log_potentials_not_threaded
    (a1 b1 : vec) (M1 : mat) (reg1 : F) (numItermax1 : Z) (tau1 stopThr1 : F)
    (warmstart1 : option (vec * vec)) (verbose1 : bool) (print_period1 : Z)
    (G1 : mat) (lgo1 : option (stab_log F)) (out1 : list (event F))
    (a b : vec) (M : mat) (reg : F)
    (numItermax : Z) (epsilon0 : F) (numInnerItermax : Z) (tau stopThr : F)
    (verbose : bool) (print_period : Z) (log : bool) (st : eps_state F) :
  sinkhorn_stabilized a1 b1 M1 reg1 numItermax1 tau1 stopThr1 warmstart1 verbose1
    print_period1 true = Ok (G1, lgo1, out1) ->
  (exists st1 lg1,
     stabilized_loop a1 b1 M1 reg1 numItermax1 tau1 stopThr1 warmstart1 verbose1
       print_period1 true = Ok st1
     /\ lgo1 = Some lg1
     /\ absorb reg1 (st_alpha st1) (st_u st1) = Ok (lg_alpha lg1)
     /\ absorb reg1 (st_beta st1) (st_v st1) = Ok (lg_beta lg1)
     /\ lg_warmstart lg1 = (lg_alpha lg1, lg_beta lg1))
  /\ lookup "warmstart" (inner_keywords numInnerItermax tau (es_alpha st) (es_beta st))
     = Some (VPair (es_alpha st) (es_beta st))
  /\ lookup "log" (inner_keywords numInnerItermax tau (es_alpha st) (es_beta st))
     = Some (VBool true)
  /\ bind_stabilized Reject
       (inner_keywords numInnerItermax tau (es_alpha st) (es_beta st))
     = Raise SyntaxError
  /\ epsilon_body Reject a b M reg numItermax epsilon0 numInnerItermax tau stopThr
       verbose print_period log st = Raise SyntaxError.
Proof.
  intros H1. split; [exact (stabilized_log_potentials _ _ _ _ _ _ _ _ _ _ _ _ _ H1)|].
  repeat split.
Qed.

End EpsilonScaling.

(** ** Exact arithmetic *)

Section Lifting.

Import XReal.
Local Open Scope R_scope.

Local Abbreviation Rfloat := RealArith.float64.
Local Abbreviation Xfloat := XReal.float64.

Lemma lift_length (x : list R) : List.length (lift x) = List.length x.
Proof. apply length_map. Qed.

Lemma finite_lift (x : list xreal) : Forall finite x -> exists xr, x = lift xr.
Proof.
  induction 1 as [|e x [r ->] _ [xr ->]].
  - now exists [].
  - now exists (r :: xr).
Qed.

Lemma finite_liftm (m : list (list xreal)) :
  Forall (Forall finite) m -> exists mr, m = liftm mr.
Proof.
  induction 1 as [|row m Hrow _ [mr ->]].
  - now exists [].
  - destruct (finite_lift row Hrow) as [rr ->]. now exists (rr :: mr).
Qed.

Lemma liftm_shape (m : list (list R)) (r c : nat) :
  has_shape (liftm m) r c <-> has_shape m r c.
Proof.
  unfold has_shape, liftm. rewrite length_map, Forall_map.
  split; intros [Hl Hr]; split; auto;
    (eapply Forall_impl; [| exact Hr]); intros row; cbv beta; now rewrite lift_length.
Qed.

Lemma fold_left_xadd_lift (x : list R) (acc : R) :
  fold_left xadd (lift x) (Fin acc) = Fin (fold_left Rplus x acc).
Proof. revert acc; induction x as [|e x IH]; intros acc; simpl; [reflexivity | apply IH]. Qed.

Lemma zip_with_xmul_lift (x y : list R) :
  zip_with xmul (lift x) (lift y) = lift (zip_with Rmult x y).
Proof.
  revert y; induction x as [|a x IH]; intros [|b y]; simpl; try reflexivity.
  now rewrite IH.
Qed.

Lemma dot1_lift (x y : list R) :
  dot1 (FO := Xfloat) (lift x) (lift y) = Fin (dot1 (FO := Rfloat) x y).
Proof. unfold dot1. rewrite zip_with_xmul_lift. apply fold_left_xadd_lift. Qed.

Lemma np_sum_lift (x : list R) :
  np_sum (FO := Xfloat) (lift x) = Fin (np_sum (FO := Rfloat) x).
Proof. apply fold_left_xadd_lift. Qed.

Lemma column_lift (j : nat) (m : list (list R)) :
  column (FO := Xfloat) j (liftm m) = lift (column (FO := Rfloat) j m).
Proof.
  unfold column, liftm, lift. rewrite !map_map. apply map_ext.
  intros row. simpl. apply (map_nth Fin).
Qed.

Lemma ncols_liftm (m : list (list R)) : ncols (liftm m) = ncols m.
Proof. destruct m; [reflexivity|]. unfold ncols; simpl. apply lift_length. Qed.

Lemma transpose_lift (m : list (list R)) :
  transpose (FO := Xfloat) (liftm m) = liftm (transpose (FO := Rfloat) m).
Proof.
  unfold transpose. rewrite ncols_liftm. unfold liftm at 2. rewrite map_map.
  apply map_ext. intros j. apply column_lift.
Qed.

Lemma np_diag_lift (d : list R) :
  np_diag (FO := Xfloat) (lift d) = liftm (np_diag (FO := Rfloat) d).
Proof.
  induction d as [|x d IH]; [reflexivity|].
  simpl. rewrite lift_length. f_equal.
  - unfold np_zeros, lift. simpl. now rewrite map_repeat.
  - fold (lift d). rewrite IH. unfold liftm. rewrite !map_map. reflexivity.
Qed.

Lemma shape_check_lift (A : list (list R)) (n : nat) :
  forallb (fun row => Nat.eqb (List.length row) n) (liftm A)
  = forallb (fun row => Nat.eqb (List.length row) n) A.
Proof.
  induction A as [|row A IH]; [reflexivity|]. simpl. now rewrite lift_length, IH.
Qed.

Lemma np_dot_mv_lift (A : list (list R)) (x : list R) :
  np_dot_mv (FO := Xfloat) (liftm A) (lift x)
  = result_map lift (np_dot_mv (FO := Rfloat) A x).
Proof.
  unfold np_dot_mv. rewrite lift_length, shape_check_lift.
  destruct (forallb _ A); [|reflexivity]. simpl. f_equal.
  unfold liftm, lift. rewrite !map_map. apply map_ext. intros row. apply dot1_lift.
Qed.

Lemma np_dot_mm_lift (A B : list (list R)) :
  np_dot_mm (FO := Xfloat) (liftm A) (liftm B)
  = result_map liftm (np_dot_mm (FO := Rfloat) A B).
Proof.
  assert (HB : List.length (liftm B) = List.length B) by apply length_map.
  unfold np_dot_mm, nrows. rewrite HB, shape_check_lift.
  destruct (forallb _ A); [|reflexivity]. simpl. f_equal.
  rewrite transpose_lift. unfold liftm, lift. rewrite !map_map. apply map_ext.
  intros row. rewrite !map_map. apply map_ext. intros col. apply dot1_lift.
Qed.

Lemma xdiv_fin (a b : R) : b <> 0 -> xdiv (Fin a) (Fin b) = Fin (a / b).
Proof. intros Hb. simpl. unfold Reqb. destruct (Req_dec_T b 0); [contradiction | reflexivity]. Qed.

Lemma zip_with_xdiv_lift (x y : list R) :
  Forall (fun b => b <> 0) y ->
  zip_with xdiv (lift x) (lift y) = lift (zip_with Rdiv x y).
Proof.
  intros Hy; revert x; induction Hy as [|b y Hb Hy IH]; intros [|a x]; simpl; try reflexivity.
  fold (lift x) (lift y). rewrite IH.
  unfold Reqb. destruct (Req_dec_T b 0); [contradiction | reflexivity].
Qed.

Lemma map_xdiv_lift (a : R) (y : list R) :
  Forall (fun b => b <> 0) y ->
  map (xdiv (Fin a)) (lift y) = lift (map (Rdiv a) y).
Proof.
  induction 1 as [|b y Hb Hy IH]; simpl; [reflexivity|].
  fold (lift y). rewrite IH. unfold Reqb.
  destruct (Req_dec_T b 0); [contradiction | reflexivity].
Qed.


End Lifting.

(** *** Sums and products of real vectors *)

Section RealAlgebra.

Import RealArith.
Local Open Scope R_scope.

Lemma fold_left_Rplus_acc (x : list R) (acc : R) :
  fold_left Rplus x acc = acc + fold_left Rplus x 0.
Proof.
  revert acc; induction x as [|e x IH]; intros acc; simpl; [lra|].
  rewrite (IH (acc + e)), (IH (0 + e)). lra.
Qed.

Lemma Rdot1_cons (a b : R) (x y : list R) :
  dot1 (a :: x) (b :: y) = a * b + dot1 x y.
Proof. unfold dot1. simpl. rewrite fold_left_Rplus_acc. lra. Qed.

Lemma Rdot1_nil_r (x : list R) : dot1 x [] = 0.
Proof. destruct x; reflexivity. Qed.

Lemma Rdot1_zeros (n : nat) (y : list R) : dot1 (np_zeros n) y = 0.
Proof.
  revert y; induction n as [|n IH]; intros y; [reflexivity|].
  destruct y as [|b y]; [reflexivity|].
  change (np_zeros (S n)) with (0 :: np_zeros n). rewrite Rdot1_cons, IH. simpl. lra.
Qed.

Lemma Rdot1_scal (c : R) (x y : list R) :
  dot1 (map (Rmult c) x) y = c * dot1 x y.
Proof.
  revert y; induction x as [|a x IH]; intros [|b y]; simpl;
    try (unfold dot1; simpl; lra).
  rewrite !Rdot1_cons, IH. lra.
Qed.

Lemma Rsum_cons (a : R) (x : list R) : np_sum (a :: x) = a + np_sum x.
Proof. unfold np_sum. simpl. rewrite fold_left_Rplus_acc. lra. Qed.

Lemma Rsum_scal (c : R) (x : list R) : np_sum (map (fun e => e * c) x) = np_sum x * c.
Proof.
  induction x as [|a x IH]; [unfold np_sum; simpl; lra|].
  simpl. rewrite !Rsum_cons, IH. lra.
Qed.

Lemma map_nth_seq {A : Type} (l : list A) (d : A) :
  map (fun j => nth j l d) (seq 0 (List.length l)) = l.
Proof.
  apply nth_ext with (d := d) (d' := d).
  - now rewrite length_map, length_seq.
  - intros n Hn. rewrite length_map, length_seq in Hn.
    rewrite (nth_indep _ d (nth 0 l d))
      by (rewrite length_map, length_seq; exact Hn).
    rewrite (map_nth (fun j => nth j l d)). now rewrite seq_nth.
Qed.

(** The rows of [np.dot(np.diag(d),K)] are the rows of [K] scaled by [d]. *)
Lemma diag_rows (d : list R) (K : list (list R)) (c : nat) :
  has_shape K (List.length d) c ->
  map (fun row => map (fun j => dot1 row (column j K)) (seq 0 c)) (np_diag d)
  = zip_with (fun row x => map (Rmult x) row) K d.
Proof.
  revert K; induction d as [|x d IH]; intros K [Hl Hr].
  { destruct K; [reflexivity | discriminate]. }
  destruct K as [|k0 K]; [discriminate|]. simpl in Hl.
  inversion Hr as [|? ? Hk0 HK]; subst.
  cbn [np_diag map zip_with]. f_equal.
  - rewrite <- (map_nth_seq k0 0) at 2. rewrite map_map. apply map_ext.
    intros j. cbn [column map]. rewrite Rdot1_cons, Rdot1_zeros.
    change (of_int 0) with 0. generalize (nth j k0 0). intros y. ring.
  - rewrite map_map. rewrite <- (IH K) by (split; [lia | exact HK]).
    apply map_ext. intros row. apply map_ext. intros j.
    cbn [column map]. rewrite Rdot1_cons. unfold column. change (of_int 0) with 0.
    generalize (dot1 row (map (fun row0 : list R => nth j row0 0) K)), (nth j k0 0).
    intros s y. ring.
Qed.

Lemma np_dot_mm_diag (d : list R) (K : list (list R)) (c : nat) :
  has_shape K (List.length d) c -> (0 < List.length d)%nat ->
  np_dot_mm (np_diag d) K = Ok (zip_with (fun row x => map (Rmult x) row) K d).
Proof.
  intros HK Hd.
  assert (Hs : has_shape (np_diag d) (List.length d) (nrows K)).
  { unfold nrows. rewrite (has_shape_nrows _ _ _ HK). apply np_diag_shape. }
  rewrite (np_dot_mm_ok _ _ _ Hs). f_equal.
  unfold transpose. rewrite (has_shape_ncols _ _ _ HK Hd).
  rewrite <- (diag_rows d K c HK). apply map_ext. intros row. now rewrite map_map.
Qed.

(** The two forms of the update of [u], on real vectors. *)
Lemma update_forms (vr : list R) (ar : list R) (Kr : list (list R)) :
  Forall (fun x => 0 < x) ar -> List.length Kr = List.length ar ->
  Forall (fun s => s <> 0) (map (fun row => dot1 row vr) Kr) ->
  Forall (fun s => s <> 0)
    (map (fun row => dot1 row vr)
       (zip_with (fun row x => map (Rmult x) row) Kr (map (Rdiv 1) ar)))
  /\ zip_with Rdiv ar (map (fun row => dot1 row vr) Kr)
     = map (Rdiv 1)
         (map (fun row => dot1 row vr)
            (zip_with (fun row x => map (Rmult x) row) Kr (map (Rdiv 1) ar))).
Proof.
  intros Ha; revert Kr; induction Ha as [|x ar Hx Ha IH]; intros [|row Kr] Hl Hs;
    simpl in *; try discriminate; try (split; [constructor | reflexivity]).
  inversion Hs as [|? ? Hs0 Hs']; subst.
  destruct (IH Kr) as [IH1 IH2]; [lia | exact Hs' |].
  rewrite Rdot1_scal. set (s := dot1 row vr) in *. clearbody s.
  split.
  - constructor; [|exact IH1]. unfold Rdiv. rewrite Rmult_1_l.
    apply Rmult_integral_contrapositive_currified; [|exact Hs0].
    apply Rinv_neq_0_compat. lra.
  - rewrite IH2. f_equal. field. split; lra.
Qed.

End RealAlgebra.

Section Refinement.

Import XReal.
Local Open Scope R_scope.

Lemma positive_lift (x : list xreal) :
  Forall positive x -> exists xr, x = lift xr /\ Forall (fun r => 0 < r) xr.
Proof.
  induction 1 as [|e x (r & -> & Hr) _ (xr & -> & Hxr)].
  - exists []. split; [reflexivity | constructor].
  - exists (r :: xr). split; [reflexivity | now constructor].
Qed.



End Refinement.

(** *** Transposition *)

Section Transposition.

Context {F : Type} {FO : Float64 F}.

Local Abbreviation vec := (list F).
Local Abbreviation mat := (list (list F)).

Lemma nth_column (i j : nat) (m : mat) :
  nth i (column j m) (of_int 0) = nth j (nth i m []) (of_int 0).
Proof.
  unfold column.
  replace (of_int 0) with ((fun row : vec => nth j row (of_int 0)) []) at 1
    by (destruct j; reflexivity).
  apply (map_nth (fun row => nth j row (of_int 0))).
Qed.

Lemma nth_zip_with (op : F -> F -> F) (x y : vec) (i : nat) (d : F) :
  (i < List.length x)%nat -> (i < List.length y)%nat ->
  nth i (zip_with op x y) d = op (nth i x d) (nth i y d).
Proof.
  revert x y; induction i as [|i IH]; intros [|a x] [|b y] Hx Hy; simpl in *;
    try lia; auto. apply IH; lia.
Qed.

Lemma nth_zip_with_rows {A : Type} (f : vec -> A -> vec) (m : mat) (w : list A)
    (i : nat) (d : A) :
  (i < List.length m)%nat -> (i < List.length w)%nat ->
  nth i (zip_with f m w) [] = f (nth i m []) (nth i w d).
Proof.
  revert m w; induction i as [|i IH]; intros [|a x] [|b y] Hx Hy; simpl in *;
    try lia; auto. apply IH; lia.
Qed.

Lemma nth_seq_map {A : Type} (f : nat -> A) (n i : nat) (d : A) :
  (i < n)%nat -> nth i (map f (seq 0 n)) d = f i.
Proof.
  intros Hi. rewrite (nth_indep _ d (f 0%nat)) by (now rewrite length_map, length_seq).
  rewrite (map_nth f). now rewrite seq_nth.
Qed.

Lemma has_shape_nth (m : mat) (r c i : nat) :
  has_shape m r c -> (i < r)%nat -> List.length (nth i m []) = c.
Proof.
  intros [Hl Hr] Hi. rewrite Forall_forall in Hr. apply Hr. apply nth_In. lia.
Qed.

(** Scaling the rows through the transpose, as [projR] does:
    [np.multiply(m.T,w).T] scales row [i] of [m] by [w[i]]. *)
Lemma transpose_scale (op : F -> F -> F) (m : mat) (w : vec) (r c : nat) :
  has_shape m r c -> (0 < r)%nat -> (0 < c)%nat -> List.length w = r ->
  transpose (map (fun col => zip_with op col w) (transpose m))
  = zip_with (fun row wi => map (fun e => op e wi) row) m w.
Proof.
  intros Hm Hr Hc Hw.
  pose proof (has_shape_nrows _ _ _ Hm) as Hl.
  pose proof (has_shape_ncols _ _ _ Hm Hr) as Hnc.
  set (T := map (fun col => zip_with op col w) (transpose m)).
  assert (HT : has_shape T c r).
  { unfold T. rewrite <- Hnc. apply map_rows_shape with (c := r).
    - intros row Hrow. rewrite zip_with_length; congruence.
    - rewrite <- Hl. apply transpose_shape. }
  unfold transpose at 1. rewrite (has_shape_ncols _ _ _ HT Hc).
  apply nth_ext with (d := []) (d' := []).
  - rewrite length_map, length_seq, zip_with_length; congruence.
  - intros i Hi. rewrite length_map, length_seq in Hi.
    rewrite (nth_seq_map (fun j => column j T)) by exact Hi.
    rewrite (nth_zip_with_rows _ m w i (of_int 0)) by lia.
    cbv beta. rewrite <- (map_nth_seq (nth i m []) (of_int 0)) at 1.
    rewrite (has_shape_nth m r c i Hm Hi).
    unfold column at 1. unfold T, transpose. rewrite Hnc, !map_map.
    apply map_ext_in. intros j Hj. apply in_seq in Hj.
    rewrite nth_zip_with.
    + now rewrite nth_column.
    + unfold column. rewrite length_map. lia.
    + lia.
Qed.

End Transposition.
(** *** The projections on real matrices *)

Section RealProjections.

Import RealArith.
Local Open Scope R_scope.

Let eps : R := / 10000000000.

Lemma eps_pos : 0 < eps.
Proof. unfold eps. apply Rinv_0_lt_compat. lra. Qed.

(** The row sums of the rows of [g] scaled by [p/max(rowsum,eps)]. *)
Lemma scaled_row_sums (g : list (list R)) (pr : list R) :
  List.length pr = List.length g ->
  Forall (fun row => eps <= np_sum row) g ->
  map np_sum
    (zip_with (fun row w => map (fun e => e * w) row) g
       (zip_with Rdiv pr (map (fun s => Rmax s eps) (map np_sum g))))
  = pr.
Proof.
  intros Hl Hg; revert pr Hl; induction Hg as [|row g Hrow Hg IH]; intros [|p pr] Hl;
    simpl in *; try discriminate; try reflexivity.
  rewrite IH by lia. f_equal.
  rewrite Rsum_scal, Rmax_left by exact Hrow.
  pose proof eps_pos. field. lra.
Qed.

(** Column [j] of the rows of [g] multiplied entrywise by [w]. *)
Lemma column_scaled (g : list (list R)) (w : list R) (c j : nat) :
  Forall (fun row => List.length row = c) g -> List.length w = c -> (j < c)%nat ->
  column j (map (fun row => zip_with Rmult row w) g)
  = map (fun e => e * nth j w 0) (column j g).
Proof.
  intros Hg Hw Hj. unfold column. rewrite !map_map. apply map_ext_in.
  intros row Hrow. rewrite Forall_forall in Hg.
  change (of_int 0) with 0.
  apply (nth_zip_with Rmult row w j 0); rewrite ?(Hg row Hrow); lia.
Qed.

(** The column sums of the rows of [g] scaled by [q/max(colsum,eps)]. *)
Lemma scaled_column_sums (g : list (list R)) (qr : list R) (r c : nat) :
  has_shape g r c -> (0 < r)%nat -> List.length qr = c ->
  Forall (fun s => eps <= s) (np_sum_axis0 g) ->
  np_sum_axis0
    (map (fun row =>
            zip_with Rmult row
              (zip_with Rdiv qr (map (fun s => Rmax s eps) (np_sum_axis0 g)))) g)
  = qr.
Proof.
  intros Hg Hr Hq Hcs.
  pose proof (has_shape_ncols _ _ _ Hg Hr) as Hnc.
  set (d := map (fun s => Rmax s eps) (np_sum_axis0 g)).
  set (w := zip_with Rdiv qr d).
  assert (Hd : List.length d = c)
    by (unfold d; now rewrite length_map, np_sum_axis0_length).
  assert (Hw : List.length w = c) by (unfold w; rewrite zip_with_length; congruence).
  assert (Hs : has_shape (map (fun row => zip_with Rmult row w) g) r c).
  { apply map_rows_shape; [|exact Hg]. intros row Hrow.
    rewrite zip_with_length; congruence. }
  unfold np_sum_axis0 at 1. unfold transpose.
  rewrite (has_shape_ncols _ _ _ Hs Hr), map_map.
  rewrite <- (map_nth_seq qr 0) at 1. rewrite Hq.
  apply map_ext_in. intros j Hj. apply in_seq in Hj.
  rewrite (column_scaled g w c j) by (try apply Hg; auto; lia).
  rewrite Rsum_scal. unfold w. rewrite nth_zip_with by lia.
  assert (Hdj : nth j d 0 = np_sum (column j g)).
  { unfold d, np_sum_axis0, transpose in *. rewrite Hnc in *. rewrite !map_map in *.
    rewrite nth_seq_map by lia. apply Rmax_left.
    rewrite Forall_forall in Hcs. apply Hcs. apply in_map_iff.
    exists j. split; [reflexivity|]. apply in_seq. lia. }
  rewrite Hdj.
  assert (Hpos : eps <= np_sum (column j g)).
  { rewrite Forall_forall in Hcs. apply Hcs. unfold np_sum_axis0, transpose.
    rewrite Hnc, map_map. apply in_map_iff. exists j. split; [reflexivity|].
    apply in_seq. lia. }
  pose proof eps_pos. generalize dependent (np_sum (column j g)). intros s _ Hs0.
  change (fdiv (nth j qr 0) s) with (nth j qr 0 / s). field. lra.
Qed.

End RealProjections.
(** *** The projections in exact arithmetic *)

Section Projections.

Import XReal.
Local Open Scope R_scope.

Local Abbreviation Rfloat := RealArith.float64.

Lemma xmaximum_fin (a b : R) : xmaximum (Fin a) (Fin b) = Fin (Rmax a b).
Proof.
  unfold xmaximum, Rmax. simpl. unfold Rltb.
  destruct (Rlt_dec a b), (Rle_dec a b); f_equal; lra.
Qed.

Lemma projR_divisor_lift (g : list (list R)) :
  projR_divisor (liftm g) = lift (projR_divisor (FO := Rfloat) g).
Proof.
  unfold projR_divisor, np_sum_axis1, vmap, liftm, lift. rewrite !map_map.
  apply map_ext. intros row. fold (lift row). rewrite np_sum_lift. apply xmaximum_fin.
Qed.

Lemma np_sum_axis0_lift (g : list (list R)) :
  np_sum_axis0 (liftm g) = lift (np_sum_axis0 (FO := Rfloat) g).
Proof.
  unfold np_sum_axis0. rewrite transpose_lift. unfold liftm, lift. rewrite !map_map.
  apply map_ext. intros col. apply np_sum_lift.
Qed.

Lemma np_sum_axis1_lift (g : list (list R)) :
  np_sum_axis1 (liftm g) = lift (np_sum_axis1 (FO := Rfloat) g).
Proof.
  unfold np_sum_axis1, liftm, lift. rewrite !map_map.
  apply map_ext. intros row. apply np_sum_lift.
Qed.

Lemma projC_divisor_lift (g : list (list R)) :
  projC_divisor (liftm g) = lift (projC_divisor (FO := Rfloat) g).
Proof.
  unfold projC_divisor, vmap. rewrite np_sum_axis0_lift. unfold lift. rewrite !map_map.
  apply map_ext. intros s. apply xmaximum_fin.
Qed.

Lemma zip_scale_lift (g : list (list R)) (w : list R) :
  zip_with (fun row wi => map (fun e => xmul e wi) row) (liftm g) (lift w)
  = liftm (zip_with (fun row wi => map (fun e => e * wi) row) g w).
Proof.
  revert w; induction g as [|row g IH]; intros [|wi w]; simpl; try reflexivity.
  fold (liftm g) (lift w). rewrite IH. f_equal.
  unfold lift. rewrite !map_map. reflexivity.
Qed.

Lemma at_least_lift (x : R) (l : list R) :
  Forall (at_least x) (lift l) <-> Forall (fun y => x <= y) l.
Proof.
  unfold lift. rewrite Forall_map. split; intros H; (eapply Forall_impl; [| exact H]).
  - intros y (z & E & Hz). inversion E; subst. exact Hz.
  - intros y Hy. exists y. auto.
Qed.

Lemma Forall_finite_lift (l : list R) : Forall finite (lift l).
Proof. unfold lift. rewrite Forall_map. apply Forall_forall. intros y _. now exists y. Qed.

Lemma Forall_finite_liftm (m : list (list R)) : Forall (Forall finite) (liftm m).
Proof.
  unfold liftm. rewrite Forall_map. apply Forall_forall. intros row _.
  apply Forall_finite_lift.
Qed.

Lemma lift_inj (x y : list R) : lift x = lift y -> x = y.
Proof.
  revert y; induction x as [|a x IH]; intros [|b y] H; simpl in *;
    try discriminate; [reflexivity|].
  inversion H; subst. f_equal. now apply IH.
Qed.

Lemma max_divisor_bounds (l : list R) :
  Forall (fun y => / 10000000000 <= y) (map (fun s => Rmax s (/ 10000000000)) l).
Proof. rewrite Forall_map. apply Forall_forall. intros s _. apply Rmax_r. Qed.

Lemma bounds_nonzero (l : list R) :
  Forall (fun y => / 10000000000 <= y) l -> Forall (fun y => y <> 0) l.
Proof.
  intros H. eapply Forall_impl; [| exact H]. intros y Hy. cbv beta in *.
  assert (0 < / 10000000000) by (apply Rinv_0_lt_compat; lra). lra.
Qed.

(** C10: on a finite matrix [gamma] (of at least one row and one column)
    and finite targets [p], [q] of matching lengths, [projR] and [projC]
    return finite matrices of the shape of [gamma]; their divisors, the
    maximum of a row (column) sum and [1e-10], are at least [1e-10], so
    that nothing is divided by zero, even when a row or a column sums to
    zero; and when all the row (column) sums of [gamma] are at least
    [1e-10], the row sums of [projR(gamma,p)] are [p] and the column sums
    of [projC(gamma,q)] are [q] (in exact arithmetic). *)
Theorem projections_exact (gamma : list (list xreal)) (p q : list xreal) (r c : nat) :
  has_shape gamma r c -> (0 < r)%nat -> (0 < c)%nat ->
  Forall (Forall finite) gamma -> Forall finite p -> Forall finite q ->
  List.length p = r -> List.length q = c ->
  Forall (at_least (/ 10000000000)) (projR_divisor gamma)
  /\ Forall (at_least (/ 10000000000)) (projC_divisor gamma)
  /\ (exists PR,
        projR gamma p = Ok PR /\ has_shape PR r c /\ Forall (Forall finite) PR
        /\ (Forall (at_least (/ 10000000000)) (np_sum_axis1 gamma) ->
            np_sum_axis1 PR = p))
  /\ (exists PC,
        projC gamma q = Ok PC /\ has_shape PC r c /\ Forall (Forall finite) PC
        /\ (Forall (at_least (/ 10000000000)) (np_sum_axis0 gamma) ->
            np_sum_axis0 PC = q)).
Proof.
  intros Hs Hr Hc Hg Hp Hq Hpl Hql.
  destruct (finite_liftm gamma Hg) as (g & ->).
  destruct (finite_lift p Hp) as (pr & ->).
  destruct (finite_lift q Hq) as (qr & ->).
  rewrite lift_length in Hpl, Hql. apply liftm_shape in Hs.
  pose proof (has_shape_nrows _ _ _ Hs) as Hl.
  pose proof (has_shape_ncols _ _ _ Hs Hr) as Hnc.
  set (dR := projR_divisor (FO := Rfloat) g).
  set (dC := projC_divisor (FO := Rfloat) g).
  assert (HdR : Forall (fun y => / 10000000000 <= y) dR) by apply max_divisor_bounds.
  assert (HdC : Forall (fun y => / 10000000000 <= y) dC) by apply max_divisor_bounds.
  assert (HdRl : List.length dR = r)
    by (unfold dR, projR_divisor, vmap; now rewrite length_map, np_sum_axis1_length).
  assert (HdCl : List.length dC = c)
    by (unfold dC, projC_divisor, vmap; now rewrite length_map, np_sum_axis0_length).
  rewrite projR_divisor_lift, projC_divisor_lift. fold dR dC.
  split; [now apply at_least_lift|]. split; [now apply at_least_lift|]. split.
  - (* projR *)
    unfold projR. rewrite projR_divisor_lift. fold dR.
    rewrite broadcast2_same by (rewrite !lift_length; congruence). cbn [bind].
    change (zip_with fdiv (lift pr) (lift dR)) with (zip_with xdiv (lift pr) (lift dR)).
    rewrite (zip_with_xdiv_lift pr dR (bounds_nonzero dR HdR)).
    set (w := zip_with Rdiv pr dR).
    assert (Hw : List.length w = r) by (unfold w; rewrite zip_with_length; congruence).
    assert (Ht : has_shape (transpose (liftm g)) c (List.length (lift w))).
    { rewrite lift_length, Hw, <- Hnc, <- ncols_liftm.
      replace r with (nrows (liftm g)) by (unfold nrows, liftm; now rewrite length_map).
      apply transpose_shape. }
    rewrite (broadcast_mv_same fmul _ (lift w) c _ Ht eq_refl). cbn [bind].
    rewrite (transpose_scale fmul (liftm g) (lift w) r c);
      [| now apply liftm_shape | exact Hr | exact Hc | now rewrite lift_length].
    set (PR := zip_with (fun row wi => map (fun e => Rmult e wi) row) g w).
    assert (HPR : zip_with (fun row wi => map (fun e => fmul e wi) row) (liftm g) (lift w)
                  = liftm PR).
    { apply zip_scale_lift. }
    rewrite HPR. exists (liftm PR). split; [reflexivity|]. split; [|split].
    + apply liftm_shape. unfold PR. apply zip_with_rows_shape; auto.
      intros row e. apply length_map.
    + apply Forall_finite_liftm.
    + rewrite !np_sum_axis1_lift. intros Hsum. apply at_least_lift in Hsum.
      f_equal. unfold PR, w, dR, projR_divisor, vmap, np_sum_axis1 in *.
      apply scaled_row_sums; [congruence|].
      rewrite Forall_map in Hsum. exact Hsum.
  - (* projC *)
    unfold projC. rewrite projC_divisor_lift. fold dC.
    rewrite broadcast2_same by (rewrite !lift_length; congruence). cbn [bind].
    change (zip_with fdiv (lift qr) (lift dC)) with (zip_with xdiv (lift qr) (lift dC)).
    rewrite (zip_with_xdiv_lift qr dC (bounds_nonzero dC HdC)).
    set (w := zip_with Rdiv qr dC).
    assert (Hw : List.length w = c) by (unfold w; rewrite zip_with_length; congruence).
    assert (Hgl : has_shape (liftm g) r (List.length (lift w)))
      by (rewrite lift_length, Hw; now apply liftm_shape).
    rewrite (broadcast_mv_same fmul _ (lift w) r _ Hgl eq_refl).
    set (PC := map (fun row => zip_with Rmult row w) g).
    assert (HPC : map (fun row => zip_with fmul row (lift w)) (liftm g) = liftm PC).
    { unfold PC, liftm. rewrite !map_map. apply map_ext. intros row.
      apply zip_with_xmul_lift. }
    rewrite HPC. exists (liftm PC). split; [reflexivity|]. split; [|split].
    + apply liftm_shape. unfold PC. apply map_rows_shape; [|exact Hs].
      intros row Hrow. rewrite zip_with_length; congruence.
    + apply Forall_finite_liftm.
    + rewrite !np_sum_axis0_lift. intros Hsum. apply at_least_lift in Hsum.
      f_equal. unfold PC, w, dC, projC_divisor, vmap.
      apply (scaled_column_sums g qr r c); auto.
Qed.

End Projections.

(** ** Signs of the entries of the plans *)

(** *** Entrywise properties through the array operations *)

Section Entrywise.

Context {F : Type} {FO : Float64 F}.

Local Abbreviation vec := (list F).
Local Abbreviation mat := (list (list F)).

Variables P Q R : F -> Prop.

Lemma broadcast2_Forall (op : F -> F -> F) (x y z : vec) :
  (forall a b, P a -> Q b -> R (op a b)) ->
  Forall P x -> Forall Q y -> broadcast2 op x y = Ok z -> Forall R z.
Proof.
  intros Hop Hx Hy. unfold broadcast2.
  destruct (Nat.eqb (List.length x) (List.length y)).
  - intros [= <-]. eapply Forall_zip_with; eauto.
  - destruct x as [|x0 [|x1 x]].
    + destruct y as [|y0 [|y1 y]]; intros [= <-]. constructor.
    + intros [= <-]. inversion Hx as [|? ? Hx0 _]; subst.
      exact (Forall_map_impl Q R (op x0) y (fun b Hb => Hop x0 b Hx0 Hb) Hy).
    + destruct y as [|y0 [|y1 y]]; intros [= <-].
      inversion Hy as [|? ? Hy0 _]; subst.
      exact (Forall_map_impl P R (fun e => op e y0) (x0 :: x1 :: x)
               (fun a Ha => Hop a y0 Ha Hy0) Hx).
Qed.

Lemma mapM_Forall {A B : Type} (PA : A -> Prop) (PB : B -> Prop) (f : A -> result B)
    (l : list A) (l' : list B) :
  (forall a b, PA a -> f a = Ok b -> PB b) ->
  Forall PA l -> mapM f l = Ok l' -> Forall PB l'.
Proof.
  intros Hf Hl; revert l'; induction Hl as [|a l Ha Hl IH]; intros l' H; simpl in H.
  - inversion H; subst. constructor.
  - repeat inv_bind H. inversion H; subst. constructor; eauto.
Qed.

Lemma mapM2_Forall {A B C : Type} (PA : A -> Prop) (PB : B -> Prop) (PC : C -> Prop)
    (f : A -> B -> result C) (x : list A) (y : list B) (z : list C) :
  (forall a b c, PA a -> PB b -> f a b = Ok c -> PC c) ->
  Forall PA x -> Forall PB y -> mapM2 f x y = Ok z -> Forall PC z.
Proof.
  intros Hf Hx; revert y z; induction Hx as [|a x Ha Hx IH]; intros y z Hy H; simpl in H.
  - inversion H; subst. constructor.
  - destruct Hy as [|b y Hb Hy]; [inversion H; subst; constructor|].
    repeat inv_bind H. inversion H; subst. constructor; eauto.
Qed.

Lemma broadcast_mm_Forall (op : F -> F -> F) (A B C : mat) :
  (forall a b, P a -> Q b -> R (op a b)) ->
  Forall (Forall P) A -> Forall (Forall Q) B -> broadcast_mm op A B = Ok C ->
  Forall (Forall R) C.
Proof.
  intros Hop HA HB. unfold broadcast_mm.
  assert (Hrow : forall ra rb rc, Forall P ra -> Forall Q rb ->
            broadcast2 op ra rb = Ok rc -> Forall R rc)
    by (intros; eapply broadcast2_Forall; eauto).
  destruct (Nat.eqb (nrows A) (nrows B)).
  - apply (mapM2_Forall (Forall P) (Forall Q) (Forall R)); auto.
  - destruct A as [|ra [|ra' A]].
    + destruct B as [|rb [|rb' B]]; intros H; inversion H; subst. constructor.
    + inversion HA; subst.
      apply (mapM_Forall (Forall Q) (Forall R)); auto. intros; eapply Hrow; eauto.
    + destruct B as [|rb [|rb' B]]; try discriminate.
      inversion HB; subst.
      apply (mapM_Forall (Forall P) (Forall R)); auto. intros; eapply Hrow; eauto.
Qed.

Lemma mmap_Forall (f : F -> F) (m : mat) :
  (forall a, P a -> Q (f a)) -> Forall (Forall P) m -> Forall (Forall Q) (mmap f m).
Proof.
  intros Hf Hm. unfold mmap. eapply Forall_map_impl; [| exact Hm].
  intros row Hrow. eapply Forall_map_impl; eauto.
Qed.

Lemma reshape_col_Forall (n : nat) (x : vec) (m : mat) :
  Forall P x -> reshape_col n x = Ok m -> Forall (Forall P) m.
Proof.
  intros Hx. unfold reshape_col. destruct (Nat.eqb (List.length x) n); [|discriminate].
  intros H; inversion H; subst. eapply Forall_map_impl; [| exact Hx].
  intros e He. now constructor.
Qed.

Lemma reshape_row_Forall (n : nat) (x : vec) (m : mat) :
  Forall P x -> reshape_row n x = Ok m -> Forall (Forall P) m.
Proof.
  intros Hx. unfold reshape_row. destruct (Nat.eqb (List.length x) n); [|discriminate].
  intros H; inversion H; subst. now constructor.
Qed.

(** The columns of a matrix hold entries of the matrix. *)
Lemma transpose_Forall (m : mat) :
  is_matrix m -> Forall (Forall P) m -> Forall (Forall P) (transpose m).
Proof.
  intros Hm HP. unfold transpose. apply Forall_forall. intros col Hin.
  apply in_map_iff in Hin. destruct Hin as (j & <- & Hj). apply in_seq in Hj.
  unfold column. apply Forall_forall. intros e He. apply in_map_iff in He.
  destruct He as (row & <- & Hrow).
  rewrite Forall_forall in HP. specialize (HP row Hrow).
  rewrite Forall_forall in HP. apply HP. apply nth_In.
  unfold is_matrix in Hm. rewrite Forall_forall in Hm. rewrite (Hm row Hrow).
  unfold ncols in Hj. lia.
Qed.

End Entrywise.
(** *** Positive and finite values *)

Section Positivity.

Import XReal.
Local Open Scope R_scope.

Lemma positive_nonneg (x : xreal) : positive x -> nonneg x.
Proof. intros (r & -> & Hr). exists r. split; [reflexivity | lra]. Qed.


Lemma positive_mul (x y : xreal) : positive x -> positive y -> positive (xmul x y).
Proof.
  intros (a & -> & Ha) (b & -> & Hb). exists (a * b). split; [reflexivity|].
  now apply Rmult_lt_0_compat.
Qed.

Lemma nonneg_mul (x y : xreal) : nonneg x -> nonneg y -> nonneg (xmul x y).
Proof.
  intros (a & -> & Ha) (b & -> & Hb). exists (a * b). split; [reflexivity|].
  now apply Rmult_le_pos.
Qed.

Lemma positive_div (x y : xreal) : positive x -> positive y -> positive (xdiv x y).
Proof.
  intros (a & -> & Ha) (b & -> & Hb). exists (a / b). split.
  - apply xdiv_fin. lra.
  - now apply Rdiv_lt_0_compat.
Qed.

Lemma positive_one : positive (of_int 1).
Proof. exists 1. split; [reflexivity | lra]. Qed.

Lemma nonneg_zero : nonneg (of_int 0).
Proof. exists 0. split; [reflexivity | lra]. Qed.

Lemma finite_zero : finite (of_int 0).
Proof. now exists 0. Qed.

Lemma finite_add (x y : xreal) : finite x -> finite y -> finite (xadd x y).
Proof. intros (a & ->) (b & ->). now exists (a + b). Qed.

Lemma finite_sub (x y : xreal) : finite x -> finite y -> finite (xsub x y).
Proof. intros (a & ->) (b & ->). now exists (a + - b). Qed.

Lemma finite_mul (x y : xreal) : finite x -> finite y -> finite (xmul x y).
Proof. intros (a & ->) (b & ->). now exists (a * b). Qed.

Lemma finite_log (x : xreal) : positive x -> finite (xlog x).
Proof.
  intros (a & -> & Ha). exists (ln a). simpl. unfold Rltb.
  destruct (Rlt_dec 0 a); [reflexivity | contradiction].
Qed.

Lemma positive_exp (x : xreal) : finite x -> positive (xexp x).
Proof. intros (a & ->). exists (exp a). split; [reflexivity | apply exp_pos]. Qed.

Lemma finite_neg_div (x reg : xreal) (rr : R) :
  reg = Fin rr -> rr <> 0 -> finite x -> finite (xdiv (xneg x) reg).
Proof. intros -> Hr (a & ->). exists (- a / rr). now apply xdiv_fin. Qed.

(** A sum of positive terms, started from a nonnegative value. *)
Lemma fold_positive (l : list xreal) (a : R) :
  Forall positive l -> 0 <= a ->
  exists s, fold_left xadd l (Fin a) = Fin s /\ a <= s /\ (l <> [] -> a < s).
Proof.
  intros Hl; revert a; induction Hl as [|e l (r & -> & Hr) Hl IH]; intros a Ha; simpl.
  - exists a. repeat split; [lra | congruence].
  - destruct (IH (a + r)) as (s & -> & Hs & _); [lra|].
    exists s. repeat split; lra.
Qed.

Lemma fold_nonneg (l : list xreal) (a : R) :
  Forall nonneg l -> 0 <= a -> exists s, fold_left xadd l (Fin a) = Fin s /\ a <= s.
Proof.
  intros Hl; revert a; induction Hl as [|e l (r & -> & Hr) Hl IH]; intros a Ha; simpl.
  - exists a. split; [reflexivity | lra].
  - destruct (IH (a + r)) as (s & -> & Hs); [lra|]. exists s. split; [reflexivity | lra].
Qed.

Lemma dot1_positive (x y : list xreal) :
  Forall positive x -> Forall positive y ->
  List.length x = List.length y -> (0 < List.length x)%nat ->
  positive (dot1 x y).
Proof.
  intros Hx Hy Hl Hn. unfold dot1.
  destruct (fold_positive (zip_with fmul x y) 0) as (s & Hs & _ & Hpos); [| lra |].
  - eapply Forall_zip_with; [| exact Hx | exact Hy]. apply positive_mul.
  - exists s. split; [exact Hs|]. apply Hpos.
    destruct x, y; simpl in *; try lia; discriminate.
Qed.

Lemma dot1_nonneg (x y : list xreal) :
  Forall nonneg x -> Forall nonneg y -> nonneg (dot1 x y).
Proof.
  intros Hx Hy. unfold dot1.
  destruct (fold_nonneg (zip_with fmul x y) 0) as (s & Hs & Hs0); [| lra |].
  - eapply Forall_zip_with; [| exact Hx | exact Hy]. apply nonneg_mul.
  - exists s. auto.
Qed.

Lemma column_nonneg (j : nat) (m : list (list xreal)) :
  Forall (Forall nonneg) m -> Forall nonneg (column j m).
Proof.
  intros Hm. unfold column. eapply Forall_map_impl; [| exact Hm].
  intros row Hrow. destruct (Nat.lt_ge_cases j (List.length row)) as [Hj|Hj].
  - rewrite Forall_forall in Hrow. apply Hrow. now apply nth_In.
  - rewrite nth_overflow by exact Hj. apply nonneg_zero.
Qed.

Lemma np_dot_mm_nonneg (A B C : list (list xreal)) :
  Forall (Forall nonneg) A -> Forall (Forall nonneg) B -> np_dot_mm A B = Ok C ->
  Forall (Forall nonneg) C.
Proof.
  intros HA HB. unfold np_dot_mm. destruct (forallb _ A); [|discriminate].
  intros [= <-]. eapply Forall_map_impl; [| exact HA]. intros row Hrow.
  unfold transpose. rewrite map_map. apply Forall_forall. intros e He.
  apply in_map_iff in He. destruct He as (j & <- & _).
  apply dot1_nonneg; [exact Hrow | now apply column_nonneg].
Qed.

Lemma np_diag_nonneg (v : list xreal) : Forall nonneg v -> Forall (Forall nonneg) (np_diag v).
Proof.
  induction 1 as [|x v Hx Hv IH]; simpl; constructor.
  - constructor; [exact Hx|]. unfold np_zeros. apply Forall_forall.
    intros e He. apply repeat_spec in He. subst. apply nonneg_zero.
  - eapply Forall_map_impl; [| exact IH]. intros row Hrow.
    constructor; [apply nonneg_zero | exact Hrow].
Qed.

Lemma Forall_positive_nonneg (l : list xreal) : Forall positive l -> Forall nonneg l.
Proof. intros H. eapply Forall_impl; [| exact H]. apply positive_nonneg. Qed.

Lemma sinkhorn_plan_nonneg (K G : list (list xreal)) (u v : list xreal) :
  Forall (Forall positive) K -> Forall positive u -> Forall positive v ->
  sinkhorn_plan K u v = Ok G -> Forall (Forall nonneg) G.
Proof.
  intros HK Hu Hv H. unfold sinkhorn_plan in H.
  apply bind_Ok in H. destruct H as (KV & HKV & H).
  eapply np_dot_mm_nonneg; [| | exact H].
  - apply np_diag_nonneg. now apply Forall_positive_nonneg.
  - eapply np_dot_mm_nonneg; [| | exact HKV].
    + eapply Forall_impl; [| exact HK]. apply Forall_positive_nonneg.
    + apply np_diag_nonneg. now apply Forall_positive_nonneg.
Qed.

Lemma uniform_positive (n : nat) : Forall positive (uniform n).
Proof.
  destruct n as [|n]; [constructor|].
  unfold uniform, np_ones. apply Forall_forall. intros e He.
  apply in_map_iff in He. destruct He as (x & <- & Hx). apply repeat_spec in Hx. subst.
  apply positive_div; [apply positive_one|].
  exists (IZR (Z.of_nat (S n))). split; [reflexivity|]. apply IZR_lt. lia.
Qed.

Lemma gibbs_kernel_positive (M : list (list xreal)) (reg : xreal) (rr : R) :
  reg = Fin rr -> rr <> 0 -> Forall (Forall finite) M ->
  Forall (Forall positive) (gibbs_kernel M reg).
Proof.
  intros Hreg Hrr HM. unfold gibbs_kernel.
  apply (mmap_Forall finite positive); [| exact HM].
  intros a Ha. apply positive_exp. eapply finite_neg_div; eauto.
Qed.

(** The product of a positive matrix and a positive vector. *)
Lemma np_dot_mv_positive (A : list (list xreal)) (x y : list xreal) (r c : nat) :
  has_shape A r c -> (0 < c)%nat -> List.length x = c ->
  Forall (Forall positive) A -> Forall positive x ->
  np_dot_mv A x = Ok y -> Forall positive y.
Proof.
  intros [_ HA] Hc Hx HP Hxp. unfold np_dot_mv. destruct (forallb _ A); [|discriminate].
  intros [= <-]. apply Forall_forall. intros e He. apply in_map_iff in He.
  destruct He as (row & <- & Hrow).
  rewrite Forall_forall in HA, HP.
  apply dot1_positive; auto; rewrite (HA row Hrow); lia.
Qed.

End Positivity.
(** *** The plain solver on positive data *)

Section PlainPositive.

Import XReal.
Local Open Scope R_scope.

Lemma default_marginal_id {F : Type} {FO : Float64 F} (x : list F) (n : nat) :
  (0 < List.length x)%nat -> default_marginal x n = x.
Proof.
  intros H. unfold default_marginal.
  destruct (Nat.eqb (List.length x) 0) eqn:E; [|reflexivity].
  apply Nat.eqb_eq in E. lia.
Qed.

Lemma has_shape_is_matrix {F : Type} (m : list (list F)) (r c : nat) :
  has_shape m r c -> (0 < r)%nat -> is_matrix m.
Proof.
  intros Hs Hr. unfold is_matrix. destruct Hs as [Hl Hrows].
  destruct m as [|row m]; [constructor|]. simpl.
  inversion Hrows as [|? ? Hrow _]; subst.
  eapply Forall_impl; [| exact Hrows]. intros row' Hrow'. cbv beta in *. congruence.
Qed.

Lemma liftm_positive (m : list (list xreal)) :
  Forall (Forall positive) m ->
  exists mr, m = liftm mr /\ Forall (Forall (fun x => 0 < x)) mr.
Proof.
  induction 1 as [|row m Hrow _ (mr & -> & Hmr)].
  - exists []. split; [reflexivity | constructor].
  - destruct (positive_lift row Hrow) as (rr & -> & Hrr).
    exists (rr :: mr). split; [reflexivity | now constructor].
Qed.

Lemma scaled_rows_positive (ar : list R) (Kr : list (list R)) :
  Forall (fun x => 0 < x) ar -> Forall (Forall (fun x => 0 < x)) Kr ->
  Forall (Forall positive)
    (liftm (zip_with (fun row x => map (Rmult x) row) Kr (map (Rdiv 1) ar))).
Proof.
  intros Har; revert Kr; induction Har as [|x ar Hx Har IH]; intros [|row Kr] HKr;
    simpl; try constructor.
  - inversion HKr; subst. unfold lift. rewrite Forall_map, Forall_map.
    eapply Forall_impl; [| eassumption]. intros k Hk. cbv beta in *.
    exists (1 / x * k). split; [reflexivity|].
    apply Rmult_lt_0_compat; [|exact Hk]. apply Rdiv_lt_0_compat; lra.
  - inversion HKr; subst. now apply IH.
Qed.

(** The matrix [Kp = np.dot(np.diag(1/a),K)] of a positive [a] and [K]. *)
Lemma sinkhorn_Kp_positive (a : list xreal) (K Kp : list (list xreal)) (c : nat) :
  Forall positive a -> Forall (Forall positive) K -> has_shape K (List.length a) c ->
  np_dot_mm (np_diag (vmap (fdiv (of_int 1)) a)) K = Ok Kp ->
  Forall (Forall positive) Kp.
Proof.
  intros Ha HK Hs H.
  destruct (positive_lift a Ha) as (ar & -> & Har).
  destruct (liftm_positive K HK) as (Kr & -> & HKr).
  rewrite lift_length in Hs. apply liftm_shape in Hs.
  assert (Hnz : Forall (fun b => b <> 0) ar).
  { eapply Forall_impl; [| exact Har]. intros x Hx. cbv beta in *. lra. }
  unfold vmap in H. change (fdiv (of_int 1)) with (xdiv (Fin 1)) in H.
  rewrite (map_xdiv_lift 1 ar Hnz), np_diag_lift, np_dot_mm_lift in H.
  destruct ar as [|a0 ar].
  - destruct Kr; [|destruct Hs; discriminate]. simpl in H. inversion H; subst. constructor.
  - assert (Hs' : has_shape Kr (List.length (map (Rdiv 1) (a0 :: ar))) c)
      by now rewrite length_map.
    rewrite (np_dot_mm_diag _ Kr _ Hs') in H by (simpl; lia).
    cbn [result_map] in H. injection H as <-.
    exact (scaled_rows_positive (a0 :: ar) Kr Har HKr).
Qed.

Lemma sinkhorn_body_positive (b : list xreal) (K Kp : list (list xreal))
    (verbose log : bool) (st st' : sk_state xreal) (brk : bool) (r c : nat) :
  (0 < r)%nat -> (0 < c)%nat ->
  has_shape K r c -> has_shape Kp r c ->
  Forall positive b -> Forall (Forall positive) K -> Forall (Forall positive) Kp ->
  sk_shapes r c st -> sk_positive st -> sk_shapes r c st' ->
  sinkhorn_body b K Kp verbose log st = Ok (st', brk) ->
  sk_positive st'.
Proof.
  intros Hr Hc HK HKp Hb HKpos HKppos (Hu & Hv & _) (Hup & Hvp & Hprev) (_ & Hv' & _) H.
  unfold sinkhorn_body in H.
  apply bind_Ok in H. destruct H as (bad & _ & H). destruct bad.
  - destruct (Z.eqb (sk_cpt st) 0) eqn:E; simpl in H; inversion H; subst;
      unfold sk_positive; simpl.
    + auto.
    + apply Z.eqb_neq in E. destruct (Hprev E). auto.
  - apply bind_Ok in H. destruct H as (Ktu & HKtu & H).
    apply bind_Ok in H. destruct H as (v1 & Hv1 & H).
    apply bind_Ok in H. destruct H as (Kpv & HKpv & H).
    assert (HKtup : Forall positive Ktu).
    { eapply (np_dot_mv_positive (transpose K)); [| exact Hr | exact Hu | | exact Hup | exact HKtu].
      - replace r with (nrows K) by apply (has_shape_nrows _ _ _ HK).
        rewrite <- (has_shape_ncols _ _ _ HK Hr). apply transpose_shape.
      - apply transpose_Forall; [|exact HKpos]. apply (has_shape_is_matrix K r c HK Hr). }
    assert (Hv1p : Forall positive v1)
      by (eapply (broadcast2_Forall positive positive positive);
          [apply positive_div | exact Hb | exact HKtup | exact Hv1]).
    assert (Hst' : sk_v st' = v1 /\ sk_u st' = vmap (fdiv (of_int 1)) Kpv
                   /\ sk_uprev st' = sk_u st /\ sk_vprev st' = sk_v st).
    { destruct (Z.eqb (sk_cpt st mod 10) 0).
      - apply bind_Ok in H. destruct H as (transp & _ & H).
        apply bind_Ok in H. destruct H as (err & _ & H).
        inversion H; subst; simpl; auto.
      - inversion H; subst; simpl; auto. }
    destruct Hst' as (Ev & Eu & Eup & Evp).
    unfold sk_positive. rewrite Ev, Eu, Eup, Evp. repeat split; auto.
    unfold vmap. eapply Forall_map_impl;
      [intros e He; apply positive_div; [apply positive_one | exact He] |].
    eapply (np_dot_mv_positive Kp v1); [exact HKp | exact Hc | | exact HKppos | exact Hv1p | exact HKpv].
    now rewrite <- Ev.
Qed.

Lemma sinkhorn_positive (a b : list xreal) (M : list (list xreal)) (rr : R)
    (numItermax : Z) (stopThr : xreal) (verbose log : bool) (r c : nat) :
  has_shape M r c -> (0 < r)%nat -> (0 < c)%nat ->
  List.length a = r -> List.length b = c ->
  Forall positive a -> Forall positive b -> Forall (Forall finite) M -> rr <> 0 ->
  exists G lg out,
    sinkhorn a b M (Fin rr) numItermax stopThr verbose log = Ok (G, lg, out)
    /\ has_shape G r c /\ Forall (Forall nonneg) G.
Proof.
  intros HM Hr Hc Ha Hb Hap Hbp HMf Hrr.
  unfold sinkhorn, sinkhorn_loop.
  rewrite (default_marginal_id a) by lia. rewrite (default_marginal_id b) by lia.
  rewrite Ha, Hb.
  set (K := gibbs_kernel M (Fin rr)).
  assert (HK : has_shape K r c) by now apply gibbs_kernel_shape.
  assert (HKp : Forall (Forall positive) K)
    by (eapply gibbs_kernel_positive; eauto).
  destruct (sinkhorn_Kp_ok a K r c HK Ha) as (Kp & EKp & HKps). rewrite EKp. simpl.
  assert (HKpp : Forall (Forall positive) Kp).
  { eapply (sinkhorn_Kp_positive a K Kp c); eauto. now rewrite Ha. }
  destruct (while_total (fun s => sk_shapes r c s /\ sk_positive s)
              (fun s => Z.to_nat (numItermax - sk_cpt s))
              (sinkhorn_cond stopThr numItermax)
              (sinkhorn_body b K Kp verbose log))
    with (fuel := Z.to_nat numItermax) (s := sinkhorn_init r c K)
    as (st & -> & [Hsh Hpos] & _).
  - intros s [Hs Hp] Hcond.
    destruct (sinkhorn_body_ok b K Kp verbose log s r c Hr HK HKps Hb Hs)
      as (s' & brk & E & Hs' & Hcpt).
    exists s', brk. split; [exact E|]. split; [split; [exact Hs'|] |].
    + apply (sinkhorn_body_positive b K Kp verbose log s s' brk r c); auto.
    + intros ->. rewrite (Hcpt eq_refl).
      unfold sinkhorn_cond in Hcond. apply andb_true_iff in Hcond.
      destruct Hcond as [_ Hlt]. apply Z.ltb_lt in Hlt. lia.
  - intros s _ Hcond. unfold sinkhorn_cond in Hcond. apply andb_true_iff in Hcond.
    destruct Hcond as [_ Hlt]. apply Z.ltb_lt in Hlt. lia.
  - split; [apply sinkhorn_init_shapes|].
    unfold sk_positive, sinkhorn_init; simpl.
    repeat split; try apply uniform_positive; congruence.
  - unfold sinkhorn_init; simpl. lia.
  - simpl. destruct Hsh as (Hu & Hv & _). destruct Hpos as (Hup & Hvp & _).
    destruct (sinkhorn_plan_ok K (sk_u st) (sk_v st) r c HK Hu Hv) as (G & EG & HG).
    rewrite EG. simpl. eexists _, _, _. split; [reflexivity|]. split; [exact HG|].
    exact (sinkhorn_plan_nonneg K G (sk_u st) (sk_v st) HKp Hup Hvp EG).
Qed.

End PlainPositive.
(** *** The stabilized solver on positive data *)

Section StabilizedPositive.

Import XReal.
Local Open Scope R_scope.

Lemma absorb_finite (rr : R) (x y z : list xreal) :
  Forall finite x -> Forall positive y -> absorb (Fin rr) x y = Ok z -> Forall finite z.
Proof.
  intros Hx Hy H. unfold absorb in H.
  eapply (broadcast2_Forall finite finite finite); [| exact Hx | | exact H].
  - apply finite_add.
  - unfold vmap. rewrite Forall_map, Forall_map. eapply Forall_impl; [| exact Hy].
    intros e He. cbv beta. apply finite_mul; [now exists rr | now apply finite_log].
Qed.

Lemma log_kernel_finite (M L : list (list xreal)) (rr : R) (na nb : nat)
    (alpha beta : list xreal) :
  rr <> 0 -> Forall (Forall finite) M -> Forall finite alpha -> Forall finite beta ->
  log_kernel M (Fin rr) na nb alpha beta = Ok L -> Forall (Forall finite) L.
Proof.
  intros Hrr HM Ha Hb H. unfold log_kernel in H.
  apply bind_Ok in H. destruct H as (A & HA & H).
  apply bind_Ok in H. destruct H as (MA & HMA & H).
  apply bind_Ok in H. destruct H as (B & HB & H).
  apply bind_Ok in H. destruct H as (MAB & HMAB & H).
  injection H as <-.
  apply (mmap_Forall finite finite).
  - intros a Ha'. now apply (finite_neg_div a (Fin rr) rr).
  - eapply (broadcast_mm_Forall finite finite finite); [apply finite_sub | | | exact HMAB].
    + eapply (broadcast_mm_Forall finite finite finite);
        [apply finite_sub | exact HM | | exact HMA].
      exact (reshape_col_Forall finite na alpha A Ha HA).
    + exact (reshape_row_Forall finite nb beta B Hb HB).
Qed.

Lemma get_K_positive (M K : list (list xreal)) (rr : R) (na nb : nat)
    (alpha beta : list xreal) :
  rr <> 0 -> Forall (Forall finite) M -> Forall finite alpha -> Forall finite beta ->
  get_K M (Fin rr) na nb alpha beta = Ok K -> Forall (Forall positive) K.
Proof.
  intros Hrr HM Ha Hb H. unfold get_K in H.
  apply bind_Ok in H. destruct H as (L & HL & H). injection H as <-.
  apply (mmap_Forall finite positive); [apply positive_exp|].
  exact (log_kernel_finite M L rr na nb alpha beta Hrr HM Ha Hb HL).
Qed.

Lemma Forall_log_finite (x : list xreal) : Forall positive x -> Forall finite (map xlog x).
Proof.
  intros H. rewrite Forall_map. eapply Forall_impl; [| exact H]. apply finite_log.
Qed.

Lemma get_Gamma_positive (M G : list (list xreal)) (rr : R) (na nb : nat)
    (alpha beta u v : list xreal) :
  rr <> 0 -> Forall (Forall finite) M -> Forall finite alpha -> Forall finite beta ->
  Forall positive u -> Forall positive v ->
  get_Gamma M (Fin rr) na nb alpha beta u v = Ok G -> Forall (Forall positive) G.
Proof.
  intros Hrr HM Ha Hb Hu Hv H. unfold get_Gamma in H.
  apply bind_Ok in H. destruct H as (L & HL & H).
  apply bind_Ok in H. destruct H as (U & HU & H).
  apply bind_Ok in H. destruct H as (LU & HLU & H).
  apply bind_Ok in H. destruct H as (V & HV & H).
  apply bind_Ok in H. destruct H as (LUV & HLUV & H).
  injection H as <-.
  apply (mmap_Forall finite positive); [apply positive_exp|].
  eapply (broadcast_mm_Forall finite finite finite); [apply finite_add | | | exact HLUV].
  - eapply (broadcast_mm_Forall finite finite finite);
      [apply finite_add | | | exact HLU].
    + exact (log_kernel_finite M L rr na nb alpha beta Hrr HM Ha Hb HL).
    + apply (mmap_Forall positive finite); [apply finite_log|].
      exact (reshape_col_Forall positive na u U Hu HU).
  - apply (mmap_Forall positive finite); [apply finite_log|].
    exact (reshape_row_Forall positive nb v V Hv HV).
Qed.

Lemma stabilized_body_positive (a b : list xreal) (M : list (list xreal)) (rr : R)
    (r c : nat) (numItermax : Z) (tau stopThr : xreal) (verbose : bool)
    (print_period : Z) (log : bool) (st st' : stab_state xreal) (brk : bool) :
  (0 < r)%nat -> (0 < c)%nat -> rr <> 0 -> List.length b = c ->
  Forall (Forall finite) M -> Forall positive a -> Forall positive b ->
  stab_shapes r c st -> stab_positive st -> stab_shapes r c st' ->
  stabilized_body a b M (Fin rr) r c numItermax tau stopThr verbose print_period log st
  = Ok (st', brk) ->
  stab_positive st'.
Proof.
  intros Hr Hc Hrr Hbl HM Ha Hb (_ & _ & Hul & Hvl & _ & _) (Hal & Hbe & Hu & Hv & HK)
    (_ & _ & _ & Hvl' & HK' & _) H.
  unfold stabilized_body in H.
  apply bind_Ok in H. destruct H as (big & _ & H).
  apply bind_Ok in H. destruct H as ([[[[al be] u0] v0] K0] & Hif & H).
  assert (Hif' : Forall finite al /\ Forall finite be /\ Forall positive u0
                 /\ Forall positive v0 /\ Forall (Forall positive) K0
                 /\ List.length u0 = r).
  { destruct big.
    - apply bind_Ok in Hif. destruct Hif as (al' & Hal' & Hif).
      apply bind_Ok in Hif. destruct Hif as (be' & Hbe' & Hif).
      apply bind_Ok in Hif. destruct Hif as (K' & HK0 & Hif).
      injection Hif as <- <- <- <- <-.
      assert (Hfa : Forall finite al')
        by exact (absorb_finite rr _ _ _ Hal Hu Hal').
      assert (Hfb : Forall finite be')
        by exact (absorb_finite rr _ _ _ Hbe Hv Hbe').
      repeat split; auto; try apply uniform_positive; try apply uniform_length.
      exact (get_K_positive M K' rr r c al' be' Hrr HM Hfa Hfb HK0).
    - injection Hif as <- <- <- <- <-. repeat split; auto. }
  destruct Hif' as (Hal0 & Hbe0 & Hu0 & Hv0 & HK0 & Hu0l).
  apply bind_Ok in H. destruct H as (Ktu & HKtu & H).
  apply bind_Ok in H. destruct H as (v1 & Hv1 & H).
  apply bind_Ok in H. destruct H as (Kv & HKv & H).
  apply bind_Ok in H. destruct H as (u1 & Hu1 & H).
  apply bind_Ok in H. destruct H as ([] & _ & H).
  apply bind_Ok in H. destruct H as ([[[transp err] lg] out] & _ & H).
  apply bind_Ok in H. destruct H as (bad & _ & H).
  (* the fields of the final state *)
  assert (Hst' : st_alpha st' = al /\ st_beta st' = be /\ st_K st' = K0
                 /\ (st_u st' = u1 /\ st_v st' = v1 \/ st_u st' = u0 /\ st_v st' = v0)).
  { destruct bad; [destruct (negb (Z.eqb (st_cpt st) 0))|];
      injection H as <- _; simpl; auto 6. }
  destruct Hst' as (Eal & Ebe & EK & Euv).
  rewrite EK in HK'.
  assert (HKtup : Forall positive Ktu).
  { eapply (np_dot_mv_positive (transpose K0));
      [| exact Hr | exact Hu0l | | exact Hu0 | exact HKtu].
    - replace r with (nrows K0) by apply (has_shape_nrows _ _ _ HK').
      rewrite <- (has_shape_ncols _ _ _ HK' Hr). apply transpose_shape.
    - apply transpose_Forall; [|exact HK0]. apply (has_shape_is_matrix K0 r c HK' Hr). }
  assert (Hv1p : Forall positive v1)
    by (eapply (broadcast2_Forall positive positive positive);
        [apply positive_div | exact Hb | exact HKtup | exact Hv1]).
  assert (Hv1l : List.length v1 = c).
  { (* [v1] is [b/Ktu], of the length of [Ktu], the number of columns of [K0] *)
    unfold np_dot_mv in HKtu. destruct (forallb _ (transpose K0)); [|discriminate].
    injection HKtu as <-.
    assert (Hl : List.length (map (fun row => dot1 row u0) (transpose K0)) = c).
    { rewrite length_map, (has_shape_nrows _ _ _ (transpose_shape K0)).
      apply (has_shape_ncols _ _ _ HK' Hr). }
    rewrite broadcast2_same in Hv1 by congruence.
    injection Hv1 as <-. rewrite zip_with_length; congruence. }
  assert (HKvp : Forall positive Kv)
    by (eapply (np_dot_mv_positive K0 v1); eauto).
  assert (Hu1p : Forall positive u1)
    by (eapply (broadcast2_Forall positive positive positive);
        [apply positive_div | exact Ha | exact HKvp | exact Hu1]).
  unfold stab_positive. rewrite Eal, Ebe, EK.
  destruct Euv as [[-> ->] | [-> ->]]; auto 6.
Qed.

Lemma sinkhorn_stabilized_positive (a b : list xreal) (M : list (list xreal)) (rr : R)
    (numItermax : Z) (tau stopThr : xreal) (verbose : bool) (print_period : Z)
    (log : bool) (r c : nat) :
  has_shape M r c -> (0 < r)%nat -> (0 < c)%nat ->
  List.length a = r -> List.length b = c ->
  Forall positive a -> Forall positive b -> Forall (Forall finite) M -> rr <> 0 ->
  print_period <> 0%Z ->
  exists G lg out,
    sinkhorn_stabilized a b M (Fin rr) numItermax tau stopThr None verbose print_period log
    = Ok (G, lg, out)
    /\ has_shape G r c /\ Forall (Forall nonneg) G.
Proof.
  intros HM Hr Hc Ha Hb Hap Hbp HMf Hrr Hpp.
  pose proof (has_shape_nrows _ _ _ HM) as Hnr.
  pose proof (has_shape_ncols _ _ _ HM Hr) as Hnc.
  unfold sinkhorn_stabilized, stabilized_loop, stabilized_return.
  unfold nrows. rewrite Hnr, Hnc.
  rewrite (default_marginal_id a) by lia. rewrite (default_marginal_id b) by lia.
  rewrite Ha, Hb.
  assert (Hz : forall n, Forall finite (np_zeros n)).
  { intros n. unfold np_zeros. apply Forall_forall. intros e He.
    apply repeat_spec in He. subst. apply finite_zero. }
  assert (Hzl : forall n, List.length (np_zeros (F := xreal) n) = n)
    by (intros; apply repeat_length).
  destruct (get_K_ok M (Fin rr) r c (np_zeros r) (np_zeros c) HM (Hzl r) (Hzl c))
    as (K & EK & HK).
  rewrite EK. cbn [bind].
  assert (HKp : Forall (Forall positive) K)
    by exact (get_K_positive M K rr r c _ _ Hrr HMf (Hz r) (Hz c) EK).
  destruct (while_total (fun s => stab_shapes r c s /\ stab_positive s)
              (stab_measure numItermax) st_loop
              (stabilized_body a b M (Fin rr) r c numItermax tau stopThr verbose
                 print_period log))
    with (fuel := S (Z.to_nat numItermax))
         (s := StabState (np_zeros r) (np_zeros c) (uniform r) (uniform c)
                 (np_zeros r) (np_zeros c) K K (of_int 1) 0 true [] [])
    as (st & -> & [Hsh Hpos] & _).
  - intros s [Hs Hp] Hl.
    destruct (stabilized_body_ok a b M (Fin rr) r c numItermax tau stopThr verbose
                print_period log s Hr Hc HM Ha Hb Hpp Hs) as (s' & brk & E & Hs' & Hctl).
    exists s', brk. split; [exact E|]. split; [split; [exact Hs'|] |].
    + apply (stabilized_body_positive a b M rr r c numItermax tau stopThr verbose
               print_period log s s' brk); auto.
    + intros ->. destruct (Hctl eq_refl) as [Hcpt Hloop].
      unfold stab_measure. rewrite Hl.
      destruct (st_loop s'); [|lia].
      destruct (Hloop eq_refl) as [_ Hlt]. rewrite Hcpt. lia.
  - intros s _ Hl. unfold stab_measure. rewrite Hl. lia.
  - split.
    + unfold stab_shapes; simpl. rewrite !uniform_length, !Hzl.
      repeat split; auto; try apply HK. lia.
    + unfold stab_positive; simpl. repeat split; auto; apply uniform_positive.
  - unfold stab_measure; simpl. rewrite Z.sub_0_r. lia.
  - cbn [bind]. destruct Hsh as (Hal & Hbe & Hu & Hv & _).
    destruct Hpos as (Halp & Hbep & Hup & Hvp & _).
    destruct (get_Gamma_ok M (Fin rr) r c _ _ _ _ HM Hal Hbe Hu Hv) as (G & EG & HG).
    assert (HGp : Forall (Forall nonneg) G).
    { eapply Forall_impl; [apply Forall_positive_nonneg|].
      exact (get_Gamma_positive M G rr r c _ _ _ _ Hrr HMf Halp Hbep Hup Hvp EG). }
    destruct log.
    + unfold vmap. rewrite !broadcast2_same by (rewrite !length_map; congruence). simpl.
      destruct (absorb_ok (Fin rr) (st_alpha st) (st_u st) r Hal Hu) as (al & -> & _).
      destruct (absorb_ok (Fin rr) (st_beta st) (st_v st) c Hbe Hv) as (be & -> & _).
      simpl. rewrite EG. simpl. eexists _, _, _. split; [reflexivity|]. auto.
    + rewrite EG. simpl. eexists _, _, _. split; [reflexivity|]. auto.
Qed.

(** X28: in exact arithmetic, for marginals [a], [b] whose entries are all
    positive and finite, a cost matrix [M] of finite entries and of the
    matching shape, and a finite nonzero [reg], the plan returned by
    [sinkhorn] and the plan returned by [sinkhorn_stabilized] without warm
    start are matrices of finite nonnegative entries. *)
Theorem plans_nonnegative (a b : list xreal) (M : list (list xreal)) (rr : R)
    (numItermax : Z) (tau stopThr : xreal) (verbose : bool) (print_period : Z)
    (log : bool) (r c : nat) :
  has_shape M r c -> (0 < r)%nat -> (0 < c)%nat ->
  List.length a = r -> List.length b = c ->
  Forall positive a -> Forall positive b -> Forall (Forall finite) M -> rr <> 0 ->
  print_period <> 0%Z ->
  (exists G lg out,
     sinkhorn a b M (Fin rr) numItermax stopThr verbose log = Ok (G, lg, out)
     /\ has_shape G r c /\ Forall (Forall nonneg) G)
  /\ (exists G lg out,
        sinkhorn_stabilized a b M (Fin rr) numItermax tau stopThr None verbose
          print_period log = Ok (G, lg, out)
        /\ has_shape G r c /\ Forall (Forall nonneg) G).
Proof.
  intros. split.
  - now apply sinkhorn_positive.
  - now apply sinkhorn_stabilized_positive.
Qed.

End StabilizedPositive.

(** * Instances of the statements *)

(** ** On binary64 floats *)

Section Binary64Runs.

Import PrimFloat Binary64.
Local Open Scope float_scope.

(** The example of the docstring of [sinkhorn]: the model computes the
    documented plan [[0.36552929, 0.13447071], [0.13447071, 0.36552929]]
    to the digits shown. *)
Example sinkhorn_docstring :
  exists g00 g01 g10 g11 lg out,
    sinkhorn [0.5; 0.5] [0.5; 0.5] sample_M 1 1000 lit_1em9 false false
    = Ok ([[g00; g01]; [g10; g11]], lg, out)
    /\ (abs (g00 - 0.36552929) <? 1e-8) = true
    /\ (abs (g01 - 0.13447071) <? 1e-8) = true
    /\ (abs (g10 - 0.13447071) <? 1e-8) = true
    /\ (abs (g11 - 0.36552929) <? 1e-8) = true.
Proof.
  eexists _, _, _, _, _, _. split; [vm_compute; reflexivity|].
  repeat split; vm_compute; reflexivity.
Qed.

(** On floats the two forms of the update of [u] are rounded differently:
    with [a=[49]], [K=[[1]]], [v=[1]] they differ in the last place.  The
    equality of the two forms is a statement of exact arithmetic. *)
Example update_rounding :
  (Kp <- np_dot_mm (np_diag (vmap (fdiv (of_int 1)) [49])) [[1]] ;;
   Kpv <- np_dot_mv Kp [1] ;;
   Ok (vmap (fdiv (of_int 1)) Kpv)) = Ok [49.000000000000007]
  /\ (Kv <- np_dot_mv [[1]] [1] ;; broadcast2 fdiv [49] Kv) = Ok [49].
Proof. split; vm_compute; reflexivity. Qed.

(** [sinkhorn] on [a=[0]], [b=[1]], [M=[[0]]]: the second iteration finds
    [K.T u = 0], and the plan returned is the one of the vectors [u=[1]],
    [v=[1]] that the first iteration started from. *)
Lemma sinkhorn_numerical_failure_run :
  exists (u v : list float) (G : list (list float)),
    sinkhorn [0] [1] [[0]] 1 1000 lit_1em9 false true
    = Ok (G, Some (sk_log failure_state), sk_out failure_state ++ [Warning])
    /\ sinkhorn_plan (gibbs_kernel [[0]] 1) u v = Ok G
    /\ (1%nat = O -> u = uniform 1 /\ v = uniform 1)
    /\ (1%nat <> O ->
        exists st_prev,
          iterates (sinkhorn_cond lit_1em9 1000)
            (sinkhorn_body [1] (gibbs_kernel [[0]] 1) [[infinity]] false true)
            (sinkhorn_init 1 1 (gibbs_kernel [[0]] 1)) 0 st_prev
          /\ sinkhorn_body [1] (gibbs_kernel [[0]] 1) [[infinity]] false true st_prev
             = Ok (failure_state, false)
          /\ u = sk_u st_prev /\ v = sk_v st_prev).
Proof.
  refine (sinkhorn_numerical_failure [0] [1] [[0]] 1 1000 lit_1em9 false true
            [[infinity]] 1 failure_state _ _ _ _ _ _ _ _).
  - repeat constructor.
  - apply Nat.lt_0_1.
  - right; reflexivity.
  - right; reflexivity.
  - vm_compute; reflexivity.
  - eapply iterates_step; [apply iterates_start | vm_compute; reflexivity ..].
  - vm_compute; reflexivity.
  - vm_compute; reflexivity.
Defined.

(** [sinkhorn] on [a=b=[0,1]], [M=zeros((2,2))]: the first iteration leaves
    [u=[nan,1]] and the error NaN, the test of the loop fails, and the plan
    of these values is returned without a warning. *)
Lemma numerical_failure_escapes_guard_run :
  exists G : list (list float),
    sinkhorn [0; 1] [0; 1] [[0; 0]; [0; 0]] 1 1000 lit_1em9 false true
    = Ok (G, Some (sk_log unguarded_state), sk_out unguarded_state)
    /\ sinkhorn_plan (gibbs_kernel [[0; 0]; [0; 0]] 1) (sk_u unguarded_state)
         (sk_v unguarded_state) = Ok G
    /\ ~ In Warning (sk_out unguarded_state).
Proof.
  refine (numerical_failure_escapes_guard [0; 1] [0; 1] [[0; 0]; [0; 0]] 1 1000 lit_1em9
            false true [[infinity; infinity]; [1; 1]] 1 unguarded_state _ _ _ _ _ _ _ _).
  - repeat constructor.
  - apply Nat.lt_0_2.
  - right; reflexivity.
  - right; reflexivity.
  - vm_compute; reflexivity.
  - eapply iterates_step; [apply iterates_start | vm_compute; reflexivity ..].
  - vm_compute; reflexivity.
  - vm_compute; reflexivity.
Defined.

(** With [numItermax=1] the loop of [sinkhorn] on [a=[0]], [b=[1]],
    [M=[[0]]] is left after the iteration that made [u=[0]]: [K.T u] is
    zero, and the plan [[0]] of that [u] is returned without a warning. *)
Example sinkhorn_last_iteration_unchecked :
  sinkhorn [0] [1] [[0]] 1 1 lit_1em9 false true = Ok ([[0]], Some [1], [])
  /\ numerical_errors (gibbs_kernel [[0]] 1) [0] [1] = Ok true.
Proof. split; vm_compute; reflexivity. Qed.

(** C3, counterexample: [unmix] called with a prior [h0] of length 1 for a
    2x2 matrix [M0] and a dictionary [D] of 2 columns raises nothing: it
    runs its iteration, [h0] being broadcast, and returns a mixture. *)
Lemma unmix_accepts_mismatched_sizes :
  List.length [2] <> nrows [[0; 0]; [0; 0]]
  /\ List.length [2] <> ncols [[0.25; 0.25]]
  /\ unmix [1] [[0.25; 0.25]] [[0]] [[0; 0]; [0; 0]] [2] 1 1 0.5 1 0.001 false true
     = Ok ([0.5; 0.5], Some ([0x1.0f876ccdf6cd9p+1], 1%Z), []).
Proof.
  split; [vm_compute; discriminate|].
  split; [vm_compute; discriminate|].
  vm_compute; reflexivity.
Qed.

(** [barycenter] on two histograms with a single weight, and [unmix] with
    no iteration on data of sizes that do not match. *)
Lemma barycenter_asserts_weights_run :
  barycenter_init sample_A sample_M 1 (Some [1]) = Raise AssertionError
  /\ barycenter sample_A sample_M 1 (Some [1]) 0 0.001 false true = Raise AssertionError
  /\ ((0 <= 0)%Z ->
      unmix [1; 2; 3] [[0.25; 0.25]] [[0]] [[0; 0]; [0; 0]] [2; 5; 6; 7; 8] 1 1 0.5 0
        0.001 false true
      = Ok (np_sum_axis1 (gibbs_kernel [[0; 0]; [0; 0]] 1), Some ([], 0%Z), [])).
Proof.
  refine (barycenter_asserts_weights sample_A sample_M 1 [1] 0 0.001 false true
            [1; 2; 3] [[0.25; 0.25]] [[0]] [[0; 0]; [0; 0]] [2; 5; 6; 7; 8] 1 1 0.5 _).
  vm_compute. intros H. discriminate H.
Defined.

(** The first iteration of [barycenter] on the sample histograms brings the
    counter to 1 and computes the error. *)
Lemma barycenter_error_check_run :
  bs_cpt bary_state1 = (bs_cpt bary_state0 + 1)%Z
  /\ ((bs_cpt bary_state1 mod 10 = 1)%Z ->
      bs_err bary_state1 = np_sum (np_std_axis1 (bs_UKv bary_state1)))
  /\ ((bs_cpt bary_state1 mod 10 <> 1)%Z -> bs_err bary_state1 = bs_err bary_state0)
  /\ (fleb (bs_err bary_state1) 0.1 = true \/ (1000 <= bs_cpt bary_state1)%Z ->
      forall fuel,
        while fuel (barycenter_cond 0.1 1000)
          (barycenter_body sample_A (gibbs_kernel sample_M 1) [0.5; 0.5] false true)
          bary_state1 = Ok bary_state1)
  /\ false = false.
Proof.
  refine (barycenter_error_check (FL := Binary64Laws.float_laws)
            sample_A (gibbs_kernel sample_M 1) [0.5; 0.5] false true 0.1 1000
            bary_state0 bary_state1 false _).
  vm_compute; reflexivity.
Defined.

(** C6: the plan returned by [sinkhorn] is not always nonnegative.  The
    marginals [a = b = [0, 1]] are nonnegative and sum to 1 and the cost
    matrix of zeros is symmetric and nonnegative; the first iteration
    leaves a NaN in [u], which the test of numerical errors would find,
    but the loop is left before that test is reached, and the plan
    returned has a row of NaN.  [sinkhorn_stabilized] returns a
    nonnegative plan for the same data.  With the positive marginals
    [a = b = [1]] and the cost [[740]], [sinkhorn] returns the plan
    [[nan]]. *)
Theorem sinkhorn_returns_nan_plan :
  forallb (fun x => 0 <=? x) [0; 1] = true
  /\ np_sum [0; 1] = 1
  /\ transpose [[0; 0]; [0; 0]] = [[0; 0]; [0; 0]]
  /\ sinkhorn_loop [0; 1] [0; 1] [[0; 0]; [0; 0]] 1 1000 lit_1em9 false false
     = Ok {| sk_u := [nan; 1]; sk_v := [0; 1]; sk_uprev := [0.5; 0.5];
             sk_vprev := [0.5; 0.5]; sk_transp := [[nan; nan]; [0; 1]]; sk_err := nan;
             sk_cpt := 1; sk_log := []; sk_out := [] |}
  /\ numerical_errors (gibbs_kernel [[0; 0]; [0; 0]] 1) [nan; 1] [0; 1] = Ok true
  /\ sinkhorn [0; 1] [0; 1] [[0; 0]; [0; 0]] 1 1000 lit_1em9 false false
     = Ok ([[nan; nan]; [0; 1]], None, [])
  /\ (0 <=? nan) = false
  /\ sinkhorn_stabilized [0; 1] [0; 1] [[0; 0]; [0; 0]] 1 1000 1000 lit_1em9 None false
       20 false
     = Ok ([[0; 0]; [0; 1]], None, [])
  /\ forallb (fun x => 0 <? x) [1] = true
  /\ sinkhorn [1] [1] [[740]] 1 1000 lit_1em9 false false = Ok ([[nan]], None, []).
Proof. repeat split; vm_compute; reflexivity. Qed.

(** The log of the sample run of [sinkhorn_stabilized], and the inner call
    of [sinkhorn_epsilon_scaling] on the same data in the initial state of
    its loop. *)
Lemma log_potentials_not_threaded_run :
  (exists st1 lg1,
     stabilized_loop [0.5; 0.5] [0.5; 0.5] sample_M 1 1000 1000 lit_1em9 None false 20
       true = Ok st1
     /\ stabilized_log = Some lg1
     /\ absorb 1 (st_alpha st1) (st_u st1) = Ok (lg_alpha lg1)
     /\ absorb 1 (st_beta st1) (st_v st1) = Ok (lg_beta lg1)
     /\ lg_warmstart lg1 = (lg_alpha lg1, lg_beta lg1))
  /\ lookup "warmstart" (inner_keywords 100 1000 [0; 0] [0; 0]) = Some (VPair [0; 0] [0; 0])
  /\ lookup "log" (inner_keywords 100 1000 [0; 0] [0; 0]) = Some (VBool true)
  /\ bind_stabilized Reject (inner_keywords 100 1000 [0; 0] [0; 0]) = Raise SyntaxError
  /\ epsilon_body Reject [0.5; 0.5] [0.5; 0.5] sample_M 1 100 10000 100 1000 lit_1em9
       false 10 true (EpsState [0; 0] [0; 0] [] 1 0 true [] [] [])
     = Raise SyntaxError.
Proof.
  refine (log_potentials_not_threaded [0.5; 0.5] [0.5; 0.5] sample_M 1 1000 1000 lit_1em9
            None false 20 stabilized_G stabilized_log []
            [0.5; 0.5] [0.5; 0.5] sample_M 1 100 10000 100 1000 lit_1em9 false 10 true
            (EpsState [0; 0] [0; 0] [] 1 0 true [] [] []) _).
  vm_compute; reflexivity.
Defined.

End Binary64Runs.

(** ** In exact arithmetic *)

Section ExactRuns.

Import XReal.
Local Open Scope R_scope.

Lemma finite_Fin (x : R) : finite (Fin x).
Proof. exists x. reflexivity. Defined.

Lemma positive_Fin_1 : positive (Fin 1).
Proof. exists 1. split; [reflexivity | exact Rlt_0_1]. Defined.

(** The projections of the 1x1 matrix [[1]] on the targets [p=[2]] and
    [q=[3]]. *)
Lemma projections_exact_run :
  Forall (at_least (/ 10000000000)) (projR_divisor [[Fin 1]])
  /\ Forall (at_least (/ 10000000000)) (projC_divisor [[Fin 1]])
  /\ (exists PR,
        projR [[Fin 1]] [Fin 2] = Ok PR /\ has_shape PR 1 1 /\ Forall (Forall finite) PR
        /\ (Forall (at_least (/ 10000000000)) (np_sum_axis1 [[Fin 1]]) ->
            np_sum_axis1 PR = [Fin 2]))
  /\ (exists PC,
        projC [[Fin 1]] [Fin 3] = Ok PC /\ has_shape PC 1 1 /\ Forall (Forall finite) PC
        /\ (Forall (at_least (/ 10000000000)) (np_sum_axis0 [[Fin 1]]) ->
            np_sum_axis0 PC = [Fin 3])).
Proof.
  refine (projections_exact [[Fin 1]] [Fin 2] [Fin 3] 1 1 _ _ _ _ _ _ _ _).
  - split; [reflexivity | repeat constructor].
  - apply Nat.lt_0_1.
  - apply Nat.lt_0_1.
  - repeat constructor. exact (finite_Fin 1).
  - repeat constructor. exact (finite_Fin 2).
  - repeat constructor. exact (finite_Fin 3).
  - reflexivity.
  - reflexivity.
Defined.

(** The two solvers on the 1x1 problem [a=[1]], [b=[1]], [M=[[0]]],
    [reg=1]. *)
Lemma plans_nonnegative_run :
  (exists G lg out,
     sinkhorn [Fin 1] [Fin 1] [[Fin 0]] (Fin 1) 10 (Fin (/ 2)) false false
     = Ok (G, lg, out)
     /\ has_shape G 1 1 /\ Forall (Forall nonneg) G)
  /\ (exists G lg out,
        sinkhorn_stabilized [Fin 1] [Fin 1] [[Fin 0]] (Fin 1) 10 (Fin 1000) (Fin (/ 2))
          None false 10 false = Ok (G, lg, out)
        /\ has_shape G 1 1 /\ Forall (Forall nonneg) G).
Proof.
  refine (plans_nonnegative [Fin 1] [Fin 1] [[Fin 0]] 1 10 (Fin 1000) (Fin (/ 2))
            false 10 false 1 1 _ _ _ _ _ _ _ _ _ _).
  - split; [reflexivity | repeat constructor].
  - apply Nat.lt_0_1.
  - apply Nat.lt_0_1.
  - reflexivity.
  - reflexivity.
  - constructor; [exact positive_Fin_1 | constructor].
  - constructor; [exact positive_Fin_1 | constructor].
  - repeat constructor. exact (finite_Fin 0).
  - exact R1_neq_R0.
  - intros H. discriminate H.
Defined.

End ExactRuns.

(** * Further properties of the solvers *)

(** ** The two exits of a loop *)

(** A loop is left with its condition false, after steps that kept [I], or
    by a [break] out of a state of [I]. *)
Lemma while_exit {St : Type} (I J : St -> Prop) (cond : St -> bool)
    (body : St -> result (St * bool)) :
  (forall s s', I s -> cond s = true -> body s = Ok (s', false) -> I s') ->
  (forall s s', I s -> cond s = true -> body s = Ok (s', true) -> J s') ->
  forall fuel s s', I s -> while fuel cond body s = Ok s' ->
  (I s' /\ cond s' = false) \/ J s'.
Proof.
  intros Hstep Hbrk fuel; induction fuel as [|fuel IH]; intros s s' Hs H; simpl in H.
  - destruct (cond s) eqn:Hc; [discriminate |]. inversion H; subst. now left.
  - destruct (cond s) eqn:Hc; [| inversion H; subst; now left].
    destruct (body s) as [[s1 [|]]|e] eqn:Hb; try discriminate.
    + inversion H; subst. right. exact (Hbrk s s' Hs Hc Hb).
    + exact (IH s1 s' (Hstep s s1 Hs Hc Hb) H).
Qed.

(** ** The plain solver, for every arithmetic *)

Section PlainRuns.

Context {F : Type} {FO : Float64 F}.

Local Abbreviation vec := (list F).
Local Abbreviation mat := (list (list F)).

(** The state in which the loop of [sinkhorn] is left on a well-formed
    input. *)
Lemma sinkhorn_loop_ok (a b : vec) (M : mat) (reg : F) (numItermax : Z) (stopThr : F)
    (verbose log : bool) :
  is_matrix M -> (0 < nrows M)%nat ->
  a = [] \/ List.length a = nrows M ->
  b = [] \/ List.length b = ncols M ->
  exists st,
    sinkhorn_loop a b M reg numItermax stopThr verbose log = Ok st
    /\ sk_shapes (nrows M) (ncols M) st
    /\ (sk_cpt st <= Z.max 0 numItermax)%Z
    /\ List.length (sk_log st)
       = (if log then Z.to_nat ((sk_cpt st + 9) / 10) else O).
Proof.
  intros HM Hr Ha Hb. unfold sinkhorn_loop.
  apply (default_marginal_length a) in Ha. apply (default_marginal_length b) in Hb.
  rewrite Ha, Hb.
  set (a' := default_marginal a (nrows M)) in *.
  set (b' := default_marginal b (ncols M)) in *.
  set (K := gibbs_kernel M reg).
  assert (HK : has_shape K (nrows M) (ncols M))
    by (apply gibbs_kernel_shape; now apply is_matrix_shape).
  destruct (sinkhorn_Kp_ok a' K _ _ HK Ha) as (Kp & EKp & HKp). rewrite EKp. simpl.
  destruct (while_total
              (fun s => sk_shapes (nrows M) (ncols M) s
                        /\ (sk_cpt s <= Z.max 0 numItermax)%Z
                        /\ List.length (sk_log s)
                           = (if log then Z.to_nat ((sk_cpt s + 9) / 10) else O))
              (fun s => Z.to_nat (numItermax - sk_cpt s))
              (sinkhorn_cond stopThr numItermax)
              (sinkhorn_body b' K Kp verbose log))
    with (fuel := Z.to_nat numItermax) (s := sinkhorn_init (nrows M) (ncols M) K)
    as (st & E & HI & _).
  - intros s (Hs & Hle & Hlog) Hcond.
    unfold sinkhorn_cond in Hcond. apply andb_true_iff in Hcond.
    destruct Hcond as [_ Hlt]. apply Z.ltb_lt in Hlt.
    destruct (sinkhorn_body_ok b' K Kp verbose log s _ _ Hr HK HKp Hb Hs)
      as (s' & brk & Eb & Hs' & Hcpt).
    exists s', brk. split; [exact Eb|].
    destruct (sinkhorn_body_trace _ _ _ _ _ _ _ _ Eb) as [Ht Hf].
    assert (H0 : (0 <= sk_cpt s)%Z) by apply Hs.
    split; [| intros ->; rewrite (Hcpt eq_refl); lia].
    split; [exact Hs'|].
    destruct brk.
    + destruct (Ht eq_refl) as (-> & -> & _). auto.
    + destruct (Hf eq_refl) as (Ec & Hz & Hnz). rewrite Ec. split; [lia|].
      destruct (Z.eq_dec (sk_cpt s mod 10) 0) as [Em|Em].
      * destruct (Hz Em) as [-> _]. destruct log; [| exact Hlog].
        rewrite length_app, Hlog. simpl.
        pose proof (Z.div_mod (sk_cpt s) 10 ltac:(lia)) as Hd.
        replace ((sk_cpt s + 1 + 9) / 10)%Z with ((sk_cpt s + 9) / 10 + 1)%Z.
        -- apply Z.div_pos with (b := 10%Z) in H0 as H1; [| lia].
           assert (0 <= (sk_cpt s + 9) / 10)%Z by (apply Z.div_pos; lia). lia.
        -- rewrite Em in Hd.
           replace (sk_cpt s + 1 + 9)%Z with (sk_cpt s / 10 * 10 + 10)%Z by lia.
           replace (sk_cpt s + 9)%Z with (9 + sk_cpt s / 10 * 10)%Z at 1 by lia.
           rewrite Z.div_add by lia.
           replace (sk_cpt s / 10 * 10 + 10)%Z with (0 + (sk_cpt s / 10 + 1) * 10)%Z by lia.
           rewrite Z.div_add by lia. simpl. lia.
      * destruct (Hnz Em) as (-> & _ & _). rewrite Hlog. destruct log; [| reflexivity].
        f_equal.
        pose proof (Z.div_mod (sk_cpt s) 10 ltac:(lia)) as Hd.
        pose proof (Z.mod_pos_bound (sk_cpt s) 10 ltac:(lia)) as Hb10.
        replace (sk_cpt s + 9)%Z
          with ((sk_cpt s mod 10 - 1) + (sk_cpt s / 10 + 1) * 10)%Z by lia.
        replace (sk_cpt s + 1 + 9)%Z
          with (sk_cpt s mod 10 + (sk_cpt s / 10 + 1) * 10)%Z by lia.
        rewrite !Z.div_add by lia.
        rewrite (Z.div_small (sk_cpt s mod 10 - 1)) by lia.
        rewrite (Z.div_small (sk_cpt s mod 10)) by lia. reflexivity.
  - intros s _ Hcond. unfold sinkhorn_cond in Hcond. apply andb_true_iff in Hcond.
    destruct Hcond as [_ Hlt]. apply Z.ltb_lt in Hlt. lia.
  - split; [apply sinkhorn_init_shapes|]. unfold sinkhorn_init; simpl.
    split; [lia | now destruct log].
  - unfold sinkhorn_init; simpl. lia.
  - exists st. split; [exact E | exact HI].
Qed.

(** X1: [sinkhorn] raises nothing on a well-formed input, whatever the floats
    (infinities and NaN included): it returns a plan of the shape of [M]
    after at most [numItermax] iterations, and the error log, when asked
    for, holds one entry for each block of ten iterations started. *)
Theorem sinkhorn_returns_plan (a b : vec) (M : mat) (reg : F) (numItermax : Z)
    (stopThr : F) (verbose log : bool) :
  is_matrix M -> (0 < nrows M)%nat ->
  a = [] \/ List.length a = nrows M ->
  b = [] \/ List.length b = ncols M ->
  exists st G,
    sinkhorn_loop a b M reg numItermax stopThr verbose log = Ok st
    /\ sinkhorn a b M reg numItermax stopThr verbose log
       = Ok (G, (if log then Some (sk_log st) else None), sk_out st)
    /\ has_shape G (nrows M) (ncols M)
    /\ (0 <= sk_cpt st <= Z.max 0 numItermax)%Z
    /\ (log = true -> List.length (sk_log st) = Z.to_nat ((sk_cpt st + 9) / 10)).
Proof.
  intros HM Hr Ha Hb.
  destruct (sinkhorn_loop_ok a b M reg numItermax stopThr verbose log HM Hr Ha Hb)
    as (st & E & Hs & Hle & Hlog).
  assert (HK : has_shape (gibbs_kernel M reg) (nrows M) (ncols M))
    by (apply gibbs_kernel_shape; now apply is_matrix_shape).
  destruct Hs as (Hu & Hv & _ & H0).
  destruct (sinkhorn_plan_ok _ _ _ _ _ HK Hu Hv) as (G & EG & HG).
  exists st, G. split; [exact E|]. split.
  - unfold sinkhorn. rewrite E. simpl. rewrite EG. reflexivity.
  - split; [exact HG|]. split; [lia|]. intros ->. exact Hlog.
Qed.

(** X2: With [numItermax <= 0], or a threshold [stopThr] that the initial error
    1 does not exceed, [sinkhorn] runs no iteration: it returns the plan
    [diag(u) K diag(v)] of the uniform vectors, an empty log and prints
    nothing. *)
Theorem sinkhorn_no_iteration (a b : vec) (M : mat) (reg : F) (numItermax : Z)
    (stopThr : F) (verbose log : bool) :
  is_matrix M -> (0 < nrows M)%nat ->
  a = [] \/ List.length a = nrows M ->
  b = [] \/ List.length b = ncols M ->
  (numItermax <= 0)%Z \/ fltb stopThr (of_int 1) = false ->
  exists G,
    sinkhorn_plan (gibbs_kernel M reg) (uniform (nrows M)) (uniform (ncols M)) = Ok G
    /\ sinkhorn a b M reg numItermax stopThr verbose log
       = Ok (G, (if log then Some [] else None), []).
Proof.
  intros HM Hr Ha Hb Hstop.
  assert (HK : has_shape (gibbs_kernel M reg) (nrows M) (ncols M))
    by (apply gibbs_kernel_shape; now apply is_matrix_shape).
  destruct (sinkhorn_plan_ok (gibbs_kernel M reg) (uniform (nrows M)) (uniform (ncols M))
              _ _ HK (uniform_length _) (uniform_length _)) as (G & EG & _).
  exists G. split; [exact EG|].
  unfold sinkhorn, sinkhorn_loop.
  apply (default_marginal_length a) in Ha. apply (default_marginal_length b) in Hb.
  rewrite Ha, Hb.
  destruct (sinkhorn_Kp_ok (default_marginal a (nrows M)) _ _ _ HK Ha) as (Kp & -> & _).
  cbn [bind].
  assert (Hc : sinkhorn_cond stopThr numItermax
                 (sinkhorn_init (nrows M) (ncols M) (gibbs_kernel M reg)) = false).
  { unfold sinkhorn_cond, sinkhorn_init; simpl. destruct Hstop as [H|H].
    - apply andb_false_iff; right. now apply Z.ltb_ge.
    - now rewrite H. }
  assert (Hw : forall fuel body,
             while fuel (sinkhorn_cond stopThr numItermax) body
               (sinkhorn_init (nrows M) (ncols M) (gibbs_kernel M reg))
             = Ok (sinkhorn_init (nrows M) (ncols M) (gibbs_kernel M reg))).
  { intros fuel body. destruct fuel; simpl; now rewrite Hc. }
  rewrite Hw. cbn [bind sinkhorn_init sk_u sk_v sk_log sk_out]. rewrite EG. reflexivity.
Qed.

(** X3: The console of [sinkhorn]: the lines of the error checks, when
    [verbose] is set, then the warning, printed once and last when the loop
    is left on a numerical error.  Without [verbose] nothing else is
    printed. *)
Theorem sinkhorn_console (a b : vec) (M : mat) (reg : F) (numItermax : Z)
    (stopThr : F) (verbose log : bool) (G : mat) (lg : option (list F))
    (out : list (event F)) :
  sinkhorn a b M reg numItermax stopThr verbose log = Ok (G, lg, out) ->
  exists rows,
    (out = rows \/ out = rows ++ [Warning])
    /\ Forall (fun e => e <> Warning) rows
    /\ (verbose = false -> rows = []).
Proof.
  unfold sinkhorn, sinkhorn_loop. intros H.
  apply bind_Ok in H. destruct H as (st & Hst & H).
  apply bind_Ok in H. destruct H as (G' & _ & H). inversion H; subst; clear H.
  apply bind_Ok in Hst. destruct Hst as (Kp & _ & Hst).
  set (Q := fun rows : list (event F) =>
              Forall (fun e => e <> Warning) rows /\ (verbose = false -> rows = [])).
  assert (Hex : (Q (sk_out st) /\ sinkhorn_cond stopThr numItermax st = false)
                \/ exists rows, sk_out st = rows ++ [Warning] /\ Q rows);
    [ refine (while_exit
                (fun s : sk_state F => Q (sk_out s))
                (fun s : sk_state F => exists rows, sk_out s = rows ++ [Warning] /\ Q rows)
                _ _ _ _ _ _ _ _ Hst)
    | destruct Hex as [[HQ _] | (rows & E & HQ)] ].
  - intros s s' HQ _ Hb.
    destruct (sinkhorn_body_trace _ _ _ _ _ _ _ _ Hb) as [_ Hf].
    destruct (Hf eq_refl) as (_ & Hz & Hnz).
    destruct (Z.eq_dec (sk_cpt s mod 10) 0) as [Em|Em].
    + destruct (Hz Em) as [_ ->]. destruct HQ as [HQ1 HQ2]. split.
      * apply Forall_app. split; [exact HQ1|].
        unfold verbose_lines. destruct verbose; [| constructor].
        destruct (Z.eqb _ 0); simpl; repeat constructor; discriminate.
      * intros ->. rewrite (HQ2 eq_refl). reflexivity.
    + destruct (Hnz Em) as (_ & -> & _). exact HQ.
  - intros s s' HQ _ Hb.
    destruct (sinkhorn_body_trace _ _ _ _ _ _ _ _ Hb) as [Ht _].
    destruct (Ht eq_refl) as (_ & _ & ->). exists (sk_out s). split; [reflexivity | exact HQ].
  - unfold sinkhorn_init; simpl. split; [constructor | reflexivity].
  - exists (sk_out st). split; [now left | exact HQ].
  - exists rows. split; [now right | exact HQ].
Qed.

End PlainRuns.

(** ** The stabilized solver, for every arithmetic *)

Section StabilizedRuns.

Context {F : Type} {FO : Float64 F}.

Local Abbreviation vec := (list F).
Local Abbreviation mat := (list (list F)).

(** What an iteration of [sinkhorn_stabilized] does to the counter and the
    console. *)
Lemma stabilized_body_trace (a b : vec) (M : mat) (reg : F) (na nb : nat)
    (numItermax : Z) (tau stopThr : F) (verbose : bool) (print_period : Z) (log : bool)
    (st st' : stab_state F) (brk : bool) :
  stabilized_body a b M reg na nb numItermax tau stopThr verbose print_period log st
  = Ok (st', brk) ->
  print_period <> 0%Z
  /\ (brk = true ->
      st_cpt st' = st_cpt st /\ exists rows, st_out st' = rows ++ [Warning])
  /\ (brk = false -> st_cpt st' = (st_cpt st + 1)%Z).
Proof.
  unfold stabilized_body. intros H.
  apply bind_Ok in H. destruct H as (big & _ & H).
  apply bind_Ok in H. destruct H as ([[[[alpha beta] u] v] K] & _ & H).
  apply bind_Ok in H. destruct H as (Ktu & _ & H).
  apply bind_Ok in H. destruct H as (v1 & _ & H).
  apply bind_Ok in H. destruct H as (Kv & _ & H).
  apply bind_Ok in H. destruct H as (u1 & _ & H).
  apply bind_Ok in H. destruct H as ([] & Hpp & H).
  apply bind_Ok in H. destruct H as ([[[transp err] lg] out] & _ & H).
  apply bind_Ok in H. destruct H as (bad & _ & H).
  split.
  { intros ->. discriminate. }
  destruct bad.
  - destruct (negb (Z.eqb (st_cpt st) 0)); inversion H; subst; simpl;
      (split; [intros _; split; [reflexivity | now exists out] | discriminate]).
  - inversion H; subst; simpl. split; [discriminate | reflexivity].
Qed.

(** The iteration raises [ZeroDivisionError] on [print_period = 0], once
    the scalings are updated. *)
Lemma stabilized_body_zero_period (a b : vec) (M : mat) (reg : F) (r c : nat)
    (numItermax : Z) (tau stopThr : F) (verbose log : bool) (st : stab_state F) :
  (0 < r)%nat -> (0 < c)%nat -> has_shape M r c ->
  List.length a = r -> List.length b = c ->
  stab_shapes r c st ->
  stabilized_body a b M reg r c numItermax tau stopThr verbose 0 log st
  = Raise ZeroDivisionError.
Proof.
  intros Hr Hc HM Ha Hb (Hal & Hbe & Hu & Hv & HK & Hcpt).
  unfold stabilized_body.
  destruct (exceeds_ok tau (st_u st) (st_v st)) as (big & ->); try lia. simpl.
  assert (Habs : exists alpha beta u v K,
    (if big
     then alpha <- absorb reg (st_alpha st) (st_u st) ;;
          beta <- absorb reg (st_beta st) (st_v st) ;;
          K <- get_K M reg r c alpha beta ;;
          Ok (alpha, beta, uniform r, uniform c, K)
     else Ok (st_alpha st, st_beta st, st_u st, st_v st, st_K st))
    = Ok (alpha, beta, u, v, K)
    /\ List.length u = r /\ List.length v = c /\ has_shape K r c).
  { destruct big.
    - destruct (absorb_ok reg (st_alpha st) (st_u st) r Hal Hu) as (al & -> & Hal').
      destruct (absorb_ok reg (st_beta st) (st_v st) c Hbe Hv) as (be & -> & Hbe').
      simpl. destruct (get_K_ok M reg r c al be HM Hal' Hbe') as (K & -> & HK').
      simpl. exists al, be, (uniform r), (uniform c), K.
      rewrite !uniform_length. repeat split; auto; apply HK'.
    - exists (st_alpha st), (st_beta st), (st_u st), (st_v st), (st_K st).
      repeat split; auto; apply HK. }
  destruct Habs as (alpha & beta & u & v & K & -> & Hu' & Hv' & HK').
  simpl.
  assert (HKt : has_shape (transpose K) (ncols K) (List.length u)).
  { rewrite Hu', <- (has_shape_nrows _ _ _ HK'). apply transpose_shape. }
  rewrite (np_dot_mv_ok _ _ _ HKt). simpl.
  set (Ktu := map _ (transpose K)).
  assert (HKtu : List.length Ktu = c).
  { unfold Ktu. rewrite length_map, (has_shape_nrows _ _ _ (transpose_shape K)).
    apply (has_shape_ncols _ _ _ HK' Hr). }
  rewrite broadcast2_same by congruence. simpl.
  set (v1 := zip_with fdiv b Ktu).
  assert (Hv1 : List.length v1 = c) by (unfold v1; rewrite zip_with_length; congruence).
  assert (HKv : has_shape K r (List.length v1)) by now rewrite Hv1.
  rewrite (np_dot_mv_ok _ _ _ HKv). simpl.
  set (Kv := map _ K).
  assert (HKvl : List.length Kv = r)
    by (unfold Kv; rewrite length_map; apply (has_shape_nrows _ _ _ HK')).
  rewrite broadcast2_same by congruence. reflexivity.
Qed.

(** The initial potentials of the two stabilized solvers have the lengths
    of the marginals. *)
Lemma warmstart_lengths (warmstart : option (vec * vec)) (r c : nat) :
  (forall al be, warmstart = Some (al, be) -> List.length al = r /\ List.length be = c) ->
  exists al be,
    match warmstart with Some w => w | None => (np_zeros r, np_zeros c) end = (al, be)
    /\ List.length al = r /\ List.length be = c.
Proof.
  intros Hw. destruct warmstart as [[al be]|].
  - exists al, be. destruct (Hw al be eq_refl). auto.
  - exists (np_zeros r), (np_zeros c). unfold np_zeros. rewrite !repeat_length. auto.
Qed.

(** X7: [print_period=0] makes [sinkhorn_stabilized] raise [ZeroDivisionError]
    (at [cpt%print_period], in its first iteration) on every well-formed
    input. *)
Theorem stabilized_zero_print_period (a b : vec) (M : mat) (reg : F) (numItermax : Z)
    (tau stopThr : F) (warmstart : option (vec * vec)) (verbose log : bool) :
  is_matrix M -> (0 < nrows M)%nat -> (0 < ncols M)%nat ->
  a = [] \/ List.length a = nrows M ->
  b = [] \/ List.length b = ncols M ->
  (forall al be, warmstart = Some (al, be) ->
     List.length al = nrows M /\ List.length be = ncols M) ->
  sinkhorn_stabilized a b M reg numItermax tau stopThr warmstart verbose 0 log
  = Raise ZeroDivisionError.
Proof.
  intros HM Hr Hc Ha Hb Hw.
  set (r := nrows M) in *. set (c := ncols M) in *.
  assert (HMs : has_shape M r c) by now apply is_matrix_shape.
  unfold sinkhorn_stabilized, stabilized_loop. fold r c.
  rewrite (default_marginal_length a r Ha), (default_marginal_length b c Hb).
  destruct (warmstart_lengths warmstart r c Hw) as (al & be & -> & Hal & Hbe).
  destruct (get_K_ok M reg r c al be HMs Hal Hbe) as (K & -> & HK).
  cbn [bind while st_loop].
  rewrite stabilized_body_zero_period; auto using default_marginal_length.
  unfold stab_shapes; simpl. rewrite !uniform_length. intuition lia.
Qed.

(** X8: On a well-formed input [sinkhorn_stabilized] raises nothing: it returns
    a plan of the shape of [M].  Its loop runs at least once, even with
    [numItermax <= 0] (the counter is only zero at the end when the first
    iteration was left on a numerical error), and at most
    [max(0,numItermax)+1] times. *)
Theorem stabilized_iterations (a b : vec) (M : mat) (reg : F) (numItermax : Z)
    (tau stopThr : F) (warmstart : option (vec * vec)) (verbose : bool) (print_period : Z)
    (log : bool) :
  is_matrix M -> (0 < nrows M)%nat -> (0 < ncols M)%nat ->
  a = [] \/ List.length a = nrows M ->
  b = [] \/ List.length b = ncols M ->
  (forall al be, warmstart = Some (al, be) ->
     List.length al = nrows M /\ List.length be = ncols M) ->
  print_period <> 0%Z ->
  exists st G lgo,
    stabilized_loop a b M reg numItermax tau stopThr warmstart verbose print_period log
    = Ok st
    /\ sinkhorn_stabilized a b M reg numItermax tau stopThr warmstart verbose
         print_period log = Ok (G, lgo, st_out st)
    /\ has_shape G (nrows M) (ncols M)
    /\ (0 <= st_cpt st <= Z.max 0 numItermax + 1)%Z
    /\ (st_cpt st = 0%Z -> exists rows, st_out st = rows ++ [Warning]).
Proof.
  intros HM Hr Hc Ha Hb Hw Hpp.
  set (r := nrows M) in *. set (c := ncols M) in *.
  assert (HMs : has_shape M r c) by now apply is_matrix_shape.
  unfold sinkhorn_stabilized, stabilized_loop. fold r c.
  rewrite (default_marginal_length a r Ha), (default_marginal_length b c Hb).
  set (a' := default_marginal a r). set (b' := default_marginal b c).
  destruct (warmstart_lengths warmstart r c Hw) as (al & be & -> & Hal & Hbe).
  destruct (get_K_ok M reg r c al be HMs Hal Hbe) as (K & -> & HK). cbn [bind].
  set (body := stabilized_body a' b' M reg r c numItermax tau stopThr verbose
                 print_period log).
  set (ended := fun s : stab_state F => exists rows, st_out s = rows ++ [Warning]).
  destruct (while_total
              (fun s => stab_shapes r c s
                        /\ (st_cpt s <= Z.max 0 numItermax + 1)%Z
                        /\ (st_loop s = true -> (st_cpt s <= Z.max 0 numItermax)%Z)
                        /\ (st_loop s = false -> (1 <= st_cpt s)%Z \/ ended s))
              (stab_measure numItermax) st_loop body)
    with (fuel := S (Z.to_nat numItermax))
         (s := StabState al be (uniform r) (uniform c) (np_zeros r) (np_zeros c)
                 K K (of_int 1) 0 true [] [])
    as (st & Est & (Hs & Hle & _ & Hoff) & Hexit).
  - intros s (Hs & Hle & Hon & Hoff) Hl.
    destruct (stabilized_body_ok a' b' M reg r c numItermax tau stopThr verbose
                print_period log s Hr Hc HMs) as (s' & brk & E & Hs' & Hstep); auto.
    { now apply default_marginal_length. }
    { now apply default_marginal_length. }
    exists s', brk. split; [exact E|].
    destruct (stabilized_body_trace _ _ _ _ _ _ _ _ _ _ _ _ _ _ _ E) as (_ & Ht & Hf).
    assert (H0 : (0 <= st_cpt s)%Z) by apply Hs.
    specialize (Hon Hl).
    destruct brk.
    + destruct (Ht eq_refl) as (Ec & Hw'). split; [| discriminate].
      rewrite Ec. split; [exact Hs'|]. split; [lia|]. split; [intros _; lia|].
      intros _. right. exact Hw'.
    + destruct (Hstep eq_refl) as (Ec & Hl'). split.
      * rewrite Ec. split; [exact Hs'|]. split; [lia|]. split.
        -- intros Hl1. destruct (Hl' Hl1). lia.
        -- intros _. left. lia.
      * intros _. unfold stab_measure. rewrite Hl.
        destruct (st_loop s') eqn:El; [| lia].
        destruct (Hl' eq_refl). rewrite Ec. lia.
  - intros s _ Hl. unfold stab_measure. rewrite Hl. lia.
  - split.
    + unfold stab_shapes; simpl. rewrite !uniform_length. intuition lia.
    + simpl. repeat split; try lia.
  - unfold stab_measure; simpl. rewrite Z.sub_0_r. lia.
  - rewrite Est.
    destruct (stabilized_return_ok a b M reg log st HM Ha Hb Hs) as (G & lgo & EG & HG & _).
    exists st, G, lgo. split; [reflexivity|]. split; [exact EG|]. split; [exact HG|].
    assert (H0 : (0 <= st_cpt st)%Z) by apply Hs.
    split; [lia|]. intros Ez.
    destruct Hexit as [Hf | (s0 & _ & _ & Hb0)].
    + destruct (Hoff Hf) as [H1 | H1]; [lia | exact H1].
    + destruct (stabilized_body_trace _ _ _ _ _ _ _ _ _ _ _ _ _ _ _ Hb0) as (_ & Ht & _).
      apply (Ht eq_refl).
Qed.

End StabilizedRuns.

(** ** The schedule of the regularization, in exact arithmetic *)

Section Schedule.

Import XReal.
Local Open Scope R_scope.

(** X14: [get_reg] decreases from [epsilon0] at step 0 towards [reg], which it
    never passes: for finite [reg <= epsilon0] it stays between the two. *)
Theorem get_reg_bounds (e0 rg : R) (n : Z) :
  rg <= e0 -> (0 <= n)%Z ->
  exists x y,
    get_reg (Fin e0) (Fin rg) n = Fin x
    /\ get_reg (Fin e0) (Fin rg) (n + 1) = Fin y
    /\ rg <= y <= x /\ x <= e0
    /\ get_reg (Fin e0) (Fin rg) 0 = Fin e0.
Proof.
  intros Hle Hn. unfold get_reg. simpl.
  exists ((e0 - rg) * exp (IZR (- n)) + rg), ((e0 - rg) * exp (IZR (- (n + 1))) + rg).
  split; [reflexivity|]. split; [reflexivity|].
  assert (Hx : 0 < exp (IZR (- n))) by apply exp_pos.
  assert (Hy : 0 < exp (IZR (- (n + 1)))) by apply exp_pos.
  assert (Hyx : exp (IZR (- (n + 1))) <= exp (IZR (- n))).
  { left. apply exp_increasing. apply IZR_lt. lia. }
  assert (Hx1 : exp (IZR (- n)) <= 1).
  { rewrite <- exp_0. destruct (Z.eq_dec n 0) as [->|Hne].
    - simpl. right. reflexivity.
    - left. apply exp_increasing. apply IZR_lt. lia. }
  repeat split.
  - assert (0 <= (e0 - rg) * exp (IZR (- (n + 1)))) by (apply Rmult_le_pos; lra). lra.
  - apply Rplus_le_compat_r. apply Rmult_le_compat_l; lra.
  - assert ((e0 - rg) * exp (IZR (- n)) <= (e0 - rg) * 1)
      by (apply Rmult_le_compat_l; lra). lra.
  - f_equal. change (IZR (- 0)) with 0. rewrite exp_0. ring.
Qed.

End Schedule.

(** ** Geometric means and projections, for every arithmetic *)

Section ProjectionShapes.

Context {F : Type} {FO : Float64 F}.

Local Abbreviation vec := (list F).
Local Abbreviation mat := (list (list F)).

(** The transpose of the transpose. *)
Lemma transpose_involutive (m : mat) (r c : nat) :
  has_shape m r c -> (0 < r)%nat -> (0 < c)%nat -> transpose (transpose m) = m.
Proof.
  intros Hs Hr Hc.
  pose proof (has_shape_ncols _ _ _ Hs Hr) as Hnc.
  pose proof (has_shape_nrows _ _ _ Hs) as Hnr.
  pose proof (transpose_shape m) as Ht. rewrite Hnc in Ht. unfold nrows in Ht.
  rewrite Hnr in Ht.
  unfold transpose at 1. rewrite (has_shape_ncols _ _ _ Ht Hc).
  transitivity (map (fun i => nth i m []) (seq 0 r));
    [| rewrite <- Hnr; apply map_nth_seq].
  apply map_ext_in. intros i Hi. apply in_seq in Hi.
  unfold column at 1. unfold transpose. rewrite Hnc, map_map.
  transitivity (map (fun j => nth j (nth i m []) (of_int 0)) (seq 0 c)).
  - apply map_ext. intros j. apply nth_column.
  - rewrite <- (has_shape_nth m r c i Hs) by lia. apply map_nth_seq.
Qed.

Lemma geometricBar_ok (w : vec) (m : mat) (r c : nat) :
  has_shape m r c -> (0 < r)%nat -> List.length w = c ->
  exists g, geometricBar w m = Ok g /\ List.length g = r.
Proof.
  intros Hs Hr Hw. pose proof (has_shape_ncols _ _ _ Hs Hr) as Hnc.
  unfold geometricBar. rewrite Hnc, (proj2 (Nat.eqb_eq _ _) Hw). cbn [assert bind].
  assert (Hl : has_shape (mmap flog m) r (List.length w))
    by (rewrite Hw; now apply mmap_shape).
  rewrite (np_dot_mv_ok _ _ _ Hl). cbn [bind]. eexists; split; [reflexivity|].
  unfold vmap, mmap. rewrite !length_map. apply Hs.
Qed.

(** X15: [geometricBar] asserts that there is one weight for each column of
    the matrix, and returns one value for each row. *)
Theorem geometricBar_weights (w : vec) (m : mat) (r c : nat) :
  has_shape m r c -> (0 < r)%nat ->
  (List.length w <> c -> geometricBar w m = Raise AssertionError)
  /\ (List.length w = c -> exists g, geometricBar w m = Ok g /\ List.length g = r).
Proof.
  intros Hs Hr. split; intros Hw.
  - unfold geometricBar. rewrite (has_shape_ncols _ _ _ Hs Hr).
    apply Nat.eqb_neq in Hw. now rewrite Hw.
  - exact (geometricBar_ok w m r c Hs Hr Hw).
Qed.

(** X18: The two projections are each other's transpose:
    [projR(gamma,p) = projC(gamma.T,p).T] and
    [projC(gamma,q) = projR(gamma.T,q).T]. *)
Theorem projections_transposed (gamma : mat) (p q : vec) (r c : nat) :
  has_shape gamma r c -> (0 < r)%nat -> (0 < c)%nat -> List.length q = c ->
  projR gamma p = result_map transpose (projC (transpose gamma) p)
  /\ projC gamma q = result_map transpose (projR (transpose gamma) q).
Proof.
  intros Hs Hr Hc Hq.
  pose proof (transpose_involutive gamma r c Hs Hr Hc) as Hinv.
  split.
  - unfold projR, projC, projR_divisor, projC_divisor, np_sum_axis0, np_sum_axis1.
    rewrite Hinv.
    destruct (broadcast2 fdiv p _) as [w|e]; [| reflexivity]. cbn [bind].
    destruct (broadcast_mv fmul (transpose gamma) w) as [g|e]; reflexivity.
  - unfold projR, projC, projR_divisor, projC_divisor, np_sum_axis0, np_sum_axis1.
    rewrite Hinv.
    set (d := vmap _ (map np_sum (transpose gamma))).
    assert (Hd : List.length d = c).
    { unfold d, vmap. rewrite !length_map.
      rewrite (has_shape_nrows _ _ _ (transpose_shape gamma)).
      apply (has_shape_ncols _ _ _ Hs Hr). }
    rewrite broadcast2_same by congruence. cbn [bind].
    set (w := zip_with fdiv q d).
    assert (Hw : List.length w = c) by (unfold w; rewrite zip_with_length; congruence).
    rewrite (broadcast_mv_same fmul gamma w r c Hs Hw). cbn [bind result_map].
    f_equal. symmetry. apply (transpose_involutive _ r c); auto.
    apply map_rows_shape; [| exact Hs].
    intros row Hrow. rewrite zip_with_length; congruence.
Qed.

(** X19: A target vector whose length is neither the number of rows (columns)
    of [gamma] nor 1 makes [projR] ([projC]) raise [ValueError]: the
    division by the sums cannot be broadcast. *)
Theorem projections_size_mismatch (gamma : mat) (p q : vec) (r c : nat) :
  has_shape gamma r c -> (0 < r)%nat ->
  (List.length p <> r -> List.length p <> 1%nat -> r <> 1%nat ->
   projR gamma p = Raise ValueError)
  /\ (List.length q <> c -> List.length q <> 1%nat -> c <> 1%nat ->
      projC gamma q = Raise ValueError).
Proof.
  intros Hs Hr.
  assert (Hbad : forall (x y : vec),
             List.length x <> List.length y -> List.length x <> 1%nat ->
             List.length y <> 1%nat -> broadcast2 fdiv x y = Raise ValueError).
  { intros x y Hxy Hx Hy. unfold broadcast2.
    apply Nat.eqb_neq in Hxy. rewrite Hxy.
    destruct x as [|x0 [|x1 x]]; destruct y as [|y0 [|y1 y]]; simpl in *;
      try reflexivity; congruence. }
  split; intros Hl H1 Hn.
  - unfold projR. rewrite Hbad; [reflexivity | | exact H1 |];
      unfold projR_divisor, vmap; rewrite length_map, np_sum_axis1_length;
      unfold nrows; rewrite (has_shape_nrows _ _ _ Hs); congruence.
  - unfold projC. rewrite Hbad; [reflexivity | | exact H1 |];
      unfold projC_divisor, vmap; rewrite length_map, np_sum_axis0_length,
        (has_shape_ncols _ _ _ Hs Hr); congruence.
Qed.

End ProjectionShapes.

(** ** Geometric means, in exact arithmetic *)

Section RealMeans.

Import RealArith.
Local Open Scope R_scope.

Lemma Rdot1_repeat_r (l : list R) (k : R) :
  dot1 l (repeat k (List.length l)) = np_sum l * k.
Proof.
  induction l as [|x l IH].
  - unfold dot1, np_sum. simpl. ring.
  - simpl repeat. rewrite Rdot1_cons, Rsum_cons, IH. ring.
Qed.

Lemma Rdot1_repeat_l (k : R) (w : list R) :
  dot1 (repeat k (List.length w)) w = k * np_sum w.
Proof.
  induction w as [|x w IH].
  - unfold dot1, np_sum. simpl. ring.
  - simpl repeat. rewrite Rdot1_cons, Rsum_cons, IH. ring.
Qed.

Lemma Rsum_repeat (e : R) (n : nat) : np_sum (repeat e n) = INR n * e.
Proof.
  induction n as [|n IH].
  - unfold np_sum. simpl. ring.
  - simpl repeat. rewrite Rsum_cons, IH, S_INR. ring.
Qed.

Lemma Rmean_repeat (e : R) (n : nat) :
  (0 < n)%nat -> np_sum (repeat e n) / IZR (Z.of_nat n) = e.
Proof.
  intros Hn. rewrite Rsum_repeat, <- INR_IZR_INZ. field.
  apply not_0_INR. lia.
Qed.

End RealMeans.

Section Means.

Import XReal.
Local Open Scope R_scope.

Local Abbreviation Rfloat := RealArith.float64.

Lemma xlog_pos (x : R) : 0 < x -> xlog (Fin x) = Fin (ln x).
Proof.
  intros Hx. unfold xlog, Rltb. destruct (Rlt_dec 0 x); [reflexivity | contradiction].
Qed.

Lemma map_xlog_lift (l : list R) :
  Forall (fun x => 0 < x) l -> map xlog (lift l) = lift (map ln l).
Proof.
  induction 1 as [|x l Hx _ IH]; [reflexivity|].
  unfold lift in *. cbn [map]. now rewrite (xlog_pos x Hx), IH.
Qed.

Lemma mmap_xlog_lift (m : list (list R)) :
  Forall (Forall (fun x => 0 < x)) m ->
  mmap flog (liftm m) = liftm (map (map ln) m).
Proof.
  induction 1 as [|row m Hrow _ IH]; [reflexivity|].
  unfold mmap, liftm in *. cbn [map]. rewrite IH. f_equal.
  apply (map_xlog_lift row Hrow).
Qed.

Lemma lift_repeat (x : R) (n : nat) : lift (repeat x n) = repeat (Fin x) n.
Proof. unfold lift. apply map_repeat. Qed.

Lemma IZR_of_nat_nonzero (n : nat) : (0 < n)%nat -> IZR (Z.of_nat n) <> 0.
Proof. intros Hn. rewrite <- INR_IZR_INZ. apply not_0_INR. lia. Qed.

Lemma uniform_lift (n : nat) :
  (0 < n)%nat -> uniform (FO := float64) n = lift (repeat (1 / IZR (Z.of_nat n)) n).
Proof.
  intros Hn. unfold uniform, np_ones. rewrite map_repeat, lift_repeat. f_equal.
  apply xdiv_fin. now apply IZR_of_nat_nonzero.
Qed.

Lemma np_mean_lift (l : list R) :
  (0 < List.length l)%nat ->
  np_mean (FO := float64) (lift l) = Fin (np_sum (FO := Rfloat) l / IZR (Z.of_nat (List.length l))).
Proof.
  intros Hl. unfold np_mean. rewrite np_sum_lift, lift_length.
  apply xdiv_fin. now apply IZR_of_nat_nonzero.
Qed.

Lemma map_xexp_lift (l : list R) : map xexp (lift l) = lift (map exp l).
Proof. unfold lift. rewrite !map_map. reflexivity. Qed.

(** X16: With uniform weights the weighted geometric mean is the geometric
    mean: [geometricBar(np.ones(n)/n, X) = geometricMean(X)] for a matrix
    [X] of positive entries with [n > 0] columns. *)
Theorem geometricBar_uniform (m : list (list xreal)) (r c : nat) :
  has_shape m r c -> (0 < r)%nat -> (0 < c)%nat -> Forall (Forall positive) m ->
  geometricBar (uniform c) m = Ok (geometricMean m).
Proof.
  intros Hs Hr Hc Hpos.
  destruct (liftm_positive m Hpos) as (mr & -> & Hmr).
  apply liftm_shape in Hs.
  unfold geometricBar, geometricMean.
  rewrite ncols_liftm, (has_shape_ncols _ _ _ Hs Hr), uniform_length, Nat.eqb_refl.
  cbn [assert bind].
  rewrite (mmap_xlog_lift mr Hmr), (uniform_lift c Hc).
  set (L := map (map ln) mr).
  assert (HL : has_shape L r c).
  { unfold L. apply (map_rows_shape (F := R) (map ln) mr r c); [| exact Hs].
    intros row Hrow. now rewrite length_map. }
  rewrite np_dot_mv_lift.
  rewrite (np_dot_mv_ok (FO := Rfloat) L _ r)
    by (rewrite repeat_length; exact HL).
  cbn [result_map bind]. f_equal. unfold vmap, np_mean_axis1.
  f_equal. unfold liftm, lift. rewrite !map_map.
  apply map_ext_in. intros row Hin.
  assert (Hrow : List.length row = c).
  { destruct HL as [_ HL]. rewrite Forall_forall in HL. now apply HL. }
  change (map Fin row) with (lift row).
  rewrite np_mean_lift by lia. f_equal.
  pose proof (Rdot1_repeat_r row (1 / IZR (Z.of_nat c))) as Hd.
  rewrite Hrow in *. rewrite Hd. unfold Rdiv. ring.
Qed.

(** The standard deviation of a constant row is zero. *)
Lemma np_std_repeat (e : R) (c : nat) :
  (0 < c)%nat -> np_std (FO := float64) (repeat (Fin e) c) = Fin 0.
Proof.
  intros Hc. unfold np_std.
  assert (Hmean : forall z, np_mean (FO := float64) (repeat (Fin z) c) = Fin z).
  { intros z. rewrite <- lift_repeat, np_mean_lift by (rewrite repeat_length; exact Hc).
    rewrite repeat_length. f_equal. now apply Rmean_repeat. }
  rewrite Hmean. rewrite map_repeat. cbn [fabs fsub fmul float64 xsub xneg xadd xabs xmul].
  rewrite Hmean. cbn [fsqrt float64 xsqrt].
  replace (Rabs (e + - e) * Rabs (e + - e)) with 0
    by (replace (e + - e) with 0 by ring; rewrite Rabs_R0; ring).
  unfold Rleb. destruct (Rle_dec 0 0) as [_|H]; [| exfalso; apply H; lra].
  now rewrite sqrt_0.
Qed.

(** X17: A consensus is a fixed point: when all the columns of the matrix are
    the same positive vector [x], its weighted geometric mean, for finite
    weights that sum to 1, and its geometric mean are [x], and the error
    of [barycenter], the sum of the standard deviations of the rows, is
    zero. *)
Theorem consensus_fixed_point (x w : list xreal) (c : nat) :
  Forall positive x -> (0 < List.length x)%nat ->
  Forall finite w -> List.length w = c -> (0 < c)%nat -> np_sum w = Fin 1 ->
  geometricBar w (map (fun e => repeat e c) x) = Ok x
  /\ geometricMean (map (fun e => repeat e c) x) = x
  /\ barycenter_error (map (fun e => repeat e c) x) = Fin 0.
Proof.
  intros Hx Hlx Hw Hwl Hc Hsum.
  destruct (positive_lift x Hx) as (xr & -> & Hxr).
  destruct (finite_lift w Hw) as (wr & ->).
  rewrite lift_length in Hwl, Hlx. rewrite np_sum_lift in Hsum.
  assert (Hsum' : np_sum (FO := Rfloat) wr = 1) by now inversion Hsum.
  set (m := map (fun e => repeat e c) xr).
  assert (Em : map (fun e => repeat e c) (lift xr) = liftm m).
  { unfold m, liftm, lift. rewrite !map_map. apply map_ext. intros e.
    symmetry. apply lift_repeat. }
  assert (Hm : has_shape m (List.length xr) c).
  { unfold m. split; [now rewrite length_map|]. rewrite Forall_map.
    apply Forall_forall. intros e _. apply repeat_length. }
  assert (Hmpos : Forall (Forall (fun y => 0 < y)) m).
  { unfold m. rewrite Forall_map. eapply Forall_impl; [| exact Hxr].
    intros e He. cbv beta. apply Forall_forall. intros y Hy.
    apply repeat_spec in Hy. now subst. }
  assert (Hexp : map exp (map ln xr) = xr).
  { rewrite map_map. rewrite <- (map_id xr) at 2. apply map_ext_in. intros e He.
    rewrite Forall_forall in Hxr. apply exp_ln. now apply Hxr. }
  rewrite Em. split; [| split].
  - unfold geometricBar.
    rewrite ncols_liftm, (has_shape_ncols _ _ _ Hm Hlx), lift_length, Hwl, Nat.eqb_refl.
    cbn [assert bind]. rewrite (mmap_xlog_lift m Hmpos), np_dot_mv_lift.
    rewrite (np_dot_mv_ok (FO := Rfloat) (map (map ln) m) wr (List.length xr)).
    + cbn [result_map bind]. f_equal. unfold vmap.
      change (map fexp) with (map xexp). rewrite map_xexp_lift. f_equal.
      rewrite <- Hexp. f_equal. unfold m. rewrite !map_map.
      apply map_ext. intros e. rewrite map_repeat, <- Hwl, Rdot1_repeat_l, Hsum'.
      ring.
    + rewrite Hwl. apply (map_rows_shape (F := R) (map ln) m _ c); [| exact Hm].
      intros row Hrow. now rewrite length_map.
  - unfold geometricMean, vmap, np_mean_axis1.
    rewrite (mmap_xlog_lift m Hmpos).
    transitivity (lift (map exp (map ln xr))); [| now rewrite Hexp].
    change (map fexp) with (map xexp). unfold liftm, m, lift. rewrite !map_map.
    apply map_ext. intros e. rewrite map_repeat.
    change (map Fin (repeat (ln e) c)) with (lift (repeat (ln e) c)).
    rewrite np_mean_lift by (rewrite repeat_length; exact Hc).
    rewrite repeat_length, Rmean_repeat by exact Hc. reflexivity.
  - unfold barycenter_error, np_std_axis1, liftm, m. rewrite !map_map.
    assert (Hz : map (fun e => np_std (FO := float64) (lift (repeat e c))) xr
                 = lift (repeat 0 (List.length xr))).
    { rewrite lift_repeat. clear - Hc. induction xr as [|e xr IH]; [reflexivity|].
      cbn [map List.length repeat]. rewrite IH. f_equal. rewrite lift_repeat.
      now apply np_std_repeat. }
    rewrite Hz, np_sum_lift. f_equal. rewrite Rsum_repeat. ring.
Qed.

End Means.

(** ** The barycenter and unmixing solvers, for every arithmetic *)

Section BarycenterRuns.

Context {F : Type} {FO : Float64 F}.

Local Abbreviation vec := (list F).
Local Abbreviation mat := (list (list F)).

Lemma zip_mm_shape (op : F -> F -> F) (A B : mat) (r c : nat) :
  has_shape A r c -> has_shape B r c -> has_shape (zip_with (zip_with op) A B) r c.
Proof.
  revert B r. induction A as [|ra A IH]; intros B r [HlA HA] [HlB HB].
  - simpl in *. subst r. split; [reflexivity | constructor].
  - destruct B as [|rb B]; [simpl in *; lia|].
    simpl in HlA, HlB. inversion HA; subst. inversion HB; subst.
    destruct (IH B (List.length A)) as [Hl Hf]; [split; auto | split; auto; lia |].
    split; [simpl; now rewrite Hl|]. constructor; [| exact Hf].
    rewrite zip_with_length; congruence.
Qed.

Lemma broadcast_mm_ok (op : F -> F -> F) (A B : mat) (r c : nat) :
  has_shape A r c -> has_shape B r c ->
  exists C, broadcast_mm op A B = Ok C /\ has_shape C r c.
Proof.
  intros HA HB. rewrite (broadcast_mm_same op A B r c HA HB).
  eexists; split; [reflexivity|]. now apply zip_mm_shape.
Qed.

Lemma np_dot_mm_total (A B : mat) (r k c : nat) :
  has_shape A r k -> has_shape B k c -> (0 < k)%nat ->
  exists C, np_dot_mm A B = Ok C /\ has_shape C r c.
Proof.
  intros HA HB Hk.
  assert (HA' : has_shape A r (nrows B))
    by (unfold nrows; now rewrite (has_shape_nrows _ _ _ HB)).
  rewrite (np_dot_mm_ok _ _ _ HA'). eexists; split; [reflexivity|].
  rewrite <- (has_shape_ncols _ _ _ HB Hk). now apply np_dot_mm_shape.
Qed.

Lemma transpose_has_shape (m : mat) (r c : nat) :
  has_shape m r c -> (0 < r)%nat -> has_shape (transpose m) c r.
Proof.
  intros Hs Hr. pose proof (transpose_shape m) as Ht.
  rewrite (has_shape_ncols _ _ _ Hs Hr) in Ht. unfold nrows in Ht.
  now rewrite (has_shape_nrows _ _ _ Hs) in Ht.
Qed.

Lemma projC_ok (g : mat) (q : vec) (r c : nat) :
  has_shape g r c -> (0 < r)%nat -> List.length q = c ->
  exists PC, projC g q = Ok PC /\ has_shape PC r c.
Proof.
  intros Hs Hr Hq. unfold projC.
  assert (Hd : List.length (projC_divisor g) = c).
  { unfold projC_divisor, vmap. rewrite length_map, np_sum_axis0_length.
    apply (has_shape_ncols _ _ _ Hs Hr). }
  rewrite broadcast2_same by congruence. cbn [bind].
  set (w := zip_with fdiv q (projC_divisor g)).
  assert (Hw : List.length w = c) by (unfold w; rewrite zip_with_length; congruence).
  rewrite (broadcast_mv_same fmul g w r c Hs Hw). eexists; split; [reflexivity|].
  now apply zip_rows_shape.
Qed.

Lemma projR_ok (g : mat) (p : vec) (r c : nat) :
  has_shape g r c -> (0 < r)%nat -> (0 < c)%nat -> List.length p = r ->
  exists PR, projR g p = Ok PR /\ has_shape PR r c.
Proof.
  intros Hs Hr Hc Hp. unfold projR.
  assert (Hd : List.length (projR_divisor g) = r).
  { unfold projR_divisor, vmap. rewrite length_map, np_sum_axis1_length.
    apply (has_shape_nrows _ _ _ Hs). }
  rewrite broadcast2_same by congruence. cbn [bind].
  set (w := zip_with fdiv p (projR_divisor g)).
  assert (Hw : List.length w = r) by (unfold w; rewrite zip_with_length; congruence).
  rewrite (broadcast_mv_same fmul (transpose g) w c r (transpose_has_shape g r c Hs Hr) Hw).
  cbn [bind]. eexists; split; [reflexivity|].
  rewrite (transpose_scale fmul g w r c Hs Hr Hc Hw). now apply col_rows_shape.
Qed.

(** *** [barycenter] *)

(** X21: Omitting the weights of [barycenter] is passing the uniform weights
    [np.ones(n)/n], [n] the number of columns of [A]. *)
Theorem barycenter_default_weights (A M : mat) (reg : F) (numItermax : Z) (stopThr : F)
    (verbose log : bool) :
  barycenter A M reg None numItermax stopThr verbose log
  = barycenter A M reg (Some (uniform (ncols A))) numItermax stopThr verbose log.
Proof.
  unfold barycenter, barycenter_loop, barycenter_init, barycenter_weights.
  now rewrite uniform_length, Nat.eqb_refl.
Qed.

Lemma barycenter_init_ok (A M : mat) (reg : F) (weights : option vec) (d n : nat) :
  has_shape A d n -> has_shape M d d -> (0 < d)%nat -> (0 < n)%nat ->
  (forall w, weights = Some w -> List.length w = n) ->
  exists w st,
    barycenter_init A M reg weights = Ok (w, gibbs_kernel M reg, st)
    /\ List.length w = n /\ bary_shapes d n st
    /\ bs_cpt st = 0%Z /\ bs_log st = [] /\ bs_out st = [].
Proof.
  intros HA HM Hd Hn Hw. unfold barycenter_init.
  pose proof (has_shape_ncols _ _ _ HA Hd) as HncA.
  assert (Hwe : exists w, barycenter_weights A weights = Ok w /\ List.length w = n).
  { unfold barycenter_weights. destruct weights as [w|].
    - rewrite HncA, (Hw w eq_refl), Nat.eqb_refl. exists w. split; auto.
    - exists (uniform (ncols A)). rewrite uniform_length. auto. }
  destruct Hwe as (w & -> & Hwl). cbn [bind].
  set (K := gibbs_kernel M reg).
  assert (HK : has_shape K d d) by now apply gibbs_kernel_shape.
  assert (Hs0 : List.length (np_sum_axis0 K) = d)
    by (rewrite np_sum_axis0_length; apply (has_shape_ncols _ _ _ HK Hd)).
  rewrite (broadcast_mv_same fdiv (transpose A) _ n d (transpose_has_shape A d n HA Hd) Hs0).
  cbn [bind].
  set (AT := map _ (transpose A)).
  assert (HAT : has_shape AT n d)
    by (apply zip_rows_shape; [now apply transpose_has_shape | exact Hs0]).
  destruct (np_dot_mm_total K (transpose AT) d d n HK (transpose_has_shape AT n d HAT Hn) Hd)
    as (UKv & -> & HUKv). cbn [bind].
  assert (Hgm : List.length (geometricMean UKv) = d).
  { unfold geometricMean, vmap, np_mean_axis1, mmap. rewrite !length_map. apply HUKv. }
  rewrite (broadcast_vm_same fdiv _ (transpose UKv) n d
             (transpose_has_shape UKv d n HUKv Hd) Hgm).
  cbn [bind]. eexists _, _. split; [reflexivity|]. split; [exact Hwl|].
  split; [| auto]. unfold bary_shapes; simpl. split; [| split; [exact HUKv | lia]].
  apply transpose_has_shape; [| exact Hn].
  apply map_rows_shape; [| now apply transpose_has_shape].
  intros row Hrow. rewrite zip_with_length; congruence.
Qed.

Lemma barycenter_body_ok (A K : mat) (w : vec) (verbose log : bool) (st : bary_state F)
    (d n : nat) :
  has_shape A d n -> has_shape K d d -> (0 < d)%nat -> (0 < n)%nat ->
  List.length w = n -> bary_shapes d n st ->
  exists st',
    barycenter_body A K w verbose log st = Ok (st', false)
    /\ bary_shapes d n st'
    /\ bs_cpt st' = (bs_cpt st + 1)%Z
    /\ ((bs_cpt st' mod 10 = 1)%Z ->
        bs_log st' = (if log then bs_log st ++ [bs_err st'] else bs_log st))
    /\ ((bs_cpt st' mod 10 <> 1)%Z -> bs_log st' = bs_log st).
Proof.
  intros HA HK Hd Hn Hw (Hu & HU & Hcpt). unfold barycenter_body.
  destruct (np_dot_mm_total K (bs_u st) d d n HK Hu Hd) as (Ku & -> & HKu). cbn [bind].
  destruct (broadcast_mm_ok fdiv A Ku d n HA HKu) as (AKu & -> & HAKu). cbn [bind].
  destruct (np_dot_mm_total K AKu d d n HK HAKu Hd) as (KAKu & -> & HKAKu). cbn [bind].
  destruct (broadcast_mm_ok fmul (bs_u st) KAKu d n Hu HKAKu) as (UKv & -> & HUKv).
  cbn [bind].
  destruct (geometricBar_ok w UKv d n HUKv Hd Hw) as (gb & -> & Hgb). cbn [bind].
  rewrite (broadcast_mv_same fmul (transpose (bs_u st)) gb n d
             (transpose_has_shape _ d n Hu Hd) Hgb). cbn [bind].
  set (uTg := map _ (transpose (bs_u st))).
  assert (HuTg : has_shape uTg n d)
    by (apply zip_rows_shape; [now apply transpose_has_shape | exact Hgb]).
  destruct (broadcast_mm_ok fdiv (transpose uTg) UKv d n
              (transpose_has_shape uTg n d HuTg Hn) HUKv) as (u' & -> & Hu'). cbn [bind].
  destruct (Z.eqb ((bs_cpt st + 1) mod 10) 1) eqn:E.
  - apply Z.eqb_eq in E. eexists; split; [reflexivity|]. simpl.
    unfold bary_shapes; simpl.
    split; [split; [exact Hu' | split; [exact HUKv | lia]] |].
    split; [reflexivity|]. split; [intros _; reflexivity | intros H; contradiction].
  - apply Z.eqb_neq in E. eexists; split; [reflexivity|]. simpl.
    unfold bary_shapes; simpl.
    split; [split; [exact Hu' | split; [exact HUKv | lia]] |].
    split; [reflexivity|]. split; [intros H; contradiction | intros _; reflexivity].
Qed.

(** X22: On histograms [A] of [d] bins ([n] of them, as columns), a [d]x[d] cost
    matrix and [n] weights (or none), [barycenter] raises nothing, whatever
    the floats: it returns a vector of [d] entries after [niter] iterations,
    at most [numItermax], and with [log=True] the log holds [niter] and one
    error for each block of ten iterations started. *)
Theorem barycenter_returns (A M : mat) (reg : F) (weights : option vec) (numItermax : Z)
    (stopThr : F) (verbose log : bool) (d n : nat) :
  has_shape A d n -> has_shape M d d -> (0 < d)%nat -> (0 < n)%nat ->
  (forall w, weights = Some w -> List.length w = n) ->
  exists w st g,
    barycenter_loop A M reg weights numItermax stopThr verbose log = Ok (w, st)
    /\ barycenter A M reg weights numItermax stopThr verbose log
       = Ok (g, (if log then Some (bs_log st, bs_cpt st) else None), bs_out st)
    /\ List.length g = d
    /\ (0 <= bs_cpt st <= Z.max 0 numItermax)%Z
    /\ (log = true -> List.length (bs_log st) = Z.to_nat ((bs_cpt st + 9) / 10)).
Proof.
  intros HA HM Hd Hn Hw. unfold barycenter, barycenter_loop.
  destruct (barycenter_init_ok A M reg weights d n HA HM Hd Hn Hw)
    as (w & st0 & -> & Hwl & Hs0 & Ec0 & El0 & _). cbn [bind].
  set (K := gibbs_kernel M reg).
  assert (HK : has_shape K d d) by now apply gibbs_kernel_shape.
  destruct (while_total
              (fun s => bary_shapes d n s
                        /\ (bs_cpt s <= Z.max 0 numItermax)%Z
                        /\ List.length (bs_log s)
                           = (if log then Z.to_nat ((bs_cpt s + 9) / 10) else O))
              (fun s => Z.to_nat (numItermax - bs_cpt s))
              (barycenter_cond stopThr numItermax)
              (barycenter_body A K w verbose log))
    with (fuel := Z.to_nat numItermax) (s := st0)
    as (st & -> & (Hs & Hle & Hlog) & _).
  - intros s (Hs & Hle & Hlog) Hcond.
    unfold barycenter_cond in Hcond. apply andb_true_iff in Hcond.
    destruct Hcond as [_ Hlt]. apply Z.ltb_lt in Hlt.
    destruct (barycenter_body_ok A K w verbose log s d n HA HK Hd Hn Hwl Hs)
      as (s' & E & Hs' & Ec & Hz & Hnz).
    exists s', false. split; [exact E|].
    assert (H0 : (0 <= bs_cpt s)%Z) by apply Hs.
    split; [| intros _; rewrite Ec; lia].
    split; [exact Hs'|]. split; [lia|].
    pose proof (Z.div_mod (bs_cpt s) 10 ltac:(lia)) as Hdm.
    pose proof (Z.mod_pos_bound (bs_cpt s) 10 ltac:(lia)) as Hb10.
    destruct (Z.eq_dec (bs_cpt s' mod 10) 1) as [Em|Em].
    + rewrite (Hz Em). destruct log; [| exact Hlog].
      rewrite length_app, Hlog, Ec. simpl.
      assert (E0 : (bs_cpt s mod 10 = 0)%Z).
      { rewrite Ec in Em.
        rewrite Z.add_mod in Em by lia. 
        destruct (Z.eq_dec (bs_cpt s mod 10) 9) as [E9|E9].
        - rewrite E9 in Em. discriminate.
        - rewrite (Z.mod_small (bs_cpt s mod 10 + 1 mod 10)) in Em
            by (change (1 mod 10)%Z with 1%Z; lia).
          change (1 mod 10)%Z with 1%Z in Em. lia. }
      rewrite E0 in Hdm.
      replace (bs_cpt s + 1 + 9)%Z with (0 + (bs_cpt s / 10 + 1) * 10)%Z by lia.
      replace (bs_cpt s + 9)%Z with (9 + bs_cpt s / 10 * 10)%Z by lia.
      rewrite !Z.div_add by lia. simpl.
      assert (0 <= bs_cpt s / 10)%Z by (apply Z.div_pos; lia). lia.
    + rewrite (Hnz Em), Hlog. destruct log; [| reflexivity]. f_equal. rewrite Ec.
      assert (E0 : (bs_cpt s mod 10 <> 0)%Z).
      { intros E0. apply Em. rewrite Ec, Z.add_mod, E0 by lia. reflexivity. }
      replace (bs_cpt s + 9)%Z
        with ((bs_cpt s mod 10 - 1) + (bs_cpt s / 10 + 1) * 10)%Z by lia.
      replace (bs_cpt s + 1 + 9)%Z
        with (bs_cpt s mod 10 + (bs_cpt s / 10 + 1) * 10)%Z by lia.
      rewrite !Z.div_add by lia.
      rewrite (Z.div_small (bs_cpt s mod 10 - 1)) by lia.
      rewrite (Z.div_small (bs_cpt s mod 10)) by lia. reflexivity.
  - intros s _ Hcond. unfold barycenter_cond in Hcond. apply andb_true_iff in Hcond.
    destruct Hcond as [_ Hlt]. apply Z.ltb_lt in Hlt. lia.
  - split; [exact Hs0|]. rewrite Ec0, El0. split; [lia | now destruct log].
  - rewrite Ec0. lia.
  - cbn [bind]. destruct Hs as (_ & HU & H0).
    destruct (geometricBar_ok w (bs_UKv st) d n HU Hd Hwl) as (g & -> & Hg). cbn [bind].
    exists w, st, g. split; [reflexivity|]. split; [reflexivity|]. split; [exact Hg|].
    split; [lia|]. intros ->. exact Hlog.
Qed.

(** *** [unmix] *)

Lemma unmix_body_ok (a : vec) (D : mat) (h0 : vec) (alpha : F) (verbose log : bool)
    (st : unmix_state F) (d n : nat) :
  has_shape D d n -> (0 < d)%nat -> (0 < n)%nat ->
  List.length a = d -> List.length h0 = n -> unmix_shapes d n st ->
  exists st',
    unmix_body a D h0 alpha verbose log st = Ok (st', false)
    /\ unmix_shapes d n st'
    /\ us_cpt st' = (us_cpt st + 1)%Z
    /\ us_log st' = (if log then us_log st ++ [us_err st'] else us_log st).
Proof.
  intros HD Hd Hn Ha Hh (HK & HK0 & Hold & Hcpt). unfold unmix_body.
  destruct (projC_ok (us_K st) a d d HK Hd Ha) as (K1 & -> & HK1). cbn [bind].
  destruct (projC_ok (us_K0 st) h0 n n HK0 Hn Hh) as (K01 & -> & HK01). cbn [bind].
  set (new := np_sum_axis1 K01).
  assert (Hnew : List.length new = n)
    by (unfold new; rewrite np_sum_axis1_length; apply (has_shape_nrows _ _ _ HK01)).
  assert (HD' : has_shape D d (List.length new)) by now rewrite Hnew.
  rewrite (np_dot_mv_ok _ _ _ HD'). cbn [bind].
  set (inv_new := map _ D).
  assert (Hinv : List.length inv_new = d)
    by (unfold inv_new; rewrite length_map; apply (has_shape_nrows _ _ _ HD)).
  assert (Hother : List.length (np_sum_axis1 K1) = d)
    by (rewrite np_sum_axis1_length; apply (has_shape_nrows _ _ _ HK1)).
  rewrite broadcast2_same by (unfold vmap; rewrite !length_map; congruence). cbn [bind].
  set (delta := vmap fexp _).
  assert (Hdelta : List.length delta = d).
  { unfold delta, vmap. rewrite length_map, zip_with_length; rewrite !length_map; congruence. }
  destruct (projR_ok K1 delta d d HK1 Hd Hd Hdelta) as (K2 & -> & HK2). cbn [bind].
  rewrite broadcast2_same by congruence. cbn [bind].
  set (rr := zip_with fdiv delta inv_new).
  assert (Hrr : List.length rr = d) by (unfold rr; rewrite zip_with_length; congruence).
  assert (HDt : has_shape (transpose D) n (List.length rr))
    by (rewrite Hrr; now apply transpose_has_shape).
  rewrite (np_dot_mv_ok _ _ _ HDt). cbn [bind].
  set (Dr := map _ (transpose D)).
  assert (HDr : List.length Dr = n)
    by (unfold Dr; rewrite length_map; apply (has_shape_nrows _ _ _ HDt)).
  assert (Hdiag : has_shape (np_diag Dr) n n).
  { pose proof (np_diag_shape Dr) as H. now rewrite HDr in H. }
  destruct (np_dot_mm_total (np_diag Dr) K01 n n n Hdiag HK01 Hn) as (K02 & -> & HK02).
  cbn [bind].
  assert (Hs1 : List.length (np_sum_axis1 K02) = n)
    by (rewrite np_sum_axis1_length; apply (has_shape_nrows _ _ _ HK02)).
  rewrite broadcast2_same by congruence. cbn [bind].
  eexists; split; [reflexivity|]. simpl.
  unfold unmix_shapes; simpl. repeat split; auto; try lia; try apply HK2; apply HK02.
Qed.

(** X24: On an observation [a] of [d] bins, a dictionary [D] of [n] atoms
    ([d]x[n]), cost matrices [M] ([d]x[d]) and [M0] ([n]x[n]) and a prior
    [h0] of [n] entries, [unmix] raises nothing, whatever the floats: it
    returns a vector of [n] entries after [niter] iterations, at most
    [numItermax], and its log holds [niter] and one error for each
    iteration. *)
Theorem unmix_returns (a : vec) (D M M0 : mat) (h0 : vec) (reg reg0 alpha : F)
    (numItermax : Z) (stopThr : F) (verbose log : bool) (d n : nat) :
  has_shape D d n -> has_shape M d d -> has_shape M0 n n ->
  (0 < d)%nat -> (0 < n)%nat -> List.length a = d -> List.length h0 = n ->
  exists st h,
    unmix_loop a D M M0 h0 reg reg0 alpha numItermax stopThr verbose log = Ok st
    /\ unmix a D M M0 h0 reg reg0 alpha numItermax stopThr verbose log
       = Ok (h, (if log then Some (us_log st, us_cpt st) else None), us_out st)
    /\ List.length h = n
    /\ (0 <= us_cpt st <= Z.max 0 numItermax)%Z
    /\ (log = true -> List.length (us_log st) = Z.to_nat (us_cpt st)).
Proof.
  intros HD HM HM0 Hd Hn Ha Hh. unfold unmix, unmix_loop.
  destruct (while_total
              (fun s => unmix_shapes d n s
                        /\ (us_cpt s <= Z.max 0 numItermax)%Z
                        /\ List.length (us_log s)
                           = (if log then Z.to_nat (us_cpt s) else O))
              (fun s => Z.to_nat (numItermax - us_cpt s))
              (unmix_cond stopThr numItermax)
              (unmix_body a D h0 alpha verbose log))
    with (fuel := Z.to_nat numItermax) (s := unmix_init M M0 h0 reg reg0)
    as (st & -> & (Hs & Hle & Hlog) & _).
  - intros s (Hs & Hle & Hlog) Hcond.
    unfold unmix_cond in Hcond. apply andb_true_iff in Hcond.
    destruct Hcond as [_ Hlt]. apply Z.ltb_lt in Hlt.
    destruct (unmix_body_ok a D h0 alpha verbose log s d n HD Hd Hn Ha Hh Hs)
      as (s' & E & Hs' & Ec & El).
    exists s', false. split; [exact E|].
    assert (H0 : (0 <= us_cpt s)%Z) by apply Hs.
    split; [| intros _; rewrite Ec; lia].
    split; [exact Hs'|]. split; [lia|]. rewrite El, Ec.
    destruct log; [| exact Hlog]. rewrite length_app, Hlog. simpl. lia.
  - intros s _ Hcond. unfold unmix_cond in Hcond. apply andb_true_iff in Hcond.
    destruct Hcond as [_ Hlt]. apply Z.ltb_lt in Hlt. lia.
  - unfold unmix_init; simpl. split; [| split; [lia | now destruct log]].
    unfold unmix_shapes; simpl. split; [now apply gibbs_kernel_shape|].
    split; [now apply gibbs_kernel_shape|]. split; [exact Hh | lia].
  - unfold unmix_init; simpl. lia.
  - cbn [bind]. exists st, (np_sum_axis1 (us_K0 st)).
    split; [reflexivity|]. split; [reflexivity|].
    destruct Hs as (_ & HK0 & _ & H0).
    split; [rewrite np_sum_axis1_length; apply (has_shape_nrows _ _ _ HK0)|].
    split; [lia|]. intros ->. exact Hlog.
Qed.

End BarycenterRuns.

(** ** The row marginal of the plan of [sinkhorn], in exact arithmetic *)

Section RealPlan.

Import RealArith.
Local Open Scope R_scope.

Lemma Rdot1_zeros_r (x : list R) (n : nat) : dot1 x (np_zeros n) = 0.
Proof.
  revert n. induction x as [|a x IH]; intros [|n]; try reflexivity.
  change (np_zeros (S n)) with (0 :: np_zeros n). rewrite Rdot1_cons, IH. ring.
Qed.

Lemma column_diag_0 (x : R) (t : list R) :
  column 0 (np_diag (x :: t)) = x :: np_zeros (List.length t).
Proof.
  unfold column. cbn [np_diag map nth]. f_equal. rewrite map_map.
  pose proof (has_shape_nrows _ _ _ (np_diag_shape t)) as Hl.
  rewrite <- Hl. generalize (np_diag t). clear. intros l.
  unfold np_zeros. induction l as [|row l IH]; [reflexivity|].
  simpl in *. now f_equal.
Qed.

Lemma column_diag_S (x : R) (t : list R) (j : nat) :
  column (S j) (np_diag (x :: t)) = 0 :: column j (np_diag t).
Proof.
  unfold column. cbn [np_diag map nth]. f_equal.
  - unfold np_zeros. generalize (List.length t). clear. intros n. revert j.
    induction n as [|n IH]; intros [|j]; simpl; auto.
  - rewrite map_map. reflexivity.
Qed.

(** The sum of a row of [K diag(v)] is the product of the row of [K] with [v]. *)
Lemma diag_col_sum (v row : list R) :
  List.length row = List.length v ->
  np_sum (map (fun col => dot1 row col) (transpose (np_diag v))) = dot1 row v.
Proof.
  unfold transpose. rewrite ncols_np_diag, map_map.
  revert row. induction v as [|x t IH]; intros [|r0 row] Hl; try discriminate.
  - reflexivity.
  - simpl in Hl. injection Hl as Hl.
    cbn [List.length seq map]. rewrite <- seq_shift, map_map, Rsum_cons.
    rewrite column_diag_0, !Rdot1_cons, Rdot1_zeros_r.
    rewrite (map_ext (fun j => dot1 (r0 :: row) (column (S j) (np_diag (x :: t))))
               (fun j => dot1 row (column j (np_diag t)))).
    + rewrite (IH row Hl). ring.
    + intros j. rewrite column_diag_S, Rdot1_cons. ring.
Qed.

Lemma Rsum_scal_l (k : R) (x : list R) : np_sum (map (Rmult k) x) = k * np_sum x.
Proof.
  induction x as [|a x IH].
  - unfold np_sum. simpl. ring.
  - cbn [map]. rewrite !Rsum_cons, IH. ring.
Qed.

Lemma scaled_plan_row_sums (Kr : list (list R)) (ar vr : list R) :
  List.length Kr = List.length ar ->
  Forall (fun row => List.length row = List.length vr /\ dot1 row vr <> 0) Kr ->
  map np_sum
    (zip_with (fun row x => map (Rmult x) row)
       (map (fun row => map (fun col => dot1 row col) (transpose (np_diag vr))) Kr)
       (zip_with Rdiv ar (map (fun row => dot1 row vr) Kr)))
  = ar.
Proof.
  revert ar. induction Kr as [|row Kr IH]; intros [|a0 ar] Hl HK; try discriminate.
  - reflexivity.
  - simpl in Hl. injection Hl as Hl. inversion HK as [|? ? [Hrow Hnz] HK']; subst.
    cbn [map zip_with]. rewrite (IH ar Hl HK'). f_equal.
    rewrite Rsum_scal_l, (diag_col_sum vr row Hrow). field. exact Hnz.
Qed.

(** The plan [diag(u) K diag(v)] of [u = a/(K v)] has the row sums [a]. *)
Lemma plan_row_sums (Kr : list (list R)) (ar vr : list R) (c : nat) :
  has_shape Kr (List.length ar) c -> List.length vr = c ->
  (0 < List.length ar)%nat -> (0 < c)%nat ->
  Forall (fun s => s <> 0) (map (fun row => dot1 row vr) Kr) ->
  exists G,
    sinkhorn_plan Kr (zip_with Rdiv ar (map (fun row => dot1 row vr) Kr)) vr = Ok G
    /\ np_sum_axis1 G = ar.
Proof.
  intros HK Hv Hr Hc Hnz. unfold sinkhorn_plan.
  set (ur := zip_with Rdiv ar (map (fun row => dot1 row vr) Kr)).
  assert (Hur : List.length ur = List.length ar).
  { unfold ur. rewrite zip_with_length; [reflexivity|].
    rewrite length_map. symmetry. apply (has_shape_nrows _ _ _ HK). }
  assert (HK' : has_shape Kr (List.length ar) (nrows (np_diag vr))).
  { unfold nrows. rewrite (has_shape_nrows _ _ _ (np_diag_shape vr)). now rewrite Hv. }
  rewrite (np_dot_mm_ok _ _ _ HK'). cbn [bind].
  pose proof (np_dot_mm_shape _ _ _ HK') as HKV. rewrite ncols_np_diag, Hv in HKV.
  rewrite <- Hur in HKV.
  rewrite (np_dot_mm_diag ur _ c HKV) by lia.
  eexists; split; [reflexivity|]. unfold np_sum_axis1, ur.
  apply scaled_plan_row_sums; [apply (has_shape_nrows _ _ _ HK)|].
  destruct HK as [_ HK]. rewrite Forall_map in Hnz.
  rewrite Forall_forall in *. intros row Hin. split; [| now apply Hnz].
  rewrite Hv. now apply HK.
Qed.

End RealPlan.

Section RowMarginal.

Import XReal.
Local Open Scope R_scope.

Local Abbreviation Rfloat := RealArith.float64.

Lemma np_any_zero_positive (l : list xreal) : Forall positive l -> np_any_zero l = false.
Proof.
  induction 1 as [|e l (x & -> & Hx) _ IH]; [reflexivity|].
  unfold np_any_zero in *. cbn [existsb]. rewrite IH, orb_false_r.
  cbn [feqb float64 xeqb of_int]. unfold Reqb.
  destruct (Req_dec_T x 0); [lra | reflexivity].
Qed.

Lemma np_any_isnan_positive (l : list xreal) : Forall positive l -> np_any_isnan l = false.
Proof.
  induction 1 as [|e l (x & -> & Hx) _ IH]; [reflexivity|].
  unfold np_any_isnan in *. cbn [existsb]. now rewrite IH.
Qed.

(** On positive data the test of numerical errors of [sinkhorn] never
    fires. *)
Lemma numerical_errors_positive (K : list (list xreal)) (u v : list xreal) (r c : nat) :
  (0 < r)%nat -> has_shape K r c -> Forall (Forall positive) K ->
  List.length u = r -> Forall positive u -> Forall positive v ->
  numerical_errors K u v = Ok false.
Proof.
  intros Hr HK HKp Hu Hup Hvp.
  rewrite (numerical_errors_ok K u v r c HK Hu).
  assert (Hp : Forall positive (map (fun row => dot1 row u) (transpose K))).
  { apply (np_dot_mv_positive (transpose K) u _ c r); auto.
    - now apply transpose_has_shape.
    - apply transpose_Forall; [| exact HKp]. apply (has_shape_is_matrix K r c HK Hr).
    - apply np_dot_mv_ok with (r := c). rewrite Hu. now apply transpose_has_shape. }
  now rewrite (np_any_zero_positive _ Hp), (np_any_isnan_positive _ Hup),
    (np_any_isnan_positive _ Hvp).
Qed.

Lemma sinkhorn_Kp_lift (ar : list R) (Kr : list (list R)) (c : nat) :
  Forall (fun x => 0 < x) ar -> has_shape Kr (List.length ar) c ->
  (0 < List.length ar)%nat ->
  np_dot_mm (np_diag (vmap (fdiv (of_int 1)) (lift ar))) (liftm Kr)
  = Ok (liftm (zip_with (fun row x => map (Rmult x) row) Kr (map (Rdiv 1) ar))).
Proof.
  intros Har Hs Hr.
  assert (Hnz : Forall (fun b => b <> 0) ar).
  { eapply Forall_impl; [| exact Har]. intros x Hx. cbv beta in *. lra. }
  unfold vmap. change (fdiv (of_int 1)) with (xdiv (Fin 1)).
  rewrite (map_xdiv_lift 1 ar Hnz), np_diag_lift, np_dot_mm_lift.
  assert (Hs' : has_shape Kr (List.length (map (Rdiv 1) ar)) c) by now rewrite length_map.
  rewrite (np_dot_mm_diag _ Kr _ Hs') by (rewrite length_map; exact Hr).
  reflexivity.
Qed.

Lemma sinkhorn_plan_lift (Kr : list (list R)) (ur vr : list R) :
  sinkhorn_plan (liftm Kr) (lift ur) (lift vr)
  = result_map liftm (sinkhorn_plan (FO := Rfloat) Kr ur vr).
Proof.
  unfold sinkhorn_plan. rewrite !np_diag_lift, np_dot_mm_lift.
  destruct (np_dot_mm (FO := Rfloat) Kr _) as [KV|e]; [| reflexivity].
  cbn [result_map bind]. apply np_dot_mm_lift.
Qed.

Lemma Rdot1_positive (x y : list R) :
  Forall (fun e => 0 < e) x -> Forall (fun e => 0 < e) y ->
  List.length x = List.length y -> (0 < List.length x)%nat ->
  0 < dot1 (FO := Rfloat) x y.
Proof.
  intros Hx Hy Hl Hn.
  assert (Hp : positive (dot1 (lift x) (lift y))).
  { assert (Hlift : forall l, Forall (fun e => 0 < e) l -> Forall positive (lift l)).
    { intros l Hl0. unfold lift. rewrite Forall_map.
      eapply Forall_impl; [| exact Hl0]. intros e He. cbv beta in He.
      exists e. split; [reflexivity | exact He]. }
    apply dot1_positive; rewrite ?lift_length; auto. }
  rewrite dot1_lift in Hp. destruct Hp as (s & E & Hs). injection E as E.
  now rewrite E.
Qed.

(** The plan of a state in which [u = 1./np.dot(Kp,v)] has the row sums
    [a]. *)
Lemma updated_plan_row_sums (ar : list R) (Kr : list (list R)) (u v Kpv : list xreal)
    (c : nat) :
  Forall (fun x => 0 < x) ar -> Forall (Forall (fun x => 0 < x)) Kr ->
  has_shape Kr (List.length ar) c -> (0 < List.length ar)%nat -> (0 < c)%nat ->
  Forall positive v -> List.length v = c ->
  np_dot_mv (liftm (zip_with (fun row x => map (Rmult x) row) Kr (map (Rdiv 1) ar))) v
  = Ok Kpv ->
  u = vmap (fdiv (of_int 1)) Kpv ->
  exists G, sinkhorn_plan (liftm Kr) u v = Ok G /\ np_sum_axis1 G = lift ar.
Proof.
  intros Har HKr Hs Hr Hc Hv Hvl HKpv ->.
  destruct (positive_lift v Hv) as (vr & -> & Hvr). rewrite lift_length in Hvl.
  set (Kpr := zip_with (fun row x => map (Rmult x) row) Kr (map (Rdiv 1) ar)) in *.
  assert (HKv : Forall (fun s => 0 < s) (map (fun row => dot1 (FO := Rfloat) row vr) Kr)).
  { rewrite Forall_map. destruct Hs as [_ Hs0]. apply Forall_forall.
    intros row Hin.
    pose proof (proj1 (Forall_forall _ _) HKr row Hin) as Hrow.
    pose proof (proj1 (Forall_forall _ _) Hs0 row Hin) as Hlen. cbv beta in Hlen.
    apply Rdot1_positive; [exact Hrow | exact Hvr | congruence | now rewrite Hlen]. }
  assert (HKv0 : Forall (fun s => s <> 0) (map (fun row => dot1 (FO := Rfloat) row vr) Kr)).
  { eapply Forall_impl; [| exact HKv]. intros s Hs0. cbv beta in *. lra. }
  destruct (update_forms vr ar Kr Har (has_shape_nrows _ _ _ Hs) HKv0) as [Hnz Heq].
  fold Kpr in Hnz, Heq.
  assert (HKp : has_shape Kpr (List.length ar) (List.length vr)).
  { unfold Kpr. rewrite Hvl.
    apply (zip_with_rows_shape (F := R)); [intros; apply length_map | exact Hs |].
    now rewrite length_map. }
  rewrite np_dot_mv_lift, (np_dot_mv_ok (FO := Rfloat) Kpr vr _ HKp) in HKpv.
  cbn [result_map] in HKpv. injection HKpv as <-.
  unfold vmap. change (fdiv (of_int 1)) with (xdiv (Fin 1)).
  rewrite (map_xdiv_lift 1 _ Hnz), <- Heq, sinkhorn_plan_lift.
  destruct (plan_row_sums Kr ar vr c Hs Hvl Hr Hc HKv0) as (G & -> & HG).
  cbn [result_map]. exists (liftm G). split; [reflexivity|].
  now rewrite np_sum_axis1_lift, HG.
Qed.

(** X5: For positive finite marginals, a finite cost matrix and a finite
    nonzero [reg], once an iteration has run ([numItermax > 0] and
    [stopThr < 1]) the plan returned by [sinkhorn] has exactly the row
    sums [a]: its last step sets [u = a/(K v)]. *)
Theorem sinkhorn_row_marginal (a b : list xreal) (M : list (list xreal)) (rr : R)
    (numItermax : Z) (stopThr : xreal) (verbose log : bool) (r c : nat) :
  has_shape M r c -> (0 < r)%nat -> (0 < c)%nat ->
  List.length a = r -> List.length b = c ->
  Forall positive a -> Forall positive b -> Forall (Forall finite) M -> rr <> 0 ->
  (0 < numItermax)%Z -> fltb stopThr (of_int 1) = true ->
  exists G lg out,
    sinkhorn a b M (Fin rr) numItermax stopThr verbose log = Ok (G, lg, out)
    /\ np_sum_axis1 G = a.
Proof.
  intros HM Hr Hc Ha Hb Hap Hbp HMf Hrr Hmax Hthr.
  unfold sinkhorn, sinkhorn_loop.
  rewrite (default_marginal_id a) by lia. rewrite (default_marginal_id b) by lia.
  rewrite Ha, Hb.
  set (K := gibbs_kernel M (Fin rr)).
  assert (HK : has_shape K r c) by now apply gibbs_kernel_shape.
  assert (HKp : Forall (Forall positive) K)
    by (eapply gibbs_kernel_positive; eauto).
  destruct (positive_lift a Hap) as (ar & Ea & Har).
  destruct (liftm_positive K HKp) as (Kr & EK & HKr).
  assert (Hlar : List.length ar = r) by (rewrite <- Ha, Ea; symmetry; apply lift_length).
  assert (HKrs : has_shape Kr (List.length ar) c)
    by (rewrite Hlar; apply liftm_shape; now rewrite <- EK).
  set (Kp := liftm (zip_with (fun row x => map (Rmult x) row) Kr (map (Rdiv 1) ar))).
  assert (EKp : np_dot_mm (np_diag (vmap (fdiv (of_int 1)) a)) K = Ok Kp).
  { rewrite Ea, EK. apply (sinkhorn_Kp_lift ar Kr c Har HKrs). lia. }
  rewrite EKp. cbn [bind].
  destruct (sinkhorn_Kp_ok a K r c HK Ha) as (Kp' & EKp' & HKps).
  rewrite EKp in EKp'. injection EKp' as <-.
  assert (HKpp : Forall (Forall positive) Kp).
  { apply (sinkhorn_Kp_positive a K Kp c); auto. now rewrite Ha. }
  set (I := fun s : sk_state xreal =>
              sk_shapes r c s /\ sk_positive s
              /\ (sk_cpt s = 0%Z -> sk_err s = of_int 1)
              /\ (sk_cpt s <> 0%Z ->
                  exists Kpv, np_dot_mv Kp (sk_v s) = Ok Kpv
                              /\ sk_u s = vmap (fdiv (of_int 1)) Kpv)).
  assert (Hnobreak : forall s s', I s -> sinkhorn_body b K Kp verbose log s <> Ok (s', true)).
  { intros s s' (Hs & Hp & _) Hbrk. apply sinkhorn_body_break in Hbrk.
    destruct Hs as (Hu & _). destruct Hp as (Hup & Hvp & _).
    rewrite (numerical_errors_positive K _ _ r c Hr HK HKp Hu Hup Hvp) in Hbrk.
    discriminate. }
  destruct (while_total I
              (fun s => Z.to_nat (numItermax - sk_cpt s))
              (sinkhorn_cond stopThr numItermax)
              (sinkhorn_body b K Kp verbose log))
    with (fuel := Z.to_nat numItermax) (s := sinkhorn_init r c K)
    as (st & -> & (Hsh & Hpos & Hz & Hnz) & Hexit).
  - intros s Hs Hcond. pose proof Hs as (Hsh & Hp & _).
    destruct (sinkhorn_body_ok b K Kp verbose log s r c Hr HK HKps Hb Hsh)
      as (s' & brk & E & Hs' & Hcpt).
    destruct brk; [exfalso; exact (Hnobreak s s' Hs E)|].
    exists s', false. split; [exact E|]. split.
    + split; [exact Hs'|]. split.
      * apply (sinkhorn_body_positive b K Kp verbose log s s' false r c); auto.
      * rewrite (Hcpt eq_refl). assert (0 <= sk_cpt s)%Z by apply Hsh.
        split; [intros; lia|]. intros _. exact (sinkhorn_body_update _ _ _ _ _ _ _ E).
    + intros _. rewrite (Hcpt eq_refl).
      unfold sinkhorn_cond in Hcond. apply andb_true_iff in Hcond.
      destruct Hcond as [_ Hlt]. apply Z.ltb_lt in Hlt. lia.
  - intros s _ Hcond. unfold sinkhorn_cond in Hcond. apply andb_true_iff in Hcond.
    destruct Hcond as [_ Hlt]. apply Z.ltb_lt in Hlt. lia.
  - split; [apply sinkhorn_init_shapes|]. split.
    + unfold sk_positive, sinkhorn_init; simpl.
      repeat split; try apply uniform_positive; congruence.
    + unfold sinkhorn_init; simpl. split; [reflexivity | congruence].
  - unfold sinkhorn_init; simpl. lia.
  - assert (Hne : sk_cpt st <> 0%Z).
    { intros E0. destruct Hexit as [Hoff | (s0 & Hs0 & _ & Hb0)].
      - unfold sinkhorn_cond in Hoff. rewrite (Hz E0), E0, Hthr in Hoff.
        apply Z.ltb_lt in Hmax. rewrite Hmax in Hoff. discriminate.
      - exact (Hnobreak s0 st Hs0 Hb0). }
    destruct (Hnz Hne) as (Kpv & HKpv & Eu).
    destruct Hsh as (_ & Hvl & _). destruct Hpos as (_ & Hvp & _).
    destruct (updated_plan_row_sums ar Kr (sk_u st) (sk_v st) Kpv c Har HKr HKrs
                ltac:(lia) Hc Hvp Hvl HKpv Eu) as (G & EG & HG).
    cbn [bind]. fold K. rewrite EK, EG. cbn [bind].
    eexists _, _, _. split; [reflexivity|]. now rewrite HG, Ea.
Qed.

End RowMarginal.

(** ** The projections are idempotent, in exact arithmetic *)

Section RealIdempotence.

Import RealArith.
Local Open Scope R_scope.

Lemma scale_rows_by_one (m : list (list R)) (pr : list R) :
  List.length m = List.length pr ->
  Forall (fun x => / 10000000000 <= x) pr ->
  zip_with (fun row w => map (fun e => e * w) row) m
    (zip_with Rdiv pr (map (fun s => Rmax s (/ 10000000000)) pr))
  = m.
Proof.
  revert pr. induction m as [|row m IH]; intros [|p0 pr] Hl Hp; try discriminate.
  - reflexivity.
  - simpl in Hl. injection Hl as Hl. inversion Hp as [|? ? Hp0 Hp']; subst.
    cbn [map zip_with]. rewrite (IH pr Hl Hp'). f_equal.
    assert (Hpos : 0 < / 10000000000) by (apply Rinv_0_lt_compat; lra).
    rewrite Rmax_left by exact Hp0.
    replace (p0 / p0) with 1 by (field; lra).
    rewrite <- (map_id row) at 2. apply map_ext. intros e. ring.
Qed.

Lemma scale_columns_by_one (m : list (list R)) (qr : list R) (c : nat) :
  Forall (fun row => List.length row = c) m -> List.length qr = c ->
  Forall (fun x => / 10000000000 <= x) qr ->
  map (fun row =>
         zip_with Rmult row
           (zip_with Rdiv qr (map (fun s => Rmax s (/ 10000000000)) qr))) m
  = m.
Proof.
  intros Hm Hq Hp.
  assert (Hpos : 0 < / 10000000000) by (apply Rinv_0_lt_compat; lra).
  assert (Hone : forall row : list R,
             List.length row = List.length qr ->
             zip_with Rmult row
               (zip_with Rdiv qr (map (fun s => Rmax s (/ 10000000000)) qr)) = row).
  { clear Hm Hq. induction qr as [|q0 qr IH]; intros [|e row] Hl; try discriminate.
    - reflexivity.
    - simpl in Hl. injection Hl as Hl. inversion Hp as [|? ? Hp0 Hp']; subst.
      cbn [map zip_with]. rewrite (IH Hp' row Hl). f_equal.
      rewrite Rmax_left by exact Hp0. field. lra. }
  rewrite <- (map_id m) at 2. apply map_ext_in. intros row Hin.
  apply Hone. rewrite Forall_forall in Hm. rewrite (Hm row Hin). now symmetry.
Qed.

End RealIdempotence.

Section Idempotence.

Import XReal.
Local Open Scope R_scope.

Local Abbreviation Rfloat := RealArith.float64.

(** The two projections on finite data, as operations on real matrices. *)
Lemma projR_lift (g : list (list R)) (pr : list R) (r c : nat) :
  has_shape g r c -> (0 < r)%nat -> (0 < c)%nat -> List.length pr = r ->
  projR (liftm g) (lift pr)
  = Ok (liftm (zip_with (fun row wi => map (fun e => e * wi) row) g
                 (zip_with Rdiv pr (projR_divisor (FO := Rfloat) g)))).
Proof.
  intros Hs Hr Hc Hpl.
  pose proof (has_shape_ncols _ _ _ Hs Hr) as Hnc.
  set (dR := projR_divisor (FO := Rfloat) g).
  assert (HdR : Forall (fun y => / 10000000000 <= y) dR) by apply max_divisor_bounds.
  assert (HdRl : List.length dR = r).
  { unfold dR, projR_divisor, vmap. rewrite length_map, np_sum_axis1_length.
    apply (has_shape_nrows _ _ _ Hs). }
  unfold projR. rewrite projR_divisor_lift. fold dR.
  rewrite broadcast2_same by (rewrite !lift_length; congruence). cbn [bind].
  change (zip_with fdiv (lift pr) (lift dR)) with (zip_with xdiv (lift pr) (lift dR)).
  rewrite (zip_with_xdiv_lift pr dR (bounds_nonzero dR HdR)).
  set (w := zip_with Rdiv pr dR).
  assert (Hw : List.length w = r) by (unfold w; rewrite zip_with_length; congruence).
  assert (Ht : has_shape (transpose (liftm g)) c (List.length (lift w))).
  { rewrite lift_length, Hw. apply transpose_has_shape; [| exact Hr].
    now apply liftm_shape. }
  rewrite (broadcast_mv_same fmul _ (lift w) c _ Ht eq_refl). cbn [bind].
  rewrite (transpose_scale fmul (liftm g) (lift w) r c);
    [| now apply liftm_shape | exact Hr | exact Hc | now rewrite lift_length].
  f_equal. apply zip_scale_lift.
Qed.

Lemma projC_lift (g : list (list R)) (qr : list R) (r c : nat) :
  has_shape g r c -> (0 < r)%nat -> List.length qr = c ->
  projC (liftm g) (lift qr)
  = Ok (liftm (map (fun row =>
                      zip_with Rmult row
                        (zip_with Rdiv qr (projC_divisor (FO := Rfloat) g))) g)).
Proof.
  intros Hs Hr Hql.
  pose proof (has_shape_ncols _ _ _ Hs Hr) as Hnc.
  set (dC := projC_divisor (FO := Rfloat) g).
  assert (HdC : Forall (fun y => / 10000000000 <= y) dC) by apply max_divisor_bounds.
  assert (HdCl : List.length dC = c)
    by (unfold dC, projC_divisor, vmap; now rewrite length_map, np_sum_axis0_length).
  unfold projC. rewrite projC_divisor_lift. fold dC.
  rewrite broadcast2_same by (rewrite !lift_length; congruence). cbn [bind].
  change (zip_with fdiv (lift qr) (lift dC)) with (zip_with xdiv (lift qr) (lift dC)).
  rewrite (zip_with_xdiv_lift qr dC (bounds_nonzero dC HdC)).
  set (w := zip_with Rdiv qr dC).
  assert (Hw : List.length w = c) by (unfold w; rewrite zip_with_length; congruence).
  assert (Hgl : has_shape (liftm g) r (List.length (lift w)))
    by (rewrite lift_length, Hw; now apply liftm_shape).
  rewrite (broadcast_mv_same fmul _ (lift w) r _ Hgl eq_refl). f_equal.
  unfold liftm. rewrite !map_map. apply map_ext. intros row.
  apply zip_with_xmul_lift.
Qed.

(** X20: Projecting twice is projecting once: for a finite [gamma] whose row
    (column) sums are at least [1e-10] and a target [p] ([q]) of entries at
    least [1e-10], [projR(projR(gamma,p),p) = projR(gamma,p)] and
    [projC(projC(gamma,q),q) = projC(gamma,q)]. *)
Theorem projections_idempotent (gamma : list (list xreal)) (p q : list xreal)
    (r c : nat) :
  has_shape gamma r c -> (0 < r)%nat -> (0 < c)%nat ->
  Forall (Forall finite) gamma -> List.length p = r -> List.length q = c ->
  Forall (at_least (/ 10000000000)) p -> Forall (at_least (/ 10000000000)) q ->
  Forall (at_least (/ 10000000000)) (np_sum_axis1 gamma) ->
  Forall (at_least (/ 10000000000)) (np_sum_axis0 gamma) ->
  (exists PR, projR gamma p = Ok PR /\ projR PR p = Ok PR)
  /\ (exists PC, projC gamma q = Ok PC /\ projC PC q = Ok PC).
Proof.
  intros Hs Hr Hc Hg Hpl Hql Hp Hq Hrow Hcol.
  destruct (finite_liftm gamma Hg) as (g & ->).
  assert (Hfin : forall l, Forall (at_least (/ 10000000000)) l -> Forall finite l).
  { intros l Hl. eapply Forall_impl; [| exact Hl]. intros e (y & -> & _). now exists y. }
  destruct (finite_lift p (Hfin p Hp)) as (pr & ->).
  destruct (finite_lift q (Hfin q Hq)) as (qr & ->).
  rewrite lift_length in Hpl, Hql. apply liftm_shape in Hs.
  apply at_least_lift in Hp, Hq.
  rewrite np_sum_axis1_lift in Hrow. rewrite np_sum_axis0_lift in Hcol.
  apply at_least_lift in Hrow, Hcol.
  pose proof (has_shape_nrows _ _ _ Hs) as Hl.
  split.
  - rewrite (projR_lift g pr r c Hs Hr Hc Hpl).
    set (PR := zip_with _ g _).
    assert (HPR : has_shape PR r c).
    { unfold PR. apply (zip_with_rows_shape (F := R)); [intros; apply length_map | exact Hs |].
      rewrite zip_with_length; [exact Hpl|].
      unfold projR_divisor, vmap. rewrite length_map, np_sum_axis1_length. unfold nrows.
      congruence. }
    assert (Hsum : map (np_sum (FO := Rfloat)) PR = pr).
    { unfold PR, projR_divisor, vmap, np_sum_axis1.
      apply scaled_row_sums; [congruence|].
      unfold np_sum_axis1 in Hrow. rewrite Forall_map in Hrow. exact Hrow. }
    exists (liftm PR). split; [reflexivity|].
    rewrite (projR_lift PR pr r c HPR Hr Hc Hpl). do 2 f_equal.
    unfold projR_divisor, vmap, np_sum_axis1. rewrite Hsum.
    apply scale_rows_by_one; [| exact Hp].
    rewrite (has_shape_nrows _ _ _ HPR). now symmetry.
  - rewrite (projC_lift g qr r c Hs Hr Hql).
    set (PC := map _ g).
    assert (HPC : has_shape PC r c).
    { unfold PC. apply (map_rows_shape (F := R)); [| exact Hs].
      intros row Hrow0. rewrite zip_with_length; [exact Hrow0|].
      rewrite zip_with_length; [congruence|].
      unfold projC_divisor, vmap. rewrite length_map, np_sum_axis0_length.
      rewrite (has_shape_ncols _ _ _ Hs Hr). exact Hql. }
    assert (Hsum : np_sum_axis0 (FO := Rfloat) PC = qr).
    { unfold PC, projC_divisor, vmap. apply (scaled_column_sums g qr r c); auto. }
    exists (liftm PC). split; [reflexivity|].
    rewrite (projC_lift PC qr r c HPC Hr Hql). do 2 f_equal.
    unfold projC_divisor, vmap. rewrite Hsum.
    apply (scale_columns_by_one PC qr c); [apply HPC | exact Hql | exact Hq].
Qed.

End Idempotence.

(** ** Marginals of the wrong length *)

Section Mismatch.

Context {F : Type} {FO : Float64 F}.

Local Abbreviation vec := (list F).
Local Abbreviation mat := (list (list F)).

(** X4: A marginal [a] that is not empty and whose length is not the number of
    rows of [M] makes [sinkhorn] raise [ValueError], before its loop: the
    product [np.dot(np.diag(1/a),K)] is not defined. *)
Theorem sinkhorn_marginal_mismatch (a b : vec) (M : mat) (reg : F) (numItermax : Z)
    (stopThr : F) (verbose log : bool) :
  a <> [] -> List.length a <> nrows M ->
  sinkhorn a b M reg numItermax stopThr verbose log = Raise ValueError.
Proof.
  intros Hne Hl. unfold sinkhorn, sinkhorn_loop.
  rewrite (default_marginal_id a) by (destruct a; [contradiction | simpl; lia]).
  unfold np_dot_mm.
  replace (nrows (gibbs_kernel M reg)) with (nrows M)
    by (unfold nrows, gibbs_kernel, mmap; now rewrite length_map).
  destruct a as [|a0 a]; [contradiction|].
  cbn [vmap map np_diag forallb List.length].
  unfold np_zeros. rewrite repeat_length, length_map.
  apply Nat.eqb_neq in Hl. cbn [List.length] in Hl. rewrite Hl. reflexivity.
Qed.

End Mismatch.

(** ** The row marginal of the plan of [sinkhorn_stabilized], in exact arithmetic *)

Section GammaShape.

Context {F : Type} {FO : Float64 F}.

Local Abbreviation vec := (list F).
Local Abbreviation mat := (list (list F)).

(** [get_Gamma] entry by entry, from the logarithm of the kernel. *)
Lemma get_Gamma_form (M : mat) (reg : F) (r c : nat) (alpha beta u v : vec) (L : mat) :
  log_kernel M reg r c alpha beta = Ok L -> has_shape L r c ->
  List.length u = r -> List.length v = c ->
  get_Gamma M reg r c alpha beta u v
  = Ok (mmap fexp
          (map (fun row => zip_with fadd row (map flog v))
             (zip_with (fun row e => map (fun x => fadd x e) row) L (map flog u)))).
Proof.
  intros HL HLs Hu Hv. unfold get_Gamma. rewrite HL. cbn [bind].
  unfold reshape_col, reshape_row. rewrite Hu, Hv, !Nat.eqb_refl. cbn [bind].
  rewrite mmap_col.
  rewrite broadcast_mm_col
    by (unfold nrows; rewrite (has_shape_nrows _ _ _ HLs), length_map; exact Hu).
  cbn [bind].
  assert (Hlu : List.length (map flog u) = r) by now rewrite length_map.
  pose proof (col_rows_shape fadd L (map flog u) r c HLs Hlu) as HLU.
  assert (Hlv : List.length (map flog v) = c) by now rewrite length_map.
  unfold mmap at 1. cbn [map].
  rewrite (broadcast_mm_row fadd _ (map flog v) r c HLU Hlv). reflexivity.
Qed.

(** An iteration of [sinkhorn_stabilized] that completes keeps the kernel
    that of the potentials and leaves [u = a/np.dot(K,v)]. *)
Lemma stabilized_body_update (a b : vec) (M : mat) (reg : F) (na nb : nat)
    (numItermax : Z) (tau stopThr : F) (verbose : bool) (print_period : Z) (log : bool)
    (st st' : stab_state F) :
  stabilized_body a b M reg na nb numItermax tau stopThr verbose print_period log st
  = Ok (st', false) ->
  get_K M reg na nb (st_alpha st) (st_beta st) = Ok (st_K st) ->
  get_K M reg na nb (st_alpha st') (st_beta st') = Ok (st_K st')
  /\ exists Kv, np_dot_mv (st_K st') (st_v st') = Ok Kv
                /\ broadcast2 fdiv a Kv = Ok (st_u st').
Proof.
  unfold stabilized_body. intros H HK.
  apply bind_Ok in H. destruct H as (big & _ & H).
  apply bind_Ok in H. destruct H as ([[[[al be] u0] v0] K0] & Hif & H).
  assert (HK0 : get_K M reg na nb al be = Ok K0).
  { destruct big.
    - apply bind_Ok in Hif. destruct Hif as (al' & _ & Hif).
      apply bind_Ok in Hif. destruct Hif as (be' & _ & Hif).
      apply bind_Ok in Hif. destruct Hif as (K' & HK' & Hif).
      injection Hif as <- <- _ _ <-. exact HK'.
    - injection Hif as <- <- _ _ <-. exact HK. }
  apply bind_Ok in H. destruct H as (Ktu & _ & H).
  apply bind_Ok in H. destruct H as (v1 & _ & H).
  apply bind_Ok in H. destruct H as (Kv & HKv & H).
  apply bind_Ok in H. destruct H as (u1 & Hu1 & H).
  apply bind_Ok in H. destruct H as ([] & _ & H).
  apply bind_Ok in H. destruct H as ([[[transp err] lg] out] & _ & H).
  apply bind_Ok in H. destruct H as (bad & _ & H).
  destruct bad; [destruct (negb (Z.eqb (st_cpt st) 0)); discriminate|].
  injection H as <-. cbn [st_alpha st_beta st_K st_v st_u].
  split; [exact HK0|]. exists Kv. split; [exact HKv | exact Hu1].
Qed.

End GammaShape.

Section RealGamma.

Import RealArith.
Local Open Scope R_scope.

Lemma gamma_row_sum (ui : R) (row vr : list R) :
  np_sum (zip_with (fun l v => exp l * ui * v) row vr) = ui * dot1 (map exp row) vr.
Proof.
  revert vr. induction row as [|l row IH]; intros [|v vr].
  - unfold np_sum, dot1. simpl. ring.
  - unfold np_sum, dot1. simpl. ring.
  - cbn [zip_with map]. rewrite Rdot1_nil_r. unfold np_sum. simpl. ring.
  - cbn [zip_with map]. rewrite Rsum_cons, Rdot1_cons, IH. ring.
Qed.

Lemma gamma_row_sums (Lr : list (list R)) (ar vr : list R) :
  List.length Lr = List.length ar ->
  Forall (fun s => s <> 0) (map (fun row => dot1 row vr) (map (map exp) Lr)) ->
  map np_sum
    (zip_with (fun row ui => zip_with (fun l v => exp l * ui * v) row vr) Lr
       (zip_with Rdiv ar (map (fun row => dot1 row vr) (map (map exp) Lr))))
  = ar.
Proof.
  revert ar. induction Lr as [|row Lr IH]; intros [|a0 ar] Hl Hnz; try discriminate.
  - reflexivity.
  - simpl in Hl. injection Hl as Hl. cbn [map] in Hnz.
    inversion Hnz as [|? ? Hnz0 Hnz']; subst.
    cbn [map zip_with]. rewrite (IH ar Hl Hnz'). f_equal.
    rewrite gamma_row_sum. field. exact Hnz0.
Qed.

End RealGamma.

Section StabilizedMarginal.

Import XReal.
Local Open Scope R_scope.

Local Abbreviation Rfloat := RealArith.float64.

Lemma gamma_row_lift (row vr : list R) (ui : R) :
  0 < ui -> Forall (fun x => 0 < x) vr ->
  map xexp (zip_with xadd (map (fun x => xadd x (Fin (ln ui))) (lift row)) (lift (map ln vr)))
  = lift (zip_with (fun l v => exp l * ui * v) row vr).
Proof.
  intros Hu Hv. revert row. induction Hv as [|v vr Hv0 _ IH]; intros [|l row];
    try reflexivity.
  cbn [lift map zip_with xadd xexp]. unfold lift in IH. rewrite IH. f_equal. f_equal.
  rewrite !exp_plus, !exp_ln by assumption. reflexivity.
Qed.

Lemma gamma_rows_lift (Lr : list (list R)) (ur vr : list R) :
  Forall (fun x => 0 < x) ur -> Forall (fun x => 0 < x) vr ->
  mmap xexp
    (map (fun row => zip_with xadd row (map xlog (lift vr)))
       (zip_with (fun row e => map (fun x => xadd x e) row) (liftm Lr) (map xlog (lift ur))))
  = liftm (zip_with (fun row ui => zip_with (fun l v => exp l * ui * v) row vr) Lr ur).
Proof.
  intros Hu Hv. rewrite (map_xlog_lift vr Hv), (map_xlog_lift ur Hu).
  revert Lr. induction Hu as [|ui ur Hu0 _ IH]; intros [|row Lr]; try reflexivity.
  unfold mmap, liftm in *. cbn [lift map zip_with].
  rewrite IH. f_equal. apply (gamma_row_lift row vr ui Hu0 Hv).
Qed.

Lemma np_zeros_finite (n : nat) : Forall finite (np_zeros n).
Proof.
  unfold np_zeros. apply Forall_forall. intros e He.
  apply repeat_spec in He. subst. apply finite_zero.
Qed.

(** X9: For positive finite marginals, a finite cost matrix, a finite nonzero
    [reg] and finite initial potentials, the plan returned by
    [sinkhorn_stabilized] has exactly the row sums [a], whatever
    [numItermax], [tau] and [stopThr]: the loop always runs, and its last
    step sets [u = a/(K v)]. *)
Theorem stabilized_row_marginal (a b : list xreal) (M : list (list xreal)) (rr : R)
    (numItermax : Z) (tau stopThr : xreal) (warmstart : option (list xreal * list xreal))
    (verbose : bool) (print_period : Z) (log : bool) (r c : nat) :
  has_shape M r c -> (0 < r)%nat -> (0 < c)%nat ->
  List.length a = r -> List.length b = c ->
  Forall positive a -> Forall positive b -> Forall (Forall finite) M -> rr <> 0 ->
  (forall al be, warmstart = Some (al, be) ->
     List.length al = r /\ List.length be = c /\ Forall finite al /\ Forall finite be) ->
  print_period <> 0%Z ->
  exists G lg out,
    sinkhorn_stabilized a b M (Fin rr) numItermax tau stopThr warmstart verbose
      print_period log = Ok (G, lg, out)
    /\ np_sum_axis1 G = a.
Proof.
  intros HM Hr Hc Ha Hb Hap Hbp HMf Hrr Hw Hpp.
  pose proof (has_shape_nrows _ _ _ HM) as Hnr.
  pose proof (has_shape_ncols _ _ _ HM Hr) as Hnc.
  unfold sinkhorn_stabilized, stabilized_loop, stabilized_return.
  unfold nrows. rewrite Hnr, Hnc.
  rewrite (default_marginal_id a) by lia. rewrite (default_marginal_id b) by lia.
  rewrite Ha, Hb.
  assert (Hw' : exists al be,
    match warmstart with Some w => w | None => (np_zeros r, np_zeros c) end = (al, be)
    /\ List.length al = r /\ List.length be = c /\ Forall finite al /\ Forall finite be).
  { destruct warmstart as [[al be]|].
    - exists al, be. split; [reflexivity | exact (Hw al be eq_refl)].
    - exists (np_zeros r), (np_zeros c). split; [reflexivity|].
      split; [apply repeat_length|]. split; [apply repeat_length|].
      split; apply np_zeros_finite. }
  destruct Hw' as (al & be & -> & Hal & Hbe & Half & Hbef).
  destruct (get_K_ok M (Fin rr) r c al be HM Hal Hbe) as (K & EK & HK).
  rewrite EK. cbn [bind].
  assert (HKp : Forall (Forall positive) K)
    by exact (get_K_positive M K rr r c _ _ Hrr HMf Half Hbef EK).
  set (body := stabilized_body a b M (Fin rr) r c numItermax tau stopThr verbose
                 print_period log).
  set (I := fun s : stab_state xreal =>
              stab_shapes r c s /\ stab_positive s
              /\ get_K M (Fin rr) r c (st_alpha s) (st_beta s) = Ok (st_K s)).
  set (J := fun s : stab_state xreal =>
              exists Kv, np_dot_mv (st_K s) (st_v s) = Ok Kv
                         /\ broadcast2 fdiv a Kv = Ok (st_u s)).
  (* on positive data the test of numerical errors never fires *)
  assert (Hnobreak : forall s s', I s -> body s <> Ok (s', true)).
  { intros s s' (Hs & (Hal0 & Hbe0 & Hu0 & Hv0 & HK0) & _) Hbrk.
    destruct Hs as (Hall & Hbel & Hul & Hvl & HKs & _).
    unfold body, stabilized_body in Hbrk.
    apply bind_Ok in Hbrk. destruct Hbrk as (big & _ & H).
    apply bind_Ok in H. destruct H as ([[[[al1 be1] u1] v1] K1] & Hif & H).
    assert (Hif' : Forall positive u1 /\ Forall (Forall positive) K1
                   /\ List.length u1 = r /\ has_shape K1 r c).
    { destruct big.
      - apply bind_Ok in Hif. destruct Hif as (al' & Hal' & Hif).
        apply bind_Ok in Hif. destruct Hif as (be' & Hbe' & Hif).
        apply bind_Ok in Hif. destruct Hif as (K' & HK' & Hif).
        injection Hif as <- <- <- <- <-.
        assert (Hfa : Forall finite al') by exact (absorb_finite rr _ _ _ Hal0 Hu0 Hal').
        assert (Hfb : Forall finite be') by exact (absorb_finite rr _ _ _ Hbe0 Hv0 Hbe').
        destruct (absorb_ok (Fin rr) (st_alpha s) (st_u s) r Hall Hul) as (z1 & Ez1 & Hz1).
        destruct (absorb_ok (Fin rr) (st_beta s) (st_v s) c Hbel Hvl) as (z2 & Ez2 & Hz2).
        rewrite Hal' in Ez1. injection Ez1 as <-.
        rewrite Hbe' in Ez2. injection Ez2 as <-.
        destruct (get_K_ok M (Fin rr) r c al' be' HM Hz1 Hz2) as (K2 & EK2 & HK2).
        rewrite HK' in EK2. injection EK2 as <-.
        split; [apply uniform_positive|]. split.
        + exact (get_K_positive M K' rr r c al' be' Hrr HMf Hfa Hfb HK').
        + split; [apply uniform_length | exact HK2].
      - injection Hif as _ _ <- _ <-. auto. }
    destruct Hif' as (Hu1p & HK1p & Hu1l & HK1s).
    apply bind_Ok in H. destruct H as (Ktu & HKtu & H).
    apply bind_Ok in H. destruct H as (v2 & Hv2 & H).
    apply bind_Ok in H. destruct H as (Kv & HKv & H).
    apply bind_Ok in H. destruct H as (u2 & Hu2 & H).
    apply bind_Ok in H. destruct H as ([] & _ & H).
    apply bind_Ok in H. destruct H as ([[[transp err] lg] out] & _ & H).
    apply bind_Ok in H. destruct H as (bad & Hbad & H).
    destruct bad; [| discriminate].
    assert (HKtup : Forall positive Ktu).
    { apply (np_dot_mv_positive (transpose K1) u1 Ktu c r); auto.
      - now apply transpose_has_shape.
      - apply transpose_Forall; [| exact HK1p]. apply (has_shape_is_matrix K1 r c HK1s Hr). }
    assert (Hv2p : Forall positive v2)
      by (eapply (broadcast2_Forall positive positive positive);
          [apply positive_div | exact Hbp | exact HKtup | exact Hv2]).
    assert (Hv2l : List.length v2 = c).
    { rewrite (np_dot_mv_ok (transpose K1) u1 c) in HKtu
        by (rewrite Hu1l; now apply transpose_has_shape).
      injection HKtu as <-.
      rewrite broadcast2_same in Hv2
        by (rewrite length_map, (has_shape_nrows _ _ _ (transpose_has_shape K1 r c HK1s Hr));
            exact Hb).
      injection Hv2 as <-. rewrite zip_with_length; [exact Hb|].
      rewrite length_map, (has_shape_nrows _ _ _ (transpose_has_shape K1 r c HK1s Hr)).
      exact Hb. }
    assert (HKvp : Forall positive Kv)
      by exact (np_dot_mv_positive K1 v2 Kv r c HK1s Hc Hv2l HK1p Hv2p HKv).
    assert (Hu2p : Forall positive u2)
      by (eapply (broadcast2_Forall positive positive positive);
          [apply positive_div | exact Hap | exact HKvp | exact Hu2]).
    assert (Hu2l : List.length u2 = r).
    { rewrite (np_dot_mv_ok K1 v2 r) in HKv by now rewrite Hv2l.
      injection HKv as <-.
      rewrite broadcast2_same in Hu2
        by (rewrite length_map, (has_shape_nrows _ _ _ HK1s); exact Ha).
      injection Hu2 as <-. rewrite zip_with_length; [exact Ha|].
      rewrite length_map, (has_shape_nrows _ _ _ HK1s). exact Ha. }
    rewrite (numerical_errors_positive K1 u2 v2 r c Hr HK1s HK1p Hu2l Hu2p Hv2p) in Hbad.
    discriminate. }
  assert (Hstep : forall s, I s ->
            exists s', body s = Ok (s', false) /\ I s' /\ J s'
                       /\ st_cpt s' = (st_cpt s + 1)%Z
                       /\ (st_loop s' = true -> st_loop s = true /\ (st_cpt s < numItermax)%Z)).
  { intros s Hs. pose proof Hs as (Hsh & Hp & HKs).
    destruct (stabilized_body_ok a b M (Fin rr) r c numItermax tau stopThr verbose
                print_period log s Hr Hc HM Ha Hb Hpp Hsh) as (s' & brk & E & Hs' & Hctl).
    destruct brk; [exfalso; exact (Hnobreak s s' Hs E)|].
    exists s'. split; [exact E|].
    destruct (stabilized_body_update _ _ _ _ _ _ _ _ _ _ _ _ _ _ E HKs) as [HK' HJ].
    split; [| split; [exact HJ | exact (Hctl eq_refl)]].
    split; [exact Hs'|]. split; [| exact HK'].
    apply (stabilized_body_positive a b M rr r c numItermax tau stopThr verbose
             print_period log s s' false); auto. }
  set (s0 := StabState al be (uniform r) (uniform c) (np_zeros r) (np_zeros c)
               K K (of_int 1) 0 true [] []).
  assert (HI0 : I s0).
  { unfold I, s0. split; [| split; [| exact EK]].
    - unfold stab_shapes; simpl. rewrite !uniform_length.
      repeat split; auto; try apply HK. lia.
    - unfold stab_positive; simpl. repeat split; auto; apply uniform_positive. }
  (* the first iteration always runs *)
  destruct (Hstep s0 HI0) as (s1 & E1 & HI1 & HJ1 & Ec1 & Hl1).
  cbn [while]. change (st_loop s0) with true. cbv iota. fold body. rewrite E1.
  destruct (while_total (fun s => I s /\ J s) (stab_measure numItermax) st_loop body)
    with (fuel := Z.to_nat numItermax) (s := s1)
    as (st & -> & ((Hsh & Hpos & HKst) & (Kv & HKv & Hu)) & _).
  - intros s [Hs _] Hl. destruct (Hstep s Hs) as (s' & E & HI' & HJ' & Ec & Hl').
    exists s', false. split; [exact E|]. split; [split; assumption|].
    intros _. unfold stab_measure. rewrite Hl.
    destruct (st_loop s'); [| lia]. destruct (Hl' eq_refl). rewrite Ec. lia.
  - intros s _ Hl. unfold stab_measure. rewrite Hl. lia.
  - split; assumption.
  - unfold stab_measure. destruct (st_loop s1) eqn:El; [| lia].
    destruct (Hl1 eq_refl) as [_ Hlt]. rewrite Ec1. unfold s0 in *. simpl in *. lia.
  - (* the plan of the final state *)
    cbn [bind].
    destruct Hsh as (Hall & Hbel & Hul & Hvl & HKs & _).
    destruct Hpos as (Halp & Hbep & Hup & Hvp & HKpos).
    unfold get_K in HKst. apply bind_Ok in HKst. destruct HKst as (L & HL & HKL).
    injection HKL as HKL.
    destruct (log_kernel_ok M (Fin rr) r c _ _ HM Hall Hbel) as (L' & EL' & HLs).
    rewrite HL in EL'. injection EL' as <-.
    pose proof (log_kernel_finite M L rr r c _ _ Hrr HMf Halp Hbep HL) as HLf.
    destruct (finite_liftm L HLf) as (Lr & ->).
    destruct (positive_lift a Hap) as (ar & -> & Har).
    destruct (positive_lift _ Hup) as (ur & Eur & Hur).
    destruct (positive_lift _ Hvp) as (vr & Evr & Hvr).
    rewrite Eur, Evr in *. rewrite lift_length in Ha, Hul, Hvl.
    apply liftm_shape in HLs.
    set (Kr := map (map exp) Lr).
    assert (EKr : st_K st = liftm Kr).
    { rewrite <- HKL. unfold mmap, liftm, Kr. rewrite !map_map. apply map_ext.
      intros row. apply map_xexp_lift. }
    assert (HKrs : has_shape Kr r c).
    { unfold Kr. apply (map_rows_shape (F := R)); [| exact HLs].
      intros row Hrow. now rewrite length_map. }
    assert (HKv' : has_shape Kr r (List.length vr)) by now rewrite Hvl.
    rewrite EKr, np_dot_mv_lift, (np_dot_mv_ok (FO := Rfloat) Kr vr r HKv') in HKv.
    cbn [result_map] in HKv. injection HKv as <-.
    assert (Hd : Forall (fun s => 0 < s) (map (fun row => dot1 (FO := Rfloat) row vr) Kr)).
    { rewrite Forall_map. apply Forall_forall. intros row Hin.
      destruct HKrs as [_ HKrs]. pose proof (proj1 (Forall_forall _ _) HKrs row Hin) as Hrow.
      cbv beta in Hrow.
      apply Rdot1_positive; [| exact Hvr | congruence | now rewrite Hrow].
      unfold Kr in Hin. apply in_map_iff in Hin. destruct Hin as (lrow & <- & _).
      rewrite Forall_map. apply Forall_forall. intros l _. apply exp_pos. }
    assert (Hd0 : Forall (fun s => s <> 0) (map (fun row => dot1 (FO := Rfloat) row vr) Kr)).
    { eapply Forall_impl; [| exact Hd]. intros s Hs0. cbv beta in *. lra. }
    rewrite broadcast2_same in Hu
      by (rewrite !lift_length, length_map, (has_shape_nrows _ _ _ HKrs); exact Ha).
    change (zip_with fdiv) with (zip_with xdiv) in Hu.
    rewrite (zip_with_xdiv_lift ar _ Hd0) in Hu. injection Hu as Hu.
    apply lift_inj in Hu.
    assert (EG : get_Gamma M (Fin rr) r c (st_alpha st) (st_beta st) (lift ur) (lift vr)
                 = Ok (liftm (zip_with (fun row ui => zip_with (fun l v => exp l * ui * v)
                                                        row vr) Lr ur))).
    { rewrite (get_Gamma_form M (Fin rr) r c _ _ (lift ur) (lift vr) (liftm Lr) HL)
        by (try apply liftm_shape; rewrite ?lift_length; auto).
      f_equal. apply (gamma_rows_lift Lr ur vr Hur Hvr). }
    assert (HG : np_sum_axis1
                   (liftm (zip_with (fun row ui => zip_with (fun l v => exp l * ui * v)
                                                     row vr) Lr ur))
                 = lift ar).
    { rewrite np_sum_axis1_lift. f_equal. unfold np_sum_axis1. rewrite <- Hu.
      apply gamma_row_sums; [| exact Hd0].
      rewrite (has_shape_nrows _ _ _ HLs). now symmetry. }
    destruct log.
    + unfold vmap. rewrite !broadcast2_same by (rewrite !length_map, ?lift_length; congruence).
      cbn [bind].
      destruct (absorb_ok (Fin rr) (st_alpha st) (lift ur) r Hall) as (z1 & -> & _);
        [now rewrite lift_length|].
      destruct (absorb_ok (Fin rr) (st_beta st) (lift vr) c Hbel) as (z2 & -> & _);
        [now rewrite lift_length|].
      cbn [bind]. rewrite EG. cbn [bind]. eexists _, _, _. split; [reflexivity | exact HG].
    + rewrite EG. cbn [bind]. eexists _, _, _. split; [reflexivity | exact HG].
Qed.

End StabilizedMarginal.

(** ** What [verbose] and [log] do not change *)

Lemma result_rel_bind {A B A' B' : Type} (R : A -> A' -> Prop) (Q : B -> B' -> Prop)
    (r : result A) (r' : result A') (k : A -> result B) (k' : A' -> result B') :
  result_rel R r r' ->
  (forall x x', R x x' -> result_rel Q (k x) (k' x')) ->
  result_rel Q (bind r k) (bind r' k').
Proof.
  intros Hr Hk. destruct r as [x|e], r' as [x'|e']; simpl in *; try contradiction; auto.
Qed.

Lemma result_rel_refl {A B : Type} (Q : B -> B -> Prop) (r : result A)
    (k k' : A -> result B) :
  (forall x, result_rel Q (k x) (k' x)) ->
  result_rel Q (bind r k) (bind r k').
Proof. intros Hk. destruct r as [x|e]; simpl; auto. Qed.

(** Two loops whose conditions agree and whose bodies act alike on related
    states end in related states, or with the same exception. *)
Lemma while_simulation {S1 S2 : Type} (R : S1 -> S2 -> Prop)
    (c1 : S1 -> bool) (c2 : S2 -> bool)
    (b1 : S1 -> result (S1 * bool)) (b2 : S2 -> result (S2 * bool)) :
  (forall s1 s2, R s1 s2 -> c1 s1 = c2 s2) ->
  (forall s1 s2, R s1 s2 ->
     result_rel (fun p q => R (fst p) (fst q) /\ snd p = snd q) (b1 s1) (b2 s2)) ->
  forall fuel s1 s2, R s1 s2 -> result_rel R (while fuel c1 b1 s1) (while fuel c2 b2 s2).
Proof.
  intros Hc Hb fuel. induction fuel as [|fuel IH]; intros s1 s2 HR; simpl;
    rewrite <- (Hc s1 s2 HR); destruct (c1 s1); simpl; auto.
  specialize (Hb s1 s2 HR).
  destruct (b1 s1) as [[s1' k1]|e1], (b2 s2) as [[s2' k2]|e2]; simpl in *;
    try contradiction; auto.
  destruct Hb as [HR' <-]. destruct k1; simpl; auto.
Qed.

Section Flags.

Context {F : Type} {FO : Float64 F}.

Local Abbreviation vec := (list F).
Local Abbreviation mat := (list (list F)).

Lemma sinkhorn_body_same (b : vec) (K Kp : mat) (verbose log verbose' log' : bool)
    (s1 s2 : sk_state F) :
  sk_same s1 s2 ->
  result_rel (fun p q => sk_same (fst p) (fst q) /\ snd p = snd q)
    (sinkhorn_body b K Kp verbose log s1) (sinkhorn_body b K Kp verbose' log' s2).
Proof.
  intros (Eu & Ev & Eup & Evp & Et & Ee & Ec). unfold sinkhorn_body.
  rewrite Eu, Ev, Eup, Evp, Et, Ee, Ec.
  apply result_rel_refl. intros bad. destruct bad.
  - destruct (negb (Z.eqb (sk_cpt s2) 0)); simpl; unfold sk_same; simpl; auto 10.
  - apply result_rel_refl. intros Ktu. apply result_rel_refl. intros v.
    apply result_rel_refl. intros Kpv.
    destruct (Z.eqb (sk_cpt s2 mod 10) 0).
    + apply result_rel_refl. intros transp. apply result_rel_refl. intros err.
      simpl. unfold sk_same; simpl. auto 10.
    + simpl. unfold sk_same; simpl. auto 10.
Qed.

Lemma barycenter_body_same (A K : mat) (w : vec) (verbose log verbose' log' : bool)
    (s1 s2 : bary_state F) :
  bary_same s1 s2 ->
  result_rel (fun p q => bary_same (fst p) (fst q) /\ snd p = snd q)
    (barycenter_body A K w verbose log s1) (barycenter_body A K w verbose' log' s2).
Proof.
  intros (Eu & EU & Ee & Ec). unfold barycenter_body. rewrite Eu, Ee, Ec.
  apply result_rel_refl. intros Ku. apply result_rel_refl. intros AKu.
  apply result_rel_refl. intros KAKu. apply result_rel_refl. intros UKv.
  apply result_rel_refl. intros gb. apply result_rel_refl. intros uTg.
  apply result_rel_refl. intros u.
  destruct (Z.eqb ((bs_cpt s2 + 1) mod 10) 1); simpl; unfold bary_same; simpl; auto.
Qed.

Lemma unmix_body_same (a : vec) (D : mat) (h0 : vec) (alpha : F)
    (verbose log verbose' log' : bool) (s1 s2 : unmix_state F) :
  unmix_same s1 s2 ->
  result_rel (fun p q => unmix_same (fst p) (fst q) /\ snd p = snd q)
    (unmix_body a D h0 alpha verbose log s1) (unmix_body a D h0 alpha verbose' log' s2).
Proof.
  intros (EK & EK0 & Eo & Ee & Ec). unfold unmix_body. rewrite EK, EK0, Eo, Ec.
  apply result_rel_refl. intros K1. apply result_rel_refl. intros K01.
  apply result_rel_refl. intros inv_new. apply result_rel_refl. intros e.
  apply result_rel_refl. intros K2. apply result_rel_refl. intros r.
  apply result_rel_refl. intros Dr. apply result_rel_refl. intros K02.
  apply result_rel_refl. intros d.
  simpl. unfold unmix_same; simpl. auto 10.
Qed.

(** X6: [verbose] and [log] change neither what [sinkhorn], [barycenter] and
    [unmix] compute nor the exception they raise: two calls that differ in
    these flags only return the same plan (barycenter, mixture), or raise
    the same exception. *)
Theorem results_ignore_flags (a b : vec) (M : mat) (reg : F) (numItermax : Z)
    (stopThr : F) (A D M0 : mat) (weights : option vec) (h0 : vec) (reg0 alpha : F)
    (verbose log verbose' log' : bool) :
  result_rel (fun x y => fst (fst x) = fst (fst y))
    (sinkhorn a b M reg numItermax stopThr verbose log)
    (sinkhorn a b M reg numItermax stopThr verbose' log')
  /\ result_rel (fun x y => fst (fst x) = fst (fst y))
       (barycenter A M reg weights numItermax stopThr verbose log)
       (barycenter A M reg weights numItermax stopThr verbose' log')
  /\ result_rel (fun x y => fst (fst x) = fst (fst y))
       (unmix a D M M0 h0 reg reg0 alpha numItermax stopThr verbose log)
       (unmix a D M M0 h0 reg reg0 alpha numItermax stopThr verbose' log').
Proof.
  split; [| split].
  - unfold sinkhorn. apply (result_rel_bind sk_same).
    + unfold sinkhorn_loop. apply result_rel_refl. intros Kp.
      apply while_simulation.
      * intros s1 s2 (_ & _ & _ & _ & _ & Ee & Ec). unfold sinkhorn_cond.
        now rewrite Ee, Ec.
      * intros s1 s2 H. now apply sinkhorn_body_same.
      * unfold sk_same. auto 10.
    + intros s1 s2 (Eu & Ev & _). rewrite Eu, Ev.
      apply result_rel_refl. intros G. reflexivity.
  - unfold barycenter.
    apply (result_rel_bind (fun x y => fst x = fst y /\ bary_same (snd x) (snd y))).
    + unfold barycenter_loop. apply result_rel_refl. intros [[w K] st0].
      apply (result_rel_bind bary_same).
      * apply while_simulation.
        -- intros s1 s2 (_ & _ & Ee & Ec). unfold barycenter_cond. now rewrite Ee, Ec.
        -- intros s1 s2 H. now apply barycenter_body_same.
        -- unfold bary_same. auto.
      * intros s1 s2 H. simpl. auto.
    + intros [w1 s1] [w2 s2] [Ew (_ & EU & _)]. simpl in Ew, EU. subst w2. rewrite EU.
      apply result_rel_refl. intros g. reflexivity.
  - unfold unmix. apply (result_rel_bind unmix_same).
    + unfold unmix_loop. apply while_simulation.
      * intros s1 s2 (_ & _ & _ & Ee & Ec). unfold unmix_cond. now rewrite Ee, Ec.
      * intros s1 s2 H. now apply unmix_body_same.
      * unfold unmix_same. auto 10.
    + intros s1 s2 (_ & EK0 & _). simpl. now rewrite EK0.
Qed.

(** *** Leaving the loop before [numItermax] *)

(** X23: The error that [barycenter] last computed is the last entry of its
    log, and [niter < numItermax] only when that error (the initial error 1
    when none was computed) does not exceed [stopThr]. *)
Theorem barycenter_early_stop (A M : mat) (reg : F) (weights : option vec)
    (numItermax : Z) (stopThr : F) (verbose : bool)
    (g : vec) (errs : list F) (niter : Z) (out : list (event F)) :
  barycenter A M reg weights numItermax stopThr verbose true
  = Ok (g, Some (errs, niter), out) ->
  (niter < numItermax)%Z ->
  (errs = [] /\ fltb stopThr (of_int 1) = false)
  \/ (exists l e, errs = l ++ [e] /\ fltb stopThr e = false).
Proof.
  unfold barycenter, barycenter_loop. intros H Hlt.
  apply bind_Ok in H. destruct H as ([w st] & Hl & H).
  apply bind_Ok in H. destruct H as (g' & _ & H). injection H as _ <- <- _.
  apply bind_Ok in Hl. destruct Hl as ([[w' K] st0] & Hinit & Hl).
  apply bind_Ok in Hl. destruct Hl as (st' & Hw & Hl). injection Hl as _ <-.
  assert (H0 : bs_log st0 = [] /\ bs_err st0 = of_int 1).
  { unfold barycenter_init in Hinit.
    apply bind_Ok in Hinit. destruct Hinit as (w0 & _ & Hinit).
    apply bind_Ok in Hinit. destruct Hinit as (AT & _ & Hinit).
    apply bind_Ok in Hinit. destruct Hinit as (UKv & _ & Hinit).
    apply bind_Ok in Hinit. destruct Hinit as (uT & _ & Hinit).
    injection Hinit as _ _ <-. auto. }
  set (I := fun s : bary_state F =>
              (bs_log s = [] /\ bs_err s = of_int 1)
              \/ exists l, bs_log s = l ++ [bs_err s]).
  assert (Hex : (I st' /\ barycenter_cond stopThr numItermax st' = false) \/ False).
  { refine (while_exit I (fun _ => False) _ _ _ _ _ _ _ _ Hw).
    - intros s s' HI _ Hb. unfold barycenter_body in Hb.
      apply bind_Ok in Hb. destruct Hb as (Ku & _ & Hb).
      apply bind_Ok in Hb. destruct Hb as (AKu & _ & Hb).
      apply bind_Ok in Hb. destruct Hb as (KAKu & _ & Hb).
      apply bind_Ok in Hb. destruct Hb as (UKv & _ & Hb).
      apply bind_Ok in Hb. destruct Hb as (gb & _ & Hb).
      apply bind_Ok in Hb. destruct Hb as (uTg & _ & Hb).
      apply bind_Ok in Hb. destruct Hb as (u & _ & Hb).
      destruct (Z.eqb ((bs_cpt s + 1) mod 10) 1); injection Hb as <-; unfold I; simpl.
      + right. now exists (bs_log s).
      + exact HI.
    - intros s s' _ _ Hb. unfold barycenter_body in Hb.
      apply bind_Ok in Hb. destruct Hb as (Ku & _ & Hb).
      apply bind_Ok in Hb. destruct Hb as (AKu & _ & Hb).
      apply bind_Ok in Hb. destruct Hb as (KAKu & _ & Hb).
      apply bind_Ok in Hb. destruct Hb as (UKv & _ & Hb).
      apply bind_Ok in Hb. destruct Hb as (gb & _ & Hb).
      apply bind_Ok in Hb. destruct Hb as (uTg & _ & Hb).
      apply bind_Ok in Hb. destruct Hb as (u & _ & Hb).
      destruct (Z.eqb ((bs_cpt s + 1) mod 10) 1); discriminate.
    - left. exact H0. }
  destruct Hex as [[HI Hc] | []].
  unfold barycenter_cond in Hc. apply andb_false_iff in Hc.
  destruct Hc as [Hc | Hc]; [| apply Z.ltb_ge in Hc; lia].
  destruct HI as [[El Ee] | (l & El)].
  - left. rewrite <- Ee. auto.
  - right. exists l, (bs_err st'). auto.
Qed.

(** X25: [unmix] logs the error of each iteration, and [niter < numItermax]
    only when the last one (the initial error 1 when there was no
    iteration) does not exceed [stopThr]. *)
Theorem unmix_early_stop (a : vec) (D M M0 : mat) (h0 : vec) (reg reg0 alpha : F)
    (numItermax : Z) (stopThr : F) (verbose : bool)
    (h : vec) (errs : list F) (niter : Z) (out : list (event F)) :
  unmix a D M M0 h0 reg reg0 alpha numItermax stopThr verbose true
  = Ok (h, Some (errs, niter), out) ->
  (niter < numItermax)%Z ->
  (errs = [] /\ niter = 0%Z /\ fltb stopThr (of_int 1) = false)
  \/ (exists l e, errs = l ++ [e] /\ (0 < niter)%Z /\ fltb stopThr e = false).
Proof.
  unfold unmix, unmix_loop. intros H Hlt.
  apply bind_Ok in H. destruct H as (st & Hw & H). injection H as _ <- <- _.
  set (I := fun s : unmix_state F =>
              (us_log s = [] /\ us_cpt s = 0%Z /\ us_err s = of_int 1)
              \/ (0 < us_cpt s)%Z /\ exists l, us_log s = l ++ [us_err s]).
  assert (Hbody : forall s s' brk,
             unmix_body a D h0 alpha verbose true s = Ok (s', brk) ->
             brk = false /\ us_cpt s' = (us_cpt s + 1)%Z
             /\ us_log s' = us_log s ++ [us_err s']).
  { intros s s' brk Hb. unfold unmix_body in Hb.
    apply bind_Ok in Hb. destruct Hb as (K1 & _ & Hb).
    apply bind_Ok in Hb. destruct Hb as (K01 & _ & Hb).
    apply bind_Ok in Hb. destruct Hb as (inv_new & _ & Hb).
    apply bind_Ok in Hb. destruct Hb as (e & _ & Hb).
    apply bind_Ok in Hb. destruct Hb as (K2 & _ & Hb).
    apply bind_Ok in Hb. destruct Hb as (r & _ & Hb).
    apply bind_Ok in Hb. destruct Hb as (Dr & _ & Hb).
    apply bind_Ok in Hb. destruct Hb as (K02 & _ & Hb).
    apply bind_Ok in Hb. destruct Hb as (d & _ & Hb).
    injection Hb as <- <-. simpl. auto. }
  assert (Hex : (I st /\ unmix_cond stopThr numItermax st = false) \/ False).
  { refine (while_exit I (fun _ => False) _ _ _ _ _ _ _ _ Hw).
    - intros s s' HI _ Hb. destruct (Hbody s s' false Hb) as (_ & Ec & El).
      unfold I. right. split; [| now exists (us_log s)].
      destruct HI as [(_ & E0 & _) | [Hp _]]; lia.
    - intros s s' _ _ Hb. destruct (Hbody s s' true Hb) as (Hf & _). discriminate.
    - left. unfold unmix_init; simpl. auto. }
  destruct Hex as [[HI Hc] | []].
  unfold unmix_cond in Hc. apply andb_false_iff in Hc.
  destruct Hc as [Hc | Hc]; [| apply Z.ltb_ge in Hc; lia].
  destruct HI as [(El & E0 & Ee) | (Hp & l & El)].
  - left. rewrite <- Ee. auto.
  - right. exists l, (us_err st). auto.
Qed.

End Flags.

(** ** The console of [barycenter] *)

Section BarycenterConsole.

Context {F : Type} {FO : Float64 F}.

Local Abbreviation vec := (list F).
Local Abbreviation mat := (list (list F)).

(** X26: [barycenter] prints nothing but the lines of its error checks, at
    the iterations whose number is 1 modulo 10, and only when [verbose] is
    set: no warning, and never the header, which is only printed when
    [cpt%200 == 0], a test that is only reached when [cpt%10 == 1]. *)
Theorem barycenter_console (A M : mat) (reg : F) (weights : option vec)
    (numItermax : Z) (stopThr : F) (verbose log : bool)
    (g : vec) (lg : option (list F * Z)) (out : list (event F)) :
  barycenter A M reg weights numItermax stopThr verbose log = Ok (g, lg, out) ->
  Forall (fun e => exists cpt err, e = Row cpt err /\ (cpt mod 10 = 1)%Z) out
  /\ (verbose = false -> out = []).
Proof.
  unfold barycenter, barycenter_loop. intros H.
  apply bind_Ok in H. destruct H as ([w st] & Hl & H).
  apply bind_Ok in H. destruct H as (g' & _ & H). injection H as _ _ <-.
  apply bind_Ok in Hl. destruct Hl as ([[w' K] st0] & Hinit & Hl).
  apply bind_Ok in Hl. destruct Hl as (st' & Hw & Hl). injection Hl as _ <-.
  assert (H0 : bs_out st0 = []).
  { unfold barycenter_init in Hinit.
    apply bind_Ok in Hinit. destruct Hinit as (w0 & _ & Hinit).
    apply bind_Ok in Hinit. destruct Hinit as (AT & _ & Hinit).
    apply bind_Ok in Hinit. destruct Hinit as (UKv & _ & Hinit).
    apply bind_Ok in Hinit. destruct Hinit as (uT & _ & Hinit).
    injection Hinit as _ _ <-. reflexivity. }
  refine (while_invariant
            (fun s => Forall (fun e => exists cpt err, e = Row cpt err /\ (cpt mod 10 = 1)%Z)
                        (bs_out s)
                      /\ (verbose = false -> bs_out s = []))
            _ _ _ _ st0 st' _ Hw).
  - intros s s' brk [HI1 HI2] _ Hb. unfold barycenter_body in Hb.
    apply bind_Ok in Hb. destruct Hb as (Ku & _ & Hb).
    apply bind_Ok in Hb. destruct Hb as (AKu & _ & Hb).
    apply bind_Ok in Hb. destruct Hb as (KAKu & _ & Hb).
    apply bind_Ok in Hb. destruct Hb as (UKv & _ & Hb).
    apply bind_Ok in Hb. destruct Hb as (gb & _ & Hb).
    apply bind_Ok in Hb. destruct Hb as (uTg & _ & Hb).
    apply bind_Ok in Hb. destruct Hb as (u & _ & Hb).
    destruct (Z.eqb ((bs_cpt s + 1) mod 10) 1) eqn:E;
      injection Hb as <- _; cbn [bs_out]; [| auto].
    apply Z.eqb_eq in E. unfold verbose_lines. destruct verbose.
    + assert (Hnh : Z.eqb ((bs_cpt s + 1) mod 200) 0 = false).
      { apply Z.eqb_neq. intros E0.
        pose proof (Z.div_mod (bs_cpt s + 1) 200 ltac:(lia)) as H200.
        pose proof (Z.div_mod (bs_cpt s + 1) 10 ltac:(lia)) as H10.
        rewrite E0 in H200. rewrite E in H10. lia. }
      rewrite Hnh. cbn [app]. split; [| discriminate].
      apply Forall_app. split; [exact HI1|]. constructor; [| constructor].
      eexists _, _. split; [reflexivity | exact E].
    + rewrite app_nil_r. auto.
  - rewrite H0. split; [constructor | reflexivity].
Qed.

End BarycenterConsole.

(** * Instances of the further properties *)

(** ** On binary64 floats *)

Section Binary64Checks.

Import PrimFloat Binary64.
Local Open Scope float_scope.

Lemma sample_M_is_matrix : is_matrix sample_M.
Proof. repeat constructor. Defined.

Lemma sample_M_shape : has_shape sample_M 2 2.
Proof. split; [reflexivity | repeat constructor]. Defined.

Lemma sample_A_shape : has_shape sample_A 2 2.
Proof. split; [reflexivity | repeat constructor]. Defined.

Lemma sample_D_shape : has_shape sample_D 2 2.
Proof. split; [reflexivity | repeat constructor]. Defined.

Lemma no_warmstart (r c : nat) (al be : list float) :
  @None (list float * list float) = Some (al, be) ->
  List.length al = r /\ List.length be = c.
Proof. intros H. discriminate H. Defined.

Lemma sinkhorn_returns_plan_run :
  exists st G,
    sinkhorn_loop [0.5; 0.5] [0.5; 0.5] sample_M 1 1000 lit_1em9 false true = Ok st
    /\ sinkhorn [0.5; 0.5] [0.5; 0.5] sample_M 1 1000 lit_1em9 false true
       = Ok (G, Some (sk_log st), sk_out st)
    /\ has_shape G 2 2
    /\ (0 <= sk_cpt st <= Z.max 0 1000)%Z
    /\ (true = true -> List.length (sk_log st) = Z.to_nat ((sk_cpt st + 9) / 10)).
Proof.
  refine (sinkhorn_returns_plan [0.5; 0.5] [0.5; 0.5] sample_M 1 1000 lit_1em9 false true
            sample_M_is_matrix Nat.lt_0_2 _ _); right; reflexivity.
Defined.

Lemma sinkhorn_no_iteration_run :
  exists G,
    sinkhorn_plan (gibbs_kernel sample_M 1) (uniform 2) (uniform 2) = Ok G
    /\ sinkhorn [0.5; 0.5] [] sample_M 1 0 lit_1em9 true true = Ok (G, Some [], []).
Proof.
  refine (sinkhorn_no_iteration [0.5; 0.5] [] sample_M 1 0 lit_1em9 true true
            sample_M_is_matrix Nat.lt_0_2 _ _ _).
  - right; reflexivity.
  - left; reflexivity.
  - left. apply Z.le_refl.
Defined.

Lemma sinkhorn_console_run :
  exists rows : list (event float),
    ([Warning] = rows \/ [Warning] = rows ++ [Warning])
    /\ Forall (fun e => e <> Warning) rows
    /\ (false = false -> rows = []).
Proof.
  refine (sinkhorn_console [0] [1] [[0]] 1 1000 lit_1em9 false true [[1]] (Some [1])
            [Warning] _).
  vm_compute; reflexivity.
Defined.

Lemma sinkhorn_marginal_mismatch_run :
  sinkhorn [1; 2; 3] [0.5; 0.5] sample_M 1 1000 lit_1em9 false false = Raise ValueError.
Proof.
  refine (sinkhorn_marginal_mismatch [1; 2; 3] [0.5; 0.5] sample_M 1 1000 lit_1em9
            false false _ _).
  - intros H. discriminate H.
  - intros H. discriminate H.
Defined.

Lemma stabilized_zero_print_period_run :
  sinkhorn_stabilized [0.5; 0.5] [0.5; 0.5] sample_M 1 1000 1000 lit_1em9 None false 0
    false = Raise ZeroDivisionError.
Proof.
  refine (stabilized_zero_print_period [0.5; 0.5] [0.5; 0.5] sample_M 1 1000 1000
            lit_1em9 None false false sample_M_is_matrix Nat.lt_0_2 Nat.lt_0_2 _ _
            (no_warmstart _ _)); right; reflexivity.
Defined.

Lemma stabilized_iterations_run :
  exists st G lgo,
    stabilized_loop [0.5; 0.5] [0.5; 0.5] sample_M 1 0 1000 lit_1em9 None false 20 true
    = Ok st
    /\ sinkhorn_stabilized [0.5; 0.5] [0.5; 0.5] sample_M 1 0 1000 lit_1em9 None false
         20 true = Ok (G, lgo, st_out st)
    /\ has_shape G 2 2
    /\ (0 <= st_cpt st <= Z.max 0 0 + 1)%Z
    /\ (st_cpt st = 0%Z -> exists rows, st_out st = rows ++ [Warning]).
Proof.
  refine (stabilized_iterations [0.5; 0.5] [0.5; 0.5] sample_M 1 0 1000 lit_1em9 None
            false 20 true sample_M_is_matrix Nat.lt_0_2 Nat.lt_0_2 _ _
            (no_warmstart _ _) _).
  - right; reflexivity.
  - right; reflexivity.
  - intros H. discriminate H.
Defined.

Lemma geometricBar_weights_run :
  (List.length [0.5; 0.5] <> 2%nat -> geometricBar [0.5; 0.5] sample_A = Raise AssertionError)
  /\ (List.length [0.5; 0.5] = 2%nat ->
      exists g, geometricBar [0.5; 0.5] sample_A = Ok g /\ List.length g = 2%nat).
Proof.
  exact (geometricBar_weights [0.5; 0.5] sample_A 2 2 sample_A_shape Nat.lt_0_2).
Defined.

Lemma projections_transposed_run :
  projR sample_D [1; 1] = result_map transpose (projC (transpose sample_D) [1; 1])
  /\ projC sample_D [1; 1] = result_map transpose (projR (transpose sample_D) [1; 1]).
Proof.
  exact (projections_transposed sample_D [1; 1] [1; 1] 2 2 sample_D_shape Nat.lt_0_2
           Nat.lt_0_2 eq_refl).
Defined.

Lemma projections_size_mismatch_run :
  (List.length [1; 2; 3] <> 2%nat -> List.length [1; 2; 3] <> 1%nat -> 2%nat <> 1%nat ->
   projR sample_D [1; 2; 3] = Raise ValueError)
  /\ (List.length [1; 2; 3] <> 2%nat -> List.length [1; 2; 3] <> 1%nat -> 2%nat <> 1%nat ->
      projC sample_D [1; 2; 3] = Raise ValueError).
Proof.
  exact (projections_size_mismatch sample_D [1; 2; 3] [1; 2; 3] 2 2 sample_D_shape
           Nat.lt_0_2).
Defined.

Lemma no_weights (n : nat) (w : list float) :
  @None (list float) = Some w -> List.length w = n.
Proof. intros H. discriminate H. Defined.

Lemma barycenter_returns_run :
  exists w st g,
    barycenter_loop sample_A sample_M 1 None 1000 0.0001 false true = Ok (w, st)
    /\ barycenter sample_A sample_M 1 None 1000 0.0001 false true
       = Ok (g, Some (bs_log st, bs_cpt st), bs_out st)
    /\ List.length g = 2%nat
    /\ (0 <= bs_cpt st <= Z.max 0 1000)%Z
    /\ (true = true -> List.length (bs_log st) = Z.to_nat ((bs_cpt st + 9) / 10)).
Proof.
  exact (barycenter_returns sample_A sample_M 1 None 1000 0.0001 false true 2 2
           sample_A_shape sample_M_shape Nat.lt_0_2 Nat.lt_0_2 (no_weights 2)).
Defined.

Lemma unmix_returns_run :
  exists st h,
    unmix_loop [0.3; 0.7] sample_D sample_M sample_M [0.5; 0.5] 1 1 0.5 1000 0.001
      false true = Ok st
    /\ unmix [0.3; 0.7] sample_D sample_M sample_M [0.5; 0.5] 1 1 0.5 1000 0.001
         false true = Ok (h, Some (us_log st, us_cpt st), us_out st)
    /\ List.length h = 2%nat
    /\ (0 <= us_cpt st <= Z.max 0 1000)%Z
    /\ (true = true -> List.length (us_log st) = Z.to_nat (us_cpt st)).
Proof.
  exact (unmix_returns [0.3; 0.7] sample_D sample_M sample_M [0.5; 0.5] 1 1 0.5 1000
           0.001 false true 2 2 sample_D_shape sample_M_shape sample_M_shape
           Nat.lt_0_2 Nat.lt_0_2 eq_refl eq_refl).
Defined.

Lemma barycenter_early_stop_run :
  (snd sample_barycenter = [] /\ fltb 0.0001 (of_int 1) = false)
  \/ (exists l e, snd sample_barycenter = l ++ [e] /\ fltb 0.0001 e = false).
Proof.
  refine (barycenter_early_stop sample_A sample_M 1 None 1000 0.0001 false
            (fst sample_barycenter) (snd sample_barycenter) 11 [] _ _).
  - vm_compute; reflexivity.
  - reflexivity.
Defined.

Lemma unmix_early_stop_run :
  (snd sample_unmix = [] /\ 6%Z = 0%Z /\ fltb 0.001 (of_int 1) = false)
  \/ (exists l e, snd sample_unmix = l ++ [e] /\ (0 < 6)%Z /\ fltb 0.001 e = false).
Proof.
  refine (unmix_early_stop [0.3; 0.7] sample_D sample_M sample_M [0.5; 0.5] 1 1 0.5
            1000 0.001 false (fst sample_unmix) (snd sample_unmix) 6 [] _ _).
  - vm_compute; reflexivity.
  - reflexivity.
Defined.

End Binary64Checks.

(** ** In exact arithmetic *)

Section ExactChecks.

Import XReal.
Local Open Scope R_scope.

Lemma one_by_one (x : R) : has_shape [[Fin x]] 1 1.
Proof. split; [reflexivity | repeat constructor]. Defined.

Lemma half_below_one : fltb (Fin (/ 2)) (of_int 1) = true.
Proof.
  cbn [fltb float64 xltb of_int]. unfold Rltb.
  destruct (Rlt_dec (/ 2) 1) as [_|H]; [reflexivity | exfalso; apply H; lra].
Defined.

Lemma at_least_Fin (x : R) : / 10000000000 <= x -> at_least (/ 10000000000) (Fin x).
Proof. intros H. exists x. split; [reflexivity | exact H]. Defined.


Lemma get_reg_bounds_run :
  exists x y,
    get_reg (Fin 10000) (Fin 1) 0 = Fin x
    /\ get_reg (Fin 10000) (Fin 1) (0 + 1) = Fin y
    /\ 1 <= y <= x /\ x <= 10000
    /\ get_reg (Fin 10000) (Fin 1) 0 = Fin 10000.
Proof.
  refine (get_reg_bounds 10000 1 0 _ (Z.le_refl 0)). lra.
Defined.

Lemma sinkhorn_row_marginal_run :
  exists G lg out,
    sinkhorn [Fin 1] [Fin 1] [[Fin 0]] (Fin 1) 10 (Fin (/ 2)) false false = Ok (G, lg, out)
    /\ np_sum_axis1 G = [Fin 1].
Proof.
  refine (sinkhorn_row_marginal [Fin 1] [Fin 1] [[Fin 0]] 1 10 (Fin (/ 2)) false false
            1 1 (one_by_one 0) Nat.lt_0_1 Nat.lt_0_1 eq_refl eq_refl _ _ _ R1_neq_R0
            eq_refl half_below_one).
  - constructor; [exact positive_Fin_1 | constructor].
  - constructor; [exact positive_Fin_1 | constructor].
  - repeat constructor. exact (finite_Fin 0).
Defined.

Lemma stabilized_row_marginal_run :
  exists G lg out,
    sinkhorn_stabilized [Fin 1] [Fin 1] [[Fin 0]] (Fin 1) 10 (Fin 1000) (Fin (/ 2)) None
      false 20 false = Ok (G, lg, out)
    /\ np_sum_axis1 G = [Fin 1].
Proof.
  refine (stabilized_row_marginal [Fin 1] [Fin 1] [[Fin 0]] 1 10 (Fin 1000) (Fin (/ 2))
            None false 20 false 1 1 (one_by_one 0) Nat.lt_0_1 Nat.lt_0_1 eq_refl eq_refl
            _ _ _ R1_neq_R0 _ _).
  - constructor; [exact positive_Fin_1 | constructor].
  - constructor; [exact positive_Fin_1 | constructor].
  - repeat constructor. exact (finite_Fin 0).
  - intros al be H. discriminate H.
  - intros H. discriminate H.
Defined.

Lemma geometricBar_uniform_run :
  geometricBar (uniform 1) [[Fin 1]] = Ok (geometricMean [[Fin 1]]).
Proof.
  refine (geometricBar_uniform [[Fin 1]] 1 1 (one_by_one 1) Nat.lt_0_1 Nat.lt_0_1 _).
  repeat constructor. exact positive_Fin_1.
Defined.

Lemma consensus_fixed_point_run :
  geometricBar [Fin (/ 2); Fin (/ 2)] (map (fun e => repeat e 2) [Fin 1; Fin 2])
  = Ok [Fin 1; Fin 2]
  /\ geometricMean (map (fun e => repeat e 2) [Fin 1; Fin 2]) = [Fin 1; Fin 2]
  /\ barycenter_error (map (fun e => repeat e 2) [Fin 1; Fin 2]) = Fin 0.
Proof.
  refine (consensus_fixed_point [Fin 1; Fin 2] [Fin (/ 2); Fin (/ 2)] 2 _ Nat.lt_0_2 _
            eq_refl Nat.lt_0_2 _).
  - constructor; [exact positive_Fin_1 |]. constructor; [| constructor].
    exists 2. split; [reflexivity | lra].
  - repeat constructor; apply finite_Fin.
  - unfold np_sum. cbn [fold_left fadd float64 xadd of_int]. f_equal. lra.
Defined.

Lemma projections_idempotent_run :
  (exists PR, projR [[Fin 1]] [Fin 2] = Ok PR /\ projR PR [Fin 2] = Ok PR)
  /\ (exists PC, projC [[Fin 1]] [Fin 3] = Ok PC /\ projC PC [Fin 3] = Ok PC).
Proof.
  refine (projections_idempotent [[Fin 1]] [Fin 2] [Fin 3] 1 1 (one_by_one 1)
            Nat.lt_0_1 Nat.lt_0_1 _ eq_refl eq_refl _ _ _ _).
  - repeat constructor. exact (finite_Fin 1).
  - constructor; [apply at_least_Fin; lra | constructor].
  - constructor; [apply at_least_Fin; lra | constructor].
  - constructor; [| constructor]. exists (0 + 1). split; [reflexivity | lra].
  - constructor; [| constructor]. exists (0 + 1). split; [reflexivity | lra].
Defined.

End ExactChecks.

Section BarycenterConsoleRun.

Import PrimFloat Binary64.
Local Open Scope float_scope.

Lemma barycenter_console_run :
  Forall (fun e => exists cpt err, e = Row cpt err /\ (cpt mod 10 = 1)%Z)
    (snd sample_verbose)
  /\ (true = false -> snd sample_verbose = []).
Proof.
  refine (barycenter_console sample_A sample_M 1 None 1000 0.0001 true false
            (fst (fst sample_verbose)) (snd (fst sample_verbose)) (snd sample_verbose) _).
  vm_compute; reflexivity.
Defined.

End BarycenterConsoleRun.
